(** * A Rocq model of the Node.js Pagefind search client

    Shallow embedding of [src/pagefind-client.ts]: decompression, query
    normalization, filter parsing, excerpt selection, sub-result
    segmentation and the memoized chunk loading of [PagefindClient].

    Conventions.
    - A JavaScript string is the list of its UTF-16 code units ([list N]).
    - A [Uint8Array] is a [list byte].
    - A JavaScript number holding a score or a weight is a binary64
      [float]; word offsets, counts and lengths are integers ([Z]).
    - A JavaScript array with holes is a [list (option A)]; [None] is a
      hole (read back as [undefined]).
    - [Map] instances are [gmap]s; the plain object of the filters is a
      [gmap] of its own properties and its prototype.
    - What the repository takes from the runtime or from the WebAssembly
      module (the Unicode case table, zlib, the URL parser, the number
      parsers, the clock, the engine exports) is a parameter. *)

From Stdlib Require Import ZArith NArith List Bool Ascii String Floats Lia Sorted.
From Stdlib Require Strings.Byte DecimalString.
From stdpp Require Import base option list gmap.

Local Open Scope N_scope.

(** ** JavaScript strings *)

Abbreviation jsstring := (list N).

(** A string literal of the source, all of whose characters are ASCII. *)
Definition lit (s : string) : jsstring :=
  List.map N_of_ascii (list_ascii_of_string s).

(** ECMAScript [LineTerminator]: LF, CR, LS, PS.  The regular-expression
    atom [.] matches every code unit but these. *)
Definition isLineTerminator (c : N) : bool :=
  (c =? 10) || (c =? 13) || (c =? 8232) || (c =? 8233).

(** ECMAScript [WhiteSpace] and [LineTerminator]: what [\s] matches and
    what [String.prototype.trim] removes. *)
Definition isWhiteSpace (c : N) : bool :=
  ((9 <=? c) && (c <=? 13)) || (c =? 32) || (c =? 160) || (c =? 5760)
  || ((8192 <=? c) && (c <=? 8202)) || (c =? 8232) || (c =? 8233)
  || (c =? 8239) || (c =? 8287) || (c =? 12288) || (c =? 65279).

(** [\d] *)
Definition isDigit (c : N) : bool := (48 <=? c) && (c <=? 57).

Fixpoint trimStart (s : jsstring) : jsstring :=
  match s with
  | c :: rest => if isWhiteSpace c then trimStart rest else s
  | [] => []
  end.

Definition trimEnd (s : jsstring) : jsstring := rev (trimStart (rev s)).

(** [String.prototype.trim] *)
Definition trim (s : jsstring) : jsstring := trimEnd (trimStart s).

(** [String.prototype.startsWith] *)
Fixpoint startsWith (s prefix : jsstring) : bool :=
  match prefix, s with
  | [], _ => true
  | p :: prefix', c :: s' => (c =? p) && startsWith s' prefix'
  | _ :: _, [] => false
  end.

(** [String.prototype.includes] *)
Fixpoint includes (s sub : jsstring) : bool :=
  startsWith s sub ||
  match s with
  | [] => false
  | _ :: s' => includes s' sub
  end.

(** ** Query normalization ([PagefindClient.search], lines 327-333) *)

(** The character class of the first [replace]: the ASCII punctuation
    marks from the full stop to the hyphen; 34 is the double quote. *)
Definition strippedPunctuation : jsstring :=
  lit ".`~!@#$%^&*(){}[]\|:;'" ++ [34] ++ lit ",<>/?-".

Definition isStripped (c : N) : bool :=
  existsb (N.eqb c) strippedPunctuation.

(** [.replace(/[...]/g, '')] *)
Definition stripPunctuation (s : jsstring) : jsstring :=
  List.filter (fun c => negb (isStripped c)) s.

Definition headIsWhiteSpace (s : jsstring) : bool :=
  match s with
  | c :: _ => isWhiteSpace c
  | [] => false
  end.

(** [.replace(/\s{2,}/g, ' ')]: every maximal run of two or more
    white-space units becomes one space; a lone white-space unit (a tab,
    say) is kept as it is.  [inRun] tells that the unit before belongs to a
    run already replaced. *)
Fixpoint collapseRuns (inRun : bool) (s : jsstring) : jsstring :=
  match s with
  | [] => []
  | c :: rest =>
      if isWhiteSpace c then
        if inRun then collapseRuns true rest
        else if headIsWhiteSpace rest then 32 :: collapseRuns true rest
        else c :: collapseRuns false rest
      else c :: collapseRuns false rest
  end.

Definition collapseWhiteSpace (s : jsstring) : jsstring := collapseRuns false s.

(** The rest of the pattern after the opening quote: one or more [.], a
    closing quote, then [\s*] up to the end.  [seen] tells that [.+] has
    consumed a unit already. *)
Fixpoint quotedTail (seen : bool) (s : jsstring) : bool :=
  match s with
  | [] => false
  | c :: rest =>
      (seen && (c =? 34) && forallb isWhiteSpace rest)
      || (negb (isLineTerminator c) && quotedTail true rest)
  end.

(** [exactSearch]: the test of [term] against the pattern made of [^\s*],
    a double quote, [.+], a double quote and [\s*$]. *)
Definition exactSearch (term : jsstring) : bool :=
  match trimStart term with
  | c :: rest => (c =? 34) && quotedTail false rest
  | [] => false
  end.

(** ASCII part of the case table: [A]-[Z] to [a]-[z]. *)
Definition asciiLower (c : N) : N :=
  if (65 <=? c) && (c <=? 90) then c + 32 else c.

(** *** Code points *)

Definition isHighSurrogate (c : N) : bool := (55296 <=? c) && (c <=? 56319).
Definition isLowSurrogate (c : N) : bool := (56320 <=? c) && (c <=? 57343).

(** The code point that a surrogate pair writes. *)
Definition pairPoint (h l : N) : N := 65536 + (h - 55296) * 1024 + (l - 56320).

(** [StringToCodePoints]: a high surrogate followed by a low surrogate is
    one code point; every other unit is a code point by itself, a surrogate
    without its partner included. *)
Fixpoint codePoints (s : jsstring) : list N :=
  match s with
  | [] => []
  | h :: rest =>
      match rest with
      | l :: rest' =>
          if isHighSurrogate h && isLowSurrogate l
          then pairPoint h l :: codePoints rest'
          else h :: codePoints rest
      | [] => [h]
      end
  end.

(** A code point as UTF-16 code units. *)
Definition utf16Units (cp : N) : jsstring :=
  if cp <? 65536 then [cp]
  else [55296 + N.shiftr (cp - 65536) 10; 56320 + N.land (cp - 65536) 1023].

(** What is used of the Unicode data of the runtime.  [lowerPoint c] is the
    lower-case mapping of the code point [c] where no condition applies: one
    code point, or two for U+0130.  [finalSigma before after] is the
    condition [Final_Sigma] for a capital sigma that stands between the
    code points [before], the nearest first, and the code points [after]. *)
Record CaseData : Type := {
  lowerPoint : N -> list N;
  finalSigma : list N -> list N -> bool
}.

(** The ASCII part of the table. *)
Class CaseTable (data : CaseData) : Prop := {
  lower_ascii : forall c, c < 128 -> lowerPoint data c = [asciiLower c]
}.

Section Normalization.

Variable data : CaseData.

(** The lower-case forms of the code points of a string, each in its
    context: the capital sigma (931) gives the final small sigma (962)
    where [Final_Sigma] holds and the small sigma (963) elsewhere; every
    other code point gives its mapping. *)
Fixpoint lowerPoints (before s : list N) : list N :=
  match s with
  | [] => []
  | c :: after =>
      (if c =? 931 then if finalSigma data before after then [962] else [963]
       else lowerPoint data c)
      ++ lowerPoints (c :: before) after
  end.

(** [String.prototype.toLowerCase]: the string is read as code points, the
    code points are lower-cased and written back as code units. *)
Definition toLowerCase (s : jsstring) : jsstring :=
  flat_map utf16Units (lowerPoints [] (codePoints s)).

(** [term.toLowerCase().trim().replace(...).replace(...).trim()] *)
Definition normalize (term : jsstring) : jsstring :=
  trim (collapseWhiteSpace (stripPunctuation (trim (toLowerCase term)))).

End Normalization.

(** The table that lower-cases the ASCII letters only and takes no sigma
    for final. *)
Definition asciiTable : CaseData :=
  {| lowerPoint := fun c => [asciiLower c];
     finalSigma := fun _ _ => false |}.

(** A larger table for the examples: it lower-cases the ASCII letters, the
    capital sigma and the Deseret capital long I (U+10400, to U+10428), and
    takes a sigma for final when one of these letters stands right before
    it and none right after it. *)
Definition sampleLetter (c : N) : bool :=
  ((65 <=? c) && (c <=? 90)) || ((97 <=? c) && (c <=? 122))
  || (c =? 931) || (c =? 962) || (c =? 963) || (c =? 66560) || (c =? 66600).

Definition sampleTable : CaseData :=
  {| lowerPoint := fun c =>
       if c =? 931 then [963] else if c =? 66560 then [66600] else [asciiLower c];
     finalSigma := fun before after =>
       match before with b :: _ => sampleLetter b | [] => false end
       && negb (match after with a :: _ => sampleLetter a | [] => false end) |}.

(** ** Errors *)

(** What the code can throw: its own [new Error(message)], the runtime's
    [TypeError] (a property read on [undefined], an invalid URL), the error
    of [gunzipSync] on a corrupt stream, and a rejected [fetch]. *)
Inductive jsError : Type :=
  | ErrorMessage (message : jsstring)
  | TypeError
  | ZlibError
  | FetchFailed.

Inductive outcome (A : Type) : Type :=
  | Return (a : A)
  | Throw (e : jsError).
Arguments Return {A} a.
Arguments Throw {A} e.

(** Sequencing: a thrown error skips what follows.  With these instances
    [x ← m; k] reads as the statements of the source do. *)
#[global] Instance outcome_ret : MRet outcome := fun _ a => Return a.
#[global] Instance outcome_bind : MBind outcome := fun _ _ k m =>
  match m with
  | Return a => k a
  | Throw e => Throw e
  end.

(** ** Decompression *)

Abbreviation bytes := (list Byte.byte).

(** The first byte of a UTF-8 sequence: a code point at once, or the
    start of a sequence with the bits read so far, the number of
    continuation bytes still needed and the bounds of the next one. *)
Inductive utf8Lead : Type :=
  | LeadDone (cp : N)
  | LeadMore (cp : N) (needed : nat) (lower upper : N).

Definition utf8Lead_of (v : N) : utf8Lead :=
  if v <=? 127 then LeadDone v
  else if (194 <=? v) && (v <=? 223) then LeadMore (N.land v 31) 1 128 191
  else if (224 <=? v) && (v <=? 239) then
    LeadMore (N.land v 15) 2 (if v =? 224 then 160 else 128)
             (if v =? 237 then 159 else 191)
  else if (240 <=? v) && (v <=? 244) then
    LeadMore (N.land v 7) 3 (if v =? 240 then 144 else 128)
             (if v =? 244 then 143 else 191)
  else LeadDone 65533.

(** The UTF-8 decoder of [TextDecoder] in its default, non-fatal mode: a
    malformed sequence gives U+FFFD and the offending byte is read again
    as a first byte. *)
Fixpoint utf8Points (cp : N) (needed : nat) (lower upper : N) (bs : bytes)
  : list N :=
  match bs with
  | [] => match needed with O => [] | S _ => [65533] end
  | b :: rest =>
      let v := Byte.to_N b in
      let restart :=
        match utf8Lead_of v with
        | LeadDone c => c :: utf8Points 0 0 128 191 rest
        | LeadMore c n lo hi => utf8Points c n lo hi rest
        end in
      match needed with
      | O => restart
      | S n =>
          if (lower <=? v) && (v <=? upper) then
            let cp' := N.lor (N.shiftl cp 6) (N.land v 63) in
            match n with
            | O => cp' :: utf8Points 0 0 128 191 rest
            | S _ => utf8Points cp' n 128 191 rest
            end
          else 65533 :: restart
      end
  end.

Definition stripBOM (bs : bytes) : bytes :=
  match bs with
  | x :: y :: z :: rest =>
      if (Byte.to_N x =? 239) && (Byte.to_N y =? 187) && (Byte.to_N z =? 191)
      then rest else bs
  | _ => bs
  end.

(** [decoder.decode(data)] for [new TextDecoder('utf-8')]. *)
Definition decode (data : bytes) : jsstring :=
  flat_map utf16Units (utf8Points 0 0 128 191 (stripBOM data)).

Definition SIGNATURE : jsstring := lit "pagefind_dcd".

Section Decompress.

(** [gunzipSync] of zlib; [None] when it throws. *)
Variable gunzipSync : bytes -> option bytes.

(** [decompress], with the list of the buffers it handed to [gunzipSync]. *)
Definition decompress (data : bytes) : list bytes * outcome bytes :=
  if decide (decode (take 12 data) = SIGNATURE) then
    ([], Return (drop 12 data))
  else
    match gunzipSync data with
    | None => ([data], Throw ZlibError)
    | Some result =>
        if decide (decode (take 12 result) <> SIGNATURE) then
          ([data], Return result)
        else ([data], Return (drop 12 result))
    end.

End Decompress.

(** ** Splitting strings *)

(** [s.split(sep)] for a non-empty string [sep]; [skip] counts the units
    of a separator found that are still to be passed over, [cur] holds the
    current piece backwards. *)
Fixpoint splitGo (sep : jsstring) (skip : nat) (cur s : jsstring)
  : list jsstring :=
  match s with
  | [] => [rev cur]
  | c :: rest =>
      match skip with
      | S k => splitGo sep k cur rest
      | O =>
          if startsWith s sep then rev cur :: splitGo sep (length sep - 1) [] rest
          else splitGo sep 0 (c :: cur) rest
      end
  end.

Definition split (s sep : jsstring) : list jsstring := splitGo sep 0 [] s.

(** [s.split(/[\r\n\s]+/g)]: the pieces between maximal white-space runs. *)
Fixpoint splitWsGo (inSep : bool) (cur s : jsstring) : list jsstring :=
  match s with
  | [] => [rev cur]
  | c :: rest =>
      if isWhiteSpace c then
        if inSep then splitWsGo true cur rest
        else rev cur :: splitWsGo true [] rest
      else splitWsGo false (c :: cur) rest
  end.

Definition splitWhiteSpace (s : jsstring) : list jsstring := splitWsGo false [] s.

(** ** Filter parsing *)

Definition FILTER_DELIM : jsstring := lit "__PF_FILTER_DELIM__".
Definition VALUE_DELIM : jsstring := lit "__PF_VALUE_DELIM__".
Definition UNFILTERED_DELIM : jsstring := lit "__PF_UNFILTERED_DELIM__".

(** [const [filter, values] = block.split(re)], where [re] is a colon
    followed by a group of any number of [.] up to the end [$]: the split
    is at the first colon that no line terminator follows, [values] is
    what follows it; without such a colon [values] is [undefined]. *)
Fixpoint splitFilterBlock (pre block : jsstring) : jsstring * option jsstring :=
  match block with
  | [] => (rev pre, None)
  | c :: rest =>
      if (c =? 58) && forallb (fun d => negb (isLineTerminator d)) rest
      then (rev pre, Some rest)
      else splitFilterBlock (c :: pre) rest
  end.

Definition nonEmpty (s : jsstring) : bool :=
  match s with [] => false | _ :: _ => true end.

(** [valueBlock.match(re)], where [re] is, from [^] to [$], a greedy
    group of [.], a colon and a group [\d+]: the first group is tried at
    its longest first, then shortened down to a colon that only digits
    follow. *)
Fixpoint matchValueCount (pre s : jsstring) : option (jsstring * jsstring) :=
  match s with
  | [] => None
  | c :: rest =>
      match (if isLineTerminator c then None
             else matchValueCount (c :: pre) rest) with
      | Some r => Some r
      | None =>
          if (c =? 58) && nonEmpty rest && forallb isDigit rest
          then Some (rev pre, rest) else None
      end
  end.

(** The integer that a string of decimal digits writes: each digit counts
    for ten to the number of digits after it. *)
Fixpoint decimalValue (ds : jsstring) : Z :=
  match ds with
  | [] => 0%Z
  | d :: rest => ((Z.of_N d - 48) * 10 ^ Z.of_nat (length rest) + decimalValue rest)%Z
  end.

(** The Number value of an integer: the binary64 nearest to it, the one
    with the even significand when two are as near, infinity past the
    largest. *)
Definition nearestDouble (z : Z) : float :=
  SF2Prim (binary_normalize prec emax z 0 false).

(** [parseInt(count)] where [count] is a string of decimal digits.  (Past
    the twentieth significant digit the language lets an implementation
    replace the digits by zeros; the engines do not.) *)
Definition parseIntDigits (ds : jsstring) : float :=
  nearestDouble (decimalValue ds).

Definition PROTO : jsstring := lit "__proto__".

(** The plain object that [parseFilters] returns.  Its own properties are
    filter names, each holding the plain object of the counts of its
    values.  The key [__proto__] is no property of a plain object: it reads
    and sets the prototype, which is [Object.prototype] ([None] here) until
    an assignment to that key puts an object of counts in its place. *)
Record FilterObject : Type := {
  ownFilters : gmap jsstring (gmap jsstring float);
  prototype : option (gmap jsstring float)
}.

(** [{}] *)
#[global] Instance filterObject_empty : Empty FilterObject :=
  {| ownFilters := ∅; prototype := None |}.

(** [output[filter] = {}]: a new own property, or a new prototype for the
    key [__proto__]. *)
Definition resetFilter (output : FilterObject) (filter : jsstring) : FilterObject :=
  if bool_decide (filter = PROTO)
  then {| ownFilters := ownFilters output; prototype := Some ∅ |}
  else {| ownFilters := <[filter := ∅]> (ownFilters output);
          prototype := prototype output |}.

(** [output[filter][value] = n].  The object read at [output[filter]] is
    the own property, or the prototype for the key [__proto__]; it is there,
    [parseFilters] having assigned it just before.  On that object the key
    [__proto__] is the prototype setter again, which does nothing with a
    number; any other key becomes an own property. *)
Definition recordCount (output : FilterObject) (filter value : jsstring) (n : float)
  : FilterObject :=
  if bool_decide (value = PROTO) then output
  else if bool_decide (filter = PROTO)
  then {| ownFilters := ownFilters output;
          prototype := (fun counts => <[value := n]> counts) <$> prototype output |}
  else {| ownFilters :=
            alter (fun counts => <[value := n]> counts) filter (ownFilters output);
          prototype := prototype output |}.

Definition parseValueBlock (filter : jsstring) (output : FilterObject)
    (valueBlock : jsstring) : FilterObject :=
  if nonEmpty valueBlock then
    match matchValueCount [] valueBlock with
    | Some (value, count) => recordCount output filter value (parseIntDigits count)
    | None => output
    end
  else output.

Definition parseFilterBlock (output : FilterObject) (block : jsstring)
  : FilterObject :=
  let '(filter, values) := splitFilterBlock [] block in
  let output := resetFilter output filter in
  match values with
  | Some values =>
      if nonEmpty values
      then fold_left (parseValueBlock filter) (split values VALUE_DELIM) output
      else output
  | None => output
  end.

(** [parseFilters]; the argument is [None] when the caller passes
    [undefined]. *)
Definition parseFilters (str : option jsstring) : FilterObject :=
  match str with
  | None => ∅
  | Some [] => ∅
  | Some s => fold_left parseFilterBlock (split s FILTER_DELIM) ∅
  end.

(** ** Arrays *)

(** [arr[i]] for an integer [i]: a hole or an index past the end reads as
    [undefined], and so does a negative key (see [arraySet]). *)
Definition arrayGet {A} (arr : list (option A)) (i : Z) : option A :=
  if (i <? 0)%Z then None else mjoin (arr !! Z.to_nat i).

(** [arr[i] = v]: an index past the end extends the array with holes.  A
    negative key makes an ordinary property, which [length], [slice],
    [join] and the accesses at the indices from zero on do not see: the
    array part is unchanged, and the property is not kept here.  It could be
    read back only at the same negative key: the highlighting loop and the
    summing loop write the same array with or without it, and the sliding
    loop reads a negative key only for a negative excerpt length. *)
Definition arraySet {A} (arr : list (option A)) (i : Z) (v : A)
  : list (option A) :=
  if (i <? 0)%Z then arr
  else
    let n := Z.to_nat i in
    if (n <? length arr)%nat then <[n := Some v]> arr
    else arr ++ replicate (n - length arr)%nat None ++ [Some v].

(** The relative index of [Array.prototype.slice]. *)
Definition sliceIndex (len k : Z) : Z :=
  if (k <? 0)%Z then Z.max (len + k) 0 else Z.min k len.

(** [arr.slice(start, stop)] *)
Definition slice {A} (arr : list A) (start stop : Z) : list A :=
  let len := Z.of_nat (length arr) in
  let from := sliceIndex len start in
  let to := sliceIndex len stop in
  take (Z.to_nat (to - from)) (drop (Z.to_nat from) arr).

(** [arr.join(sep)] on an array of strings: a hole joins as the empty
    string. *)
Fixpoint join (arr : list (option jsstring)) (sep : jsstring) : jsstring :=
  match arr with
  | [] => []
  | [x] => default [] x
  | x :: rest => default [] x ++ sep ++ join rest sep
  end.

(** ** Excerpts *)

Record WeightedLocation : Type := {
  weight : float;
  balanced_score : float;
  location : Z
}.

(** [x || 0] on a number or [undefined]: zero, minus zero and NaN are
    falsy. *)
Definition orZero (x : option float) : float :=
  match x with
  | Some v => if PrimFloat.eqb v 0 || PrimFloat.is_nan v then 0%float else v
  | None => 0%float
  end.

(** [x ?? 0] *)
Definition nullishZero (x : option float) : float := default 0%float x.

(** The sparse array [words] after the first loop. *)
Definition sumScores (wordPositions : list WeightedLocation)
  : list (option float) :=
  fold_left
    (fun words word =>
       arraySet words (location word)
                (orZero (arrayGet words (location word)) + balanced_score word)%float)
    wordPositions [].

(** [reduce((sum, a) => sum + (a ?? 0), 0)]: the callback is not called on
    a hole. *)
Definition reduceSum (arr : list (option float)) : float :=
  fold_left (fun sum a => match a with
                          | Some v => (sum + v)%float
                          | None => sum
                          end) arr 0%float.

(** The variables of the sliding loop of [calculateExcerptRegion]. *)
Record slider : Type := {
  workingSum : float;
  densest : float;
  densestAt : list Z
}.

(** One turn of the loop, for the index [i]. *)
Definition slideStep (words : list (option float)) (excerptLength : Z)
    (st : slider) (i : Z) : slider :=
  let boundary := (i + excerptLength)%Z in
  let working :=
    (workingSum st
     + (nullishZero (arrayGet words boundary) - nullishZero (arrayGet words i)))%float in
  if PrimFloat.ltb (densest st) working then
    {| workingSum := working; densest := working; densestAt := [i] |}
  else if PrimFloat.eqb working (densest st)
          && bool_decide (last (densestAt st) = Some (i - 1)%Z) then
    {| workingSum := working; densest := densest st;
       densestAt := densestAt st ++ [i] |}
  else
    {| workingSum := working; densest := densest st; densestAt := densestAt st |}.

(** The loop variables when the loop of [calculateExcerptRegion] ends. *)
Definition slide (words : list (option float)) (excerptLength : Z) : slider :=
  let first := reduceSum (slice words 0 excerptLength) in
  fold_left (slideStep words excerptLength)
            (Z.of_nat <$> seq 0 (length words))
            {| workingSum := first; densest := first; densestAt := [0%Z] |}.

Definition calculateExcerptRegion (wordPositions : list WeightedLocation)
    (excerptLength : Z) : Z :=
  match wordPositions with
  | [] => 0%Z
  | _ :: _ =>
      let words := sumScores wordPositions in
      if (Z.of_nat (length words) <=? excerptLength)%Z then 0%Z
      else
        let at_ := densestAt (slide words excerptLength) in
        default 0%Z (at_ !! (length at_ / 2)%nat)
  end.

Definition ZWS : jsstring := [8203].
Definition MARK_OPEN : jsstring := lit "<mark>".
Definition MARK_CLOSE : jsstring := lit "</mark>".

(** A token inside a template literal: [undefined] prints as its name. *)
Definition tokenText (x : option jsstring) : jsstring :=
  default (lit "undefined") x.

(** The body of the highlighting loop of [buildExcerpt]. *)
Definition markWord (fragmentWords : list (option jsstring)) (word : Z)
  : list (option jsstring) :=
  match arrayGet fragmentWords word with
  | Some w =>
      if startsWith w MARK_OPEN then fragmentWords
      else arraySet fragmentWords word (MARK_OPEN ++ w ++ MARK_CLOSE)
  | None =>
      arraySet fragmentWords word (MARK_OPEN ++ tokenText None ++ MARK_CLOSE)
  end.

(** [content] cut into tokens. *)
Definition tokenize (content : jsstring) : list (option jsstring) :=
  Some <$> (if includes content ZWS then split content ZWS
            else splitWhiteSpace content).

(** The window of [buildExcerpt] after its three clamping statements:
    the start and the length handed to [slice]. *)
Definition clampWindow (start length endcap startcap : Z) : Z * Z :=
  let length := if (endcap - startcap <? length)%Z then (endcap - startcap)%Z
                else length in
  let start := if (endcap <? start + length)%Z then (endcap - length)%Z
               else start in
  let start := if (start <? startcap)%Z then startcap else start in
  (start, length).

Definition buildExcerpt (content : jsstring) (start length : Z)
    (locations : list Z) (notBefore notFrom : option Z) : jsstring :=
  let isZwsDelimited := includes content ZWS in
  let fragmentWords := fold_left markWord locations (tokenize content) in
  let endcap := default (Z.of_nat (List.length fragmentWords)) notFrom in
  let startcap := default 0%Z notBefore in
  let '(start, length) := clampWindow start length endcap startcap in
  trim (join (slice fragmentWords start (start + length))
             (if isZwsDelimited then [] else [32])).

(** ** Sub-results *)

Record PagefindAnchor : Type := {
  element : jsstring;
  anchor_id : jsstring;
  text : jsstring;
  anchor_location : Z
}.

Record SubResult : Type := {
  title : option jsstring;
  url : jsstring;
  anchor : option PagefindAnchor;
  weighted_locations : list WeightedLocation;
  locations : list Z;
  excerpt : jsstring
}.

(** The fields of [PagefindFragment] that the segmenter reads. *)
Record PagefindFragment : Type := {
  fragment_url : jsstring;
  content : jsstring;
  raw_content : option jsstring;
  meta : gmap jsstring jsstring;
  anchors : list PagefindAnchor;
  fragment_weighted_locations : list WeightedLocation
}.

(** [/h\d/i.test(s)]: somewhere an [h] or an [H] with a digit after it. *)
Fixpoint hasHDigit (s : jsstring) : bool :=
  match s with
  | c :: rest =>
      (((c =? 104) || (c =? 72)) && match rest with
                                    | d :: _ => isDigit d
                                    | [] => false
                                    end)
      || hasHDigit rest
  | [] => false
  end.

(** The predicate of [fragment.anchors.filter]. *)
Definition isHeading (a : PagefindAnchor) : bool :=
  hasHDigit (element a) && nonEmpty (text a)
  && existsb (fun c => negb (isWhiteSpace c)) (text a).

Fixpoint insertAnchor (a : PagefindAnchor) (sorted : list PagefindAnchor)
  : list PagefindAnchor :=
  match sorted with
  | [] => [a]
  | b :: rest =>
      if (anchor_location a <=? anchor_location b)%Z then a :: sorted
      else b :: insertAnchor a rest
  end.

(** [.sort((a, b) => a.location - b.location)]: ascending and stable. *)
Definition sortAnchors (l : list PagefindAnchor) : list PagefindAnchor :=
  fold_right insertAnchor [] l.

Definition headingAnchors (fragment : PagefindFragment) : list PagefindAnchor :=
  sortAnchors (List.filter isHeading (anchors fragment)).

(** The [while] loop that passes over the anchors at or before the word:
    the anchor reached and the anchors left. *)
Fixpoint skipAnchors (wordLocation : Z) (nextAnchor : PagefindAnchor)
    (rest : list PagefindAnchor) : PagefindAnchor * list PagefindAnchor :=
  match rest with
  | a :: rest' =>
      if (anchor_location a <=? wordLocation)%Z
      then skipAnchors wordLocation a rest'
      else (nextAnchor, rest)
  | [] => (nextAnchor, [])
  end.

Definition EXAMPLE_ORIGIN : jsstring := lit "https://example.com".

(** The test of the url against [^], an optional [http:] or [https:],
    and two slashes. *)
Definition hasScheme (u : jsstring) : bool :=
  startsWith u (lit "http://") || startsWith u (lit "https://")
  || startsWith u (lit "//").

(** [.replace(re, '')] for the pattern [^https://example.com]. *)
Definition stripOrigin (u : jsstring) : jsstring :=
  if startsWith u EXAMPLE_ORIGIN then drop (length EXAMPLE_ORIGIN) u else u.

(** The variables of the main loop of [calculateSubResults]. *)
Record segmenter : Type := {
  anchorsLeft : list PagefindAnchor;
  results : list SubResult;
  currentAnchorPosition : Z;
  currentAnchor : SubResult
}.

Definition pushLocation (s : SubResult) (word : WeightedLocation) : SubResult :=
  {| title := title s; url := url s; anchor := anchor s;
     weighted_locations := weighted_locations s ++ [word];
     locations := locations s ++ [location word];
     excerpt := excerpt s |}.

Definition withExcerpt (s : SubResult) (e : jsstring) : SubResult :=
  {| title := title s; url := url s; anchor := anchor s;
     weighted_locations := weighted_locations s;
     locations := locations s;
     excerpt := e |}.

Definition relativeTo (position : Z) (l : WeightedLocation) : WeightedLocation :=
  {| weight := weight l; balanced_score := balanced_score l;
     location := (location l - position)%Z |}.

Section SubResults.

(** [new URL(u)], then [.hash = h], then [.toString()]; [None] when the
    constructor throws on an invalid url. *)
Variable urlWithHash : jsstring -> jsstring -> option jsstring.

Variable fragment : PagefindFragment.
Variable desiredExcerptLength : Z.

(** The closure [addResult]: [results] after the call.  A number [endRange]
    that is zero is falsy. *)
Definition addResult (st : segmenter) (endRange : option Z) : list SubResult :=
  if bool_decide (locations (currentAnchor st) <> []) then
    let relativeWeighted :=
      relativeTo (currentAnchorPosition st) <$> weighted_locations (currentAnchor st) in
    let excerptStart :=
      (calculateExcerptRegion relativeWeighted desiredExcerptLength
       + currentAnchorPosition st)%Z in
    let excerptLength :=
      match endRange with
      | Some e => if (e =? 0)%Z then desiredExcerptLength
                  else Z.min (e - excerptStart) desiredExcerptLength
      | None => desiredExcerptLength
      end in
    results st ++
      [withExcerpt (currentAnchor st)
         (buildExcerpt (default [] (raw_content fragment)) excerptStart
                       excerptLength (locations (currentAnchor st))
                       (Some (currentAnchorPosition st)) endRange)]
  else results st.

(** The url of a section: the page url with the anchor id as its hash. *)
Definition anchoredUrl (hash : jsstring) : outcome jsstring :=
  let u := fragment_url fragment in
  if hasScheme u then
    match urlWithHash u hash with
    | Some fq => Return fq
    | None => Throw TypeError
    end
  else
    let u := if startsWith u (lit "/") then u else lit "/" ++ u in
    match urlWithHash (EXAMPLE_ORIGIN ++ u) hash with
    | Some fq => Return (stripOrigin fq)
    | None => Throw TypeError
    end.

(** The body of [for (const word of fragment.weighted_locations)]. *)
Definition segmentStep (st : segmenter) (word : WeightedLocation)
  : outcome segmenter :=
  match anchorsLeft st with
  | [] =>
      Return {| anchorsLeft := [];
                results := results st;
                currentAnchorPosition := currentAnchorPosition st;
                currentAnchor := pushLocation (currentAnchor st) word |}
  | first :: rest =>
      if (location word <? anchor_location first)%Z then
        Return {| anchorsLeft := anchorsLeft st;
                  results := results st;
                  currentAnchorPosition := currentAnchorPosition st;
                  currentAnchor := pushLocation (currentAnchor st) word |}
      else
        let results' := addResult st (Some (anchor_location first)) in
        let '(nextAnchor, remaining) := skipAnchors (location word) first rest in
        u ← anchoredUrl (anchor_id nextAnchor);
        Return {| anchorsLeft := remaining;
                  results := results';
                  currentAnchorPosition := anchor_location nextAnchor;
                  currentAnchor :=
                    {| title := Some (text nextAnchor);
                       url := u;
                       anchor := Some nextAnchor;
                       weighted_locations := [word];
                       locations := [location word];
                       excerpt := [] |} |}
  end.

Fixpoint segmentLoop (st : segmenter) (words : list WeightedLocation)
  : outcome segmenter :=
  match words with
  | [] => Return st
  | word :: rest => st' ← segmentStep st word; segmentLoop st' rest
  end.

Definition calculateSubResults : outcome (list SubResult) :=
  let start :=
    {| anchorsLeft := headingAnchors fragment;
       results := [];
       currentAnchorPosition := 0%Z;
       currentAnchor :=
         {| title := meta fragment !! lit "title";
            url := fragment_url fragment;
            anchor := None;
            weighted_locations := [];
            locations := [];
            excerpt := [] |} |} in
  st ← segmentLoop start (fragment_weighted_locations fragment);
  Return (addResult st (anchor_location <$> head (anchorsLeft st))).

End SubResults.

(** ** The client *)

(** What the client takes from the JavaScript runtime. *)
Record Runtime : Type := {
  (** the Unicode data of [toLowerCase] *)
  caseData : CaseData;
  (** [gunzipSync]; [None] when it throws *)
  gunzipSync : bytes -> option bytes;
  (** [JSON.stringify] of the [filters] option *)
  stringifyFilters : list (jsstring * list jsstring) -> jsstring;
  (** [parseInt] and [parseFloat] as numbers; [None] is [undefined] *)
  parseInt : option jsstring -> float;
  parseFloat : option jsstring -> float;
  (** [parseInt] of a word offset, kept as the integer it denotes *)
  parseOffset : option jsstring -> Z;
  (** the value of the n-th call of [Date.now] *)
  dateNow : nat -> Z
}.

(** The engine behind [wasm-bridge.ts]: [E] is the state of the
    WebAssembly instance, the integer is the pointer [rawPtr]. *)
Record Engine (E : Type) : Type := {
  wasmLoadIndexChunk : E -> Z -> bytes -> E * Z;
  wasmLoadFilterChunk : E -> Z -> bytes -> E * Z;
  requestIndexes : E -> Z -> jsstring -> E * jsstring;
  requestFilterIndexes : E -> Z -> jsstring -> E * jsstring;
  wasmSearch : E -> Z -> jsstring -> jsstring -> jsstring -> bool -> E * jsstring
}.
Arguments wasmLoadIndexChunk {E} _ _ _ _.
Arguments wasmLoadFilterChunk {E} _ _ _ _.
Arguments requestIndexes {E} _ _ _ _.
Arguments requestFilterIndexes {E} _ _ _ _.
Arguments wasmSearch {E} _ _ _ _ _ _ _.

Inductive chunkKind : Type := IndexChunk | FilterChunk.

#[global] Instance chunkKind_eq_dec : EqDecision chunkKind.
Proof. solve_decision. Defined.

Inductive promiseState : Type :=
  | Pending
  | Fulfilled
  | Rejected (reason : jsError).

(** The promise returned by [_loadChunk] or [_loadFilterChunk]. *)
Record loadPromise : Type := {
  kind : chunkKind;
  hash : jsstring;
  state : promiseState
}.

(** The calls made to the engine; the hash of a load call tells for
    which chunk it was made. *)
Inductive engineCall : Type :=
  | CallLoadIndexChunk (hash : jsstring) (chunk : bytes)
  | CallLoadFilterChunk (hash : jsstring) (chunk : bytes)
  | CallRequestIndexes (query : jsstring)
  | CallRequestFilterIndexes (filters : jsstring)
  | CallSearch (query filters sort : jsstring) (exact : bool).

(** The fields of [PagefindClient]; a promise is named by its index in
    the table of the world. *)
Record PagefindClient : Type := {
  basePath : jsstring;
  excerptLength : Z;
  wasm : bool;
  rawPtr : option Z;
  loadedChunks : gmap jsstring nat;
  loadedFilters : gmap jsstring nat
}.

Inductive direction : Type := asc | desc.

Record searchOptions : Type := {
  filters : option (list (jsstring * list jsstring));
  sort : option (list (jsstring * direction));
  verbose : bool
}.

(** The closure [data] of a result: the arguments it will hand to
    [loadFragment]. *)
Record SearchResult : Type := {
  result_id : jsstring;
  score : float;
  words : list Z;
  data : jsstring * list WeightedLocation * jsstring
}.

Record timings : Type := {
  preload : Z;
  search_time : Z;
  total : Z
}.

Record SearchResponse : Type := {
  response_results : list SearchResult;
  unfilteredResultCount : float;
  response_filters : FilterObject;
  totalFilters : FilterObject;
  response_timings : timings
}.

(** What [search] keeps across its [await]. *)
Record suspendedSearch : Type := {
  awaited : list nat;
  chunkLoads : nat;
  filterLoads : nat;
  started : Z;
  normalized : jsstring;
  filterStr : jsstring;
  sortStr : jsstring;
  exact : bool;
  beVerbose : bool
}.

(** How the synchronous part of [search] ends. *)
Inductive searchStep : Type :=
  | Threw (e : jsError)
  | Returned (r : SearchResponse)
  | Awaiting (k : suspendedSearch).

(** What [fetch] answers: a rejection, or a response with its [ok] flag,
    its status and its body. *)
Inductive fetchResponse : Type :=
  | NetworkError
  | Response (ok : bool) (status : Z) (body : bytes).

Definition numberToString (z : Z) : jsstring :=
  lit (DecimalString.NilEmpty.string_of_int (Z.to_int z)).

Definition emptyResponse : SearchResponse :=
  {| response_results := [];
     unfilteredResultCount := 0%float;
     response_filters := ∅;
     totalFilters := ∅;
     response_timings := {| preload := 0; search_time := 0; total := 0 |} |}.

(** The url of a chunk, as [_loadChunk] and [_loadFilterChunk] build it. *)
Definition chunkUrl (base : jsstring) (k : chunkKind) (h : jsstring) : jsstring :=
  match k with
  | IndexChunk => base ++ lit "index/" ++ h ++ lit ".pf_index"
  | FilterChunk => base ++ lit "filter/" ++ h ++ lit ".pf_filter"
  end.

(** [stringifySorts]: the first entry only. *)
Definition stringifySorts (obj : list (jsstring * direction)) : jsstring :=
  match obj with
  | (field, d) :: _ =>
      field ++ lit ":" ++ match d with asc => lit "asc" | desc => lit "desc" end
  | [] => []
  end.

(** The tail of the response pattern: a greedy group of [.], the
    delimiter, and a group of [.] up to the end. *)
Fixpoint matchFilterGroups (pre s : jsstring) : option (jsstring * jsstring) :=
  match s with
  | [] => None
  | c :: rest =>
      match (if isLineTerminator c then None
             else matchFilterGroups (c :: pre) rest) with
      | Some r => Some r
      | None =>
          let after := drop (length UNFILTERED_DELIM) s in
          if startsWith s UNFILTERED_DELIM
             && forallb (fun d => negb (isLineTerminator d)) after
          then Some (rev pre, after) else None
      end
  end.

Fixpoint untilColon (pre s : jsstring) : option (jsstring * jsstring) :=
  match s with
  | [] => None
  | c :: rest => if c =? 58 then Some (rev pre, rest) else untilColon (c :: pre) rest
  end.

(** The response pattern tried at one colon: a group without colons, a
    colon, then [matchFilterGroups]. *)
Definition matchAtColon (rest : jsstring)
  : option (jsstring * jsstring * jsstring) :=
  match untilColon [] rest with
  | Some (allResults, after) =>
      match matchFilterGroups [] after with
      | Some (filtersStr, totalFiltersStr) =>
          Some (allResults, filtersStr, totalFiltersStr)
      | None => None
      end
  | None => None
  end.

(** [rawResult.split(re)] for the response pattern: at the first colon
    where the pattern matches, the four pieces that the destructuring
    names; [None] when the pattern matches nowhere, and the split is then
    the one-element array of [rawResult]. *)
Fixpoint splitResponse (pre s : jsstring)
  : option (jsstring * jsstring * jsstring * jsstring) :=
  match s with
  | [] => None
  | c :: rest =>
      match (if c =? 58 then matchAtColon rest else None) with
      | Some (allResults, filtersStr, totalFiltersStr) =>
          Some (rev pre, allResults, filtersStr, totalFiltersStr)
      | None => splitResponse (c :: pre) rest
      end
  end.

(** The world a client runs in: the client object, the WebAssembly
    instance, the promises of the chunk loads, the urls handed to [fetch],
    the calls made to the engine, the lines written by [console.error], the
    number of clock readings, the searches suspended at their [await] and
    the results of the searches that have ended. *)
Record World (E : Type) : Type := {
  client : PagefindClient;
  engineState : E;
  promises : list loadPromise;
  fetched : list jsstring;
  engineCalls : list engineCall;
  console : list jsstring;
  clockReads : nat;
  waiting : list suspendedSearch;
  finished : list (outcome SearchResponse)
}.
Arguments client {E} _.
Arguments engineState {E} _.
Arguments promises {E} _.
Arguments fetched {E} _.
Arguments engineCalls {E} _.
Arguments console {E} _.
Arguments clockReads {E} _.
Arguments waiting {E} _.
Arguments finished {E} _.

Definition NOT_INITIALIZED : jsstring :=
  lit "PagefindClient not initialized " ++ [8212] ++ lit " call init() first".

Section Client.

Context {E : Type} (engine : Engine E) (rt : Runtime).

Definition withClient (w : World E) (c : PagefindClient) : World E :=
  {| client := c; engineState := engineState w; promises := promises w;
     fetched := fetched w; engineCalls := engineCalls w; console := console w;
     clockReads := clockReads w; waiting := waiting w; finished := finished w |}.

Definition withPromises (w : World E) (ps : list loadPromise) : World E :=
  {| client := client w; engineState := engineState w; promises := ps;
     fetched := fetched w; engineCalls := engineCalls w; console := console w;
     clockReads := clockReads w; waiting := waiting w; finished := finished w |}.

Definition withWaiting (w : World E) (ks : list suspendedSearch) : World E :=
  {| client := client w; engineState := engineState w; promises := promises w;
     fetched := fetched w; engineCalls := engineCalls w; console := console w;
     clockReads := clockReads w; waiting := ks; finished := finished w |}.

Definition withFinished (w : World E) (r : outcome SearchResponse) : World E :=
  {| client := client w; engineState := engineState w; promises := promises w;
     fetched := fetched w; engineCalls := engineCalls w; console := console w;
     clockReads := clockReads w; waiting := waiting w;
     finished := finished w ++ [r] |}.

(** A call of the engine: its new state and the call are recorded. *)
Definition engineCalled (w : World E) (e : E) (call : engineCall) : World E :=
  {| client := client w; engineState := e; promises := promises w;
     fetched := fetched w; engineCalls := engineCalls w ++ [call];
     console := console w; clockReads := clockReads w; waiting := waiting w;
     finished := finished w |}.

(** [Date.now()] *)
Definition now (w : World E) : Z * World E :=
  (dateNow rt (clockReads w),
   {| client := client w; engineState := engineState w; promises := promises w;
      fetched := fetched w; engineCalls := engineCalls w; console := console w;
      clockReads := S (clockReads w); waiting := waiting w;
      finished := finished w |}).

(** The closure [log] of [search]. *)
Definition log (isVerbose : bool) (msg : jsstring) (w : World E) : World E :=
  if isVerbose then
    {| client := client w; engineState := engineState w; promises := promises w;
       fetched := fetched w; engineCalls := engineCalls w;
       console := console w ++ [msg]; clockReads := clockReads w;
       waiting := waiting w; finished := finished w |}
  else w.

(** [_loadChunk] and [_loadFilterChunk] up to their first [await]: the
    url is handed to [fetch] and a pending promise is returned. *)
Definition startLoad (k : chunkKind) (h : jsstring) (w : World E)
  : nat * World E :=
  (length (promises w),
   {| client := client w; engineState := engineState w;
      promises := promises w ++ [{| kind := k; hash := h; state := Pending |}];
      fetched := fetched w ++ [chunkUrl (basePath (client w)) k h];
      engineCalls := engineCalls w; console := console w;
      clockReads := clockReads w; waiting := waiting w;
      finished := finished w |}).

Definition loadChunk (h : jsstring) (w : World E) : nat * World E :=
  match loadedChunks (client w) !! h with
  | Some p => (p, w)
  | None =>
      let '(p, w) := startLoad IndexChunk h w in
      let c := client w in
      (p, withClient w
            {| basePath := basePath c; excerptLength := excerptLength c;
               wasm := wasm c; rawPtr := rawPtr c;
               loadedChunks := <[h := p]> (loadedChunks c);
               loadedFilters := loadedFilters c |})
  end.

Definition loadFilterChunkByHash (h : jsstring) (w : World E) : nat * World E :=
  match loadedFilters (client w) !! h with
  | Some p => (p, w)
  | None =>
      let '(p, w) := startLoad FilterChunk h w in
      let c := client w in
      (p, withClient w
            {| basePath := basePath c; excerptLength := excerptLength c;
               wasm := wasm c; rawPtr := rawPtr c;
               loadedChunks := loadedChunks c;
               loadedFilters := <[h := p]> (loadedFilters c) |})
  end.

(** [hashes.map((hash) => load(hash))] *)
Fixpoint loadEach (load : jsstring -> World E -> nat * World E)
    (hashes : list jsstring) (w : World E) : list nat * World E :=
  match hashes with
  | [] => ([], w)
  | h :: rest =>
      let '(p, w) := load h w in
      let '(ps, w) := loadEach load rest w in
      (p :: ps, w)
  end.

(** [fetchAndDecompress] from the answer of [fetch] on. *)
Definition fetchAndDecompress (fetchUrl : jsstring) (r : fetchResponse)
  : outcome bytes :=
  match r with
  | NetworkError => Throw FetchFailed
  | Response ok status body =>
      if ok then snd (decompress (gunzipSync rt) body)
      else Throw (ErrorMessage (lit "Failed to fetch " ++ fetchUrl ++ lit ": "
                                ++ numberToString status))
  end.

Definition settle (p : nat) (s : promiseState) (ps : list loadPromise)
  : list loadPromise :=
  alter (fun pr => {| kind := kind pr; hash := hash pr; state := s |}) p ps.

(** The rest of [_loadChunk] or [_loadFilterChunk] when the fetch of the
    pending promise [p] is answered: the chunk is decompressed and handed
    to the engine, or the promise is rejected. *)
Definition respond (p : nat) (r : fetchResponse) (w : World E) : World E :=
  match promises w !! p with
  | Some {| kind := k; hash := h; state := Pending |} =>
      match fetchAndDecompress (chunkUrl (basePath (client w)) k h) r with
      | Throw e => withPromises w (settle p (Rejected e) (promises w))
      | Return chunk =>
          let c := client w in
          if wasm c then
            let ptr := default 0%Z (rawPtr c) in
            let '(e, ptr', call) :=
              match k with
              | IndexChunk =>
                  (wasmLoadIndexChunk engine (engineState w) ptr chunk,
                   CallLoadIndexChunk h chunk)
              | FilterChunk =>
                  (wasmLoadFilterChunk engine (engineState w) ptr chunk,
                   CallLoadFilterChunk h chunk)
              end in
            let w := engineCalled w e call in
            let w := withClient w
                       {| basePath := basePath c; excerptLength := excerptLength c;
                          wasm := wasm c; rawPtr := Some ptr';
                          loadedChunks := loadedChunks c;
                          loadedFilters := loadedFilters c |} in
            withPromises w (settle p Fulfilled (promises w))
          else withPromises w (settle p (Rejected TypeError) (promises w))
      end
  | _ => w
  end.

(** [await Promise.all(ps)]: [None] while it is not settled.  When several
    of the promises are rejected, the reason kept here is that of the first
    in the list. *)
Fixpoint promiseAll (ps : list nat) (w : World E) : option (outcome unit) :=
  match ps with
  | [] => Some (Return tt)
  | p :: rest =>
      match state <$> promises w !! p with
      | Some (Rejected e) => Some (Throw e)
      | Some Fulfilled => promiseAll rest w
      | _ =>
          match promiseAll rest w with
          | Some (Throw e) => Some (Throw e)
          | _ => None
          end
      end
  end.

(** One [weight>balancedScore>wordOffset] entry. *)
Definition parseLocation (l : jsstring) : WeightedLocation :=
  let parts := split l (lit ">") in
  {| weight := (parseInt rt (parts !! 0%nat) / 24)%float;
     balanced_score := parseFloat rt (parts !! 1%nat);
     location := parseOffset rt (parts !! 2%nat) |}.

(** One [hash@score@locations] entry; reading [allLocations.length] throws
    when the entry has fewer than three parts. *)
Definition parseResult (query r : jsstring) : outcome SearchResult :=
  let parts := split r (lit "@") in
  let resultHash := default [] (parts !! 0%nat) in
  match parts !! 2%nat with
  | None => Throw TypeError
  | Some allLocations =>
      let weightedLocations :=
        if nonEmpty allLocations
        then parseLocation <$> split allLocations (lit ",")
        else [] in
      Return {| result_id := resultHash;
                score := parseFloat rt (parts !! 1%nat);
                words := location <$> weightedLocations;
                data := (resultHash, weightedLocations, query) |}
  end.

Fixpoint parseEach (query : jsstring) (rs : list jsstring)
  : outcome (list SearchResult) :=
  match rs with
  | [] => Return []
  | r :: rest =>
      x ← parseResult query r;
      xs ← parseEach query rest;
      Return (x :: xs)
  end.

(** Lines 380-408 of [search]: the raw response cut into its four pieces
    and the results parsed.  Without a match of the pattern, [allResults]
    is [undefined] and reading its [length] throws. *)
Definition parseResponse (query rawResult : jsstring)
  : outcome (jsstring * list SearchResult
             * FilterObject * FilterObject) :=
  match splitResponse [] rawResult with
  | None => Throw TypeError
  | Some (unfilteredStr, allResults, filtersStr, totalFiltersStr) =>
      let filterObj := parseFilters (Some filtersStr) in
      let totalFilterObj := parseFilters (Some totalFiltersStr) in
      found ← (if nonEmpty allResults
               then parseEach query (split allResults (lit " "))
               else Return []);
      Return (unfilteredStr, found, filterObj, totalFilterObj)
  end.

(** [search] up to its [await]. *)
Definition search (term : jsstring) (options : searchOptions) (w : World E)
  : searchStep * World E :=
  if negb (wasm (client w)) || bool_decide (rawPtr (client w) = None) then
    (Threw (ErrorMessage NOT_INITIALIZED), w)
  else
    let ptr := default 0%Z (rawPtr (client w)) in
    let '(start, w) := now w in
    let isExact := exactSearch term in
    let query := normalize (caseData rt) term in
    let w := log (verbose options)
                 (lit "Normalized search term: " ++ [34] ++ query ++ [34]) w in
    if bool_decide (query = []) then (Returned emptyResponse, w)
    else
      let filterJson := stringifyFilters rt (default [] (filters options)) in
      let sorts := stringifySorts (default [] (sort options)) in
      let '(e, indexResp) := requestIndexes engine (engineState w) ptr query in
      let w := engineCalled w e (CallRequestIndexes query) in
      let '(e, filterResp) :=
        requestFilterIndexes engine (engineState w) ptr filterJson in
      let w := engineCalled w e (CallRequestFilterIndexes filterJson) in
      let '(indexPromises, w) :=
        loadEach loadChunk (List.filter nonEmpty (split indexResp (lit " "))) w in
      let '(filterPromises, w) :=
        loadEach loadFilterChunkByHash
                 (List.filter nonEmpty (split filterResp (lit " "))) w in
      (Awaiting {| awaited := indexPromises ++ filterPromises;
                   chunkLoads := length indexPromises;
                   filterLoads := length filterPromises;
                   started := start;
                   normalized := query;
                   filterStr := filterJson;
                   sortStr := sorts;
                   exact := isExact;
                   beVerbose := verbose options |}, w).

Definition plural (n : nat) : jsstring :=
  if (n =? 1)%nat then [] else lit "s".

(** [search] from its [await] on; [None] while [Promise.all] is not
    settled. *)
Definition resumeSearch (k : suspendedSearch) (w : World E)
  : option (outcome SearchResponse * World E) :=
  match promiseAll (awaited k) w with
  | None => None
  | Some (Throw e) => Some (Throw e, w)
  | Some (Return _) =>
      let w := log (beVerbose k)
                   (lit "Loaded " ++ numberToString (Z.of_nat (chunkLoads k))
                    ++ lit " index + " ++ numberToString (Z.of_nat (filterLoads k))
                    ++ lit " filter chunks") w in
      let '(searchStart, w) := now w in
      let ptr := default 0%Z (rawPtr (client w)) in
      let '(e, rawResult) :=
        wasmSearch engine (engineState w) ptr (normalized k) (filterStr k)
                   (sortStr k) (exact k) in
      let w := engineCalled w e
                 (CallSearch (normalized k) (filterStr k) (sortStr k) (exact k)) in
      match parseResponse (normalized k) rawResult with
      | Throw err => Some (Throw err, w)
      | Return (unfilteredStr, found, filterObj, totalFilterObj) =>
          let '(t1, w) := now w in
          let searchTime := (t1 - searchStart)%Z in
          let '(t2, w) := now w in
          let totalTime := (t2 - started k)%Z in
          let w := log (beVerbose k)
                       (lit "Found " ++ numberToString (Z.of_nat (length found))
                        ++ lit " result" ++ plural (length found) ++ lit " for "
                        ++ [34] ++ normalized k ++ [34] ++ lit " in "
                        ++ numberToString searchTime ++ lit "ms ("
                        ++ numberToString totalTime ++ lit "ms total)") w in
          Some (Return {| response_results := found;
                          unfilteredResultCount := parseInt rt (Some unfilteredStr);
                          response_filters := filterObj;
                          totalFilters := totalFilterObj;
                          response_timings :=
                            {| preload := (totalTime - searchTime)%Z;
                               search_time := searchTime;
                               total := totalTime |} |}, w)
      end
  end.

(** What happens to a client: a caller starts a search, the network
    answers the fetch of a pending load, a suspended search goes on. *)
Inductive event : Type :=
  | StartSearch (term : jsstring) (options : searchOptions)
  | Answer (p : nat) (r : fetchResponse)
  | Resume (i : nat).

Definition step (w : World E) (ev : event) : World E :=
  match ev with
  | StartSearch term options =>
      match search term options w with
      | (Threw e, w) => withFinished w (Throw e)
      | (Returned r, w) => withFinished w (Return r)
      | (Awaiting k, w) => withWaiting w (waiting w ++ [k])
      end
  | Answer p r => respond p r w
  | Resume i =>
      match waiting w !! i with
      | Some k =>
          match resumeSearch k w with
          | Some (r, w) => withFinished (withWaiting w (delete i (waiting w))) r
          | None => w
          end
      | None => w
      end
  end.

Definition run (evs : list event) (w : World E) : World E :=
  fold_left step evs w.

(** The fetches of the chunk [(k, h)] so far. *)
Definition fetchCount (k : chunkKind) (h : jsstring) (w : World E) : nat :=
  length (List.filter
            (fun u => bool_decide (u = chunkUrl (basePath (client w)) k h))
            (fetched w)).

Definition isLoadOf (k : chunkKind) (h : jsstring) (call : engineCall) : bool :=
  match k, call with
  | IndexChunk, CallLoadIndexChunk h' _ => bool_decide (h' = h)
  | FilterChunk, CallLoadFilterChunk h' _ => bool_decide (h' = h)
  | _, _ => false
  end.

(** The engine-load calls made for the chunk [(k, h)] so far. *)
Definition loadCount (k : chunkKind) (h : jsstring) (w : World E) : nat :=
  length (List.filter (isLoadOf k h) (engineCalls w)).

(** The per-kind map of the client. *)
Definition loadedOf (k : chunkKind) (c : PagefindClient) : gmap jsstring nat :=
  match k with
  | IndexChunk => loadedChunks c
  | FilterChunk => loadedFilters c
  end.

(** The load call of a kind. *)
Definition loadOf (k : chunkKind) : jsstring -> World E -> nat * World E :=
  match k with
  | IndexChunk => loadChunk
  | FilterChunk => loadFilterChunkByHash
  end.

End Client.

(** ** Predicates and examples used in the statements *)

(** No two white-space units side by side. *)
Fixpoint noWhiteSpaceRun (s : jsstring) : Prop :=
  match s with
  | [] => True
  | c :: rest =>
      (isWhiteSpace c = true -> headIsWhiteSpace rest = false)
      /\ noWhiteSpaceRun rest
  end.

(** A code point that is a Unicode scalar value: below 17 planes and no
    surrogate. *)
Definition isScalar (c : N) : bool :=
  (c <? 1114112) && negb (isHighSurrogate c || isLowSurrogate c).

(** Well-formed UTF-16: every unit is a 16-bit value and every surrogate
    stands in a pair, the high one first. *)
Fixpoint wellFormed (s : jsstring) : bool :=
  match s with
  | [] => true
  | h :: rest =>
      if isHighSurrogate h then
        match rest with
        | l :: rest' => isLowSurrogate l && wellFormed rest'
        | [] => false
        end
      else negb (isLowSurrogate h) && (h <? 65536) && wellFormed rest
  end.

(** What the statements on lower-casing use of the Unicode data: a
    lower-case mapping is made of scalar values that are their own
    lower-case mapping, the capital sigma maps to the small sigma, and the
    final small sigma to itself. *)
Class StableCaseTable (data : CaseData) : Prop := {
  stable_ascii : CaseTable data;
  lower_stable : forall c d, In d (lowerPoint data c) -> lowerPoint data d = [d];
  lower_scalar : forall c d,
    isScalar c = true -> In d (lowerPoint data c) -> isScalar d = true;
  lower_sigma : lowerPoint data 931 = [963];
  lower_final_sigma : lowerPoint data 962 = [962]
}.

(** A string in lower case: it is well-formed and each of its code points
    is its own lower-case form. *)
Inductive lowered (data : CaseData) : jsstring -> Prop :=
  | lowered_nil : lowered data []
  | lowered_unit c s :
      isHighSurrogate c = false -> isLowSurrogate c = false -> c < 65536 ->
      lowerPoint data c = [c] -> c <> 931 ->
      lowered data s -> lowered data (c :: s)
  | lowered_pair h l s :
      isHighSurrogate h = true -> isLowSurrogate l = true ->
      lowerPoint data (pairPoint h l) = [pairPoint h l] ->
      lowered data s -> lowered data (h :: l :: s).

(** The properties of a normalized query. *)
Definition isNormalized (data : CaseData) (s : jsstring) : Prop :=
  lowered data s
  /\ Forall (fun c => isStripped c = false) s
  /\ noWhiteSpaceRun s
  /\ headIsWhiteSpace s = false /\ headIsWhiteSpace (rev s) = false.

(** A high surrogate, a full stop and a low surrogate: the two halves of
    the Deseret capital long I with a full stop between them. *)
Definition splitPair : jsstring := [55297; 46; 56320].


(** A chunk that carries the signature: its twelve bytes and three more. *)
Definition signedChunk : bytes := list_byte_of_string "pagefind_dcdXYZ".


(** The token that the highlighting loop writes where the array has no
    token. *)
Definition MARKED_UNDEFINED : jsstring := lit "<mark>undefined</mark>".

(** Following the specification: the sum of the scores in the window of
    the given width that starts at the given offset. *)
Definition windowSum (words : list (option float)) (start width : Z) : float :=
  reduceSum (slice words start (start + width)).

(** One match, at the word offset [l], of score one. *)
Definition matchAt (l : Z) : WeightedLocation :=
  {| weight := 1%float; balanced_score := 1%float; location := l |}.

(** A section after the matches [ws] have been pushed to it one by one. *)
Definition pushAll (s : SubResult) (ws : list WeightedLocation) : SubResult :=
  fold_left pushLocation ws s.

(** A url builder for the examples: the hash is appended after a [#]. *)
Definition appendHash (u h : jsstring) : option jsstring := Some (u ++ [35] ++ h).

Definition headingOne : PagefindAnchor :=
  {| element := lit "h2"; anchor_id := lit "one"; text := lit "One";
     anchor_location := 2 |}.

Definition headingTwo : PagefindAnchor :=
  {| element := lit "h2"; anchor_id := lit "two"; text := lit "Two";
     anchor_location := 6 |}.

(** A page of ten words with two headings and a link, and matches at the
    offsets 0, 1, 3, 7 and 9. *)
Definition samplePage : PagefindFragment :=
  {| fragment_url := lit "/docs/";
     content := lit "a b c d e f g h i j";
     raw_content := Some (lit "a b c d e f g h i j");
     meta := {[ lit "title" := lit "Page" ]};
     anchors := [headingTwo;
                 {| element := lit "a"; anchor_id := lit "x"; text := lit "link";
                    anchor_location := 3 |};
                 headingOne];
     fragment_weighted_locations :=
       [matchAt 0; matchAt 1; matchAt 3; matchAt 7; matchAt 9] |}.






(** The state of the promise stored for a chunk, if one is stored. *)
Definition storedState {E} (k : chunkKind) (h : jsstring) (w : World E)
  : option promiseState :=
  p ← loadedOf k (client w) !! h; state <$> promises w !! p.

(** A client on which no chunk has been asked for yet, as [init] leaves
    it: the engine is there, both maps are empty, no load is pending, no
    chunk url has been fetched and no chunk handed to the engine. *)
Record fresh {E} (w : World E) : Prop := {
  fresh_chunks : loadedChunks (client w) = ∅;
  fresh_filters : loadedFilters (client w) = ∅;
  fresh_promises : promises w = [];
  fresh_fetched : forall k h, fetchCount k h w = 0%nat;
  fresh_calls : forall k h, loadCount k h w = 0%nat
}.

(** The invariant of the chunk store: a stored promise is the promise of
    its own chunk, every promise is stored under its chunk, a chunk has
    been fetched once if a promise is stored for it and never otherwise,
    and it has been handed to the engine once if that promise is fulfilled
    and never otherwise. *)
Record chunkStoreInvariant {E} (w : World E) : Prop := {
  inv_registered : forall k h p,
    loadedOf k (client w) !! h = Some p ->
    exists st, promises w !! p = Some {| kind := k; hash := h; state := st |};
  inv_stored : forall p pr,
    promises w !! p = Some pr ->
    loadedOf (kind pr) (client w) !! hash pr = Some p;
  inv_fetches : forall k h,
    fetchCount k h w = match loadedOf k (client w) !! h with
                       | Some _ => 1%nat
                       | None => 0%nat
                       end;
  inv_loads : forall k h,
    loadCount k h w = match storedState k h w with
                      | Some Fulfilled => 1%nat
                      | _ => 0%nat
                      end
}.

(** [parseInt] for the examples: the number that the digits at the start
    of the string write, and [NaN] when the string starts with no digit. *)
Fixpoint leadingDigits (s : jsstring) : jsstring :=
  match s with
  | c :: rest => if isDigit c then c :: leadingDigits rest else []
  | [] => []
  end.

Definition sampleParseInt (s : option jsstring) : float :=
  match leadingDigits (default [] s) with
  | [] => nan
  | d :: ds => parseIntDigits (d :: ds)
  end.

(** A runtime for the examples: ASCII lower-casing, a [gunzipSync] that
    always throws, [parseInt] on leading digits, constant other parsers and
    a clock that counts its readings. *)
Definition sampleRuntime : Runtime :=
  {| caseData := asciiTable;
     gunzipSync := fun _ => None;
     stringifyFilters := fun _ => lit "{}";
     parseInt := sampleParseInt;
     parseFloat := fun _ => 0%float;
     parseOffset := fun _ => 0%Z;
     dateNow := fun n => Z.of_nat n |}.

(** An engine for the examples: it asks twice for the index chunk [abc]
    on every query and answers every search with a word. *)
Definition sampleEngine : Engine unit :=
  {| wasmLoadIndexChunk := fun e ptr _ => (e, (ptr + 1)%Z);
     wasmLoadFilterChunk := fun e ptr _ => (e, (ptr + 1)%Z);
     requestIndexes := fun e _ _ => (e, lit "abc abc");
     requestFilterIndexes := fun e _ _ => (e, []);
     wasmSearch := fun e _ _ _ _ _ => (e, lit "garbage") |}.




Definition sampleWorld : World unit :=
  {| client := {| basePath := lit "https://example.org/pagefind/";
                  excerptLength := 30;
                  wasm := true;
                  rawPtr := Some 8%Z;
                  loadedChunks := ∅;
                  loadedFilters := ∅ |};
     engineState := tt;
     promises := [];
     fetched := [];
     engineCalls := [];
     console := [];
     clockReads := 0;
     waiting := [];
     finished := [] |}.

Definition noOptions : searchOptions :=
  {| filters := None; sort := None; verbose := false |}.

(** The search for [hello] on [quietEngine], suspended at its [await]. *)
Definition sampleSuspended : suspendedSearch :=
  {| awaited := [];
     chunkLoads := 0;
     filterLoads := 0;
     started := 0;
     normalized := lit "hello";
     filterStr := lit "{}";
     sortStr := [];
     exact := false;
     beVerbose := false |}.

(** Two searches start, the fetch of the chunk they both wait for is
    answered with the signed chunk, and a third search starts. *)
Definition loadedTrace : list event :=
  [StartSearch (lit "one") noOptions;
   StartSearch (lit "two") noOptions;
   Answer 0 (Response true 200 signedChunk);
   StartSearch (lit "three") noOptions].

(** The same with the fetch answered by a status 404. *)
Definition failedTrace : list event :=
  [StartSearch (lit "one") noOptions;
   StartSearch (lit "two") noOptions;
   Answer 0 (Response false 404 []);
   StartSearch (lit "three") noOptions].


(** Following the specification: the start offsets, from 0 to the length
    of the array, of the windows of the given width whose sum is the given
    one. *)
Definition windowStartsWithSum (words : list (option float)) (width : Z)
    (sum : float) : list Z :=
  List.filter (fun start => PrimFloat.eqb (windowSum words start width) sum)
              (Z.of_nat <$> seq 0 (S (length words))).

(** The twelve bytes of the signature. *)
Definition signatureBytes : bytes := list_byte_of_string "pagefind_dcd".

(** What is known of a sequence under way, for its code point to end at
    128 or more: with one byte to come the bits read are at least 2, with
    more to come they are not zero or the next byte is at least 144. *)
Definition pendingNonAscii (cp : N) (needed : nat) (lower : N) : Prop :=
  match needed with
  | O => True
  | 1%nat => 2 <= cp
  | _ => 1 <= cp \/ 144 <= lower
  end.


(** The token that the highlighting loop leaves at an offset it visits:
    a token that starts with the opening mark is kept, any other token is
    wrapped, and a missing token is written as the marked [undefined]. *)
Definition markedToken (x : option jsstring) : jsstring :=
  match x with
  | Some w => if startsWith w MARK_OPEN then w else MARK_OPEN ++ w ++ MARK_CLOSE
  | None => MARKED_UNDEFINED
  end.

#[global] Instance byte_eq_dec : EqDecision Byte.byte.
Proof.
  intros a b. destruct (Byte.eqb a b) eqn:H.
  - left. apply Byte.byte_dec_bl, H.
  - right. intros Hab. apply Byte.byte_dec_lb in Hab. congruence.
Defined.

Definition isStartSearch (ev : event) : bool :=
  match ev with
  | StartSearch _ _ => true
  | _ => false
  end.

(** A client as its constructor leaves it, before [init]: no engine, no
    pointer, nothing loaded. *)
Definition constructedWorld : World unit :=
  {| client := {| basePath := lit "https://example.org/pagefind/";
                  excerptLength := 30;
                  wasm := false;
                  rawPtr := None;
                  loadedChunks := ∅;
                  loadedFilters := ∅ |};
     engineState := tt;
     promises := [];
     fetched := [];
     engineCalls := [];
     console := [];
     clockReads := 0;
     waiting := [];
     finished := [] |}.

(** What a later world keeps of the chunk store of an earlier one: a
    stored promise stays stored under its chunk, a settled promise stays as
    it is, and a pending promise stays the promise of the same chunk. *)
Record storeKept {E} (w w' : World E) : Prop := {
  kept_maps : forall k h p,
    loadedOf k (client w) !! h = Some p -> loadedOf k (client w') !! h = Some p;
  kept_settled : forall p pr,
    promises w !! p = Some pr -> state pr <> Pending -> promises w' !! p = Some pr;
  kept_pending : forall p pr,
    promises w !! p = Some pr ->
    exists st, promises w' !! p = Some {| kind := kind pr; hash := hash pr; state := st |}
}.

(** A response of the engine in the shape that [search] expects, with a
    count of two, two results, a filter and its totals. *)
Definition sampleResponse : jsstring * jsstring * jsstring * jsstring :=
  (lit "2", lit "a@1@1>1>0 b@1@", lit "tag:x:1", lit "tag:x:2").

(** ** The constructor and the choice of the language ([PagefindClient],
    lines 246-250 and 265-270) *)

(** [options.basePath.replace(re, '/')] for the pattern made of an
    optional slash and the end of the input.  The pattern is tried from the
    left: it matches at the last unit when that is a slash, and at the end
    of the input otherwise; the match is replaced by one slash. *)
Fixpoint replaceTrailingSlash (s : jsstring) : jsstring :=
  match s with
  | [] => [47]
  | c :: rest =>
      if (c =? 47) && negb (nonEmpty rest) then [47]
      else c :: replaceTrailingSlash rest
  end.

(** The options that the constructor reads. *)
Record NodePagefindOptions : Type := {
  options_basePath : jsstring;
  options_excerptLength : option Z
}.

(** [new PagefindClient(options)] *)
Definition newPagefindClient (options : NodePagefindOptions) : PagefindClient :=
  {| basePath := replaceTrailingSlash (options_basePath options);
     excerptLength := default 30%Z (options_excerptLength options);
     wasm := false;
     rawPtr := None;
     loadedChunks := ∅;
     loadedFilters := ∅ |}.

(** An entry of [entry.languages]. *)
Record LanguageIndex : Type := {
  language_hash : jsstring;
  language_wasm : option jsstring;
  page_count : Z
}.

Fixpoint insertLanguage (a : LanguageIndex) (sorted : list LanguageIndex)
  : list LanguageIndex :=
  match sorted with
  | [] => [a]
  | b :: rest =>
      if (page_count b <=? page_count a)%Z then a :: sorted
      else b :: insertLanguage a rest
  end.

(** [.sort((a, b) => b.page_count - a.page_count)]: descending and
    stable. *)
Definition sortLanguages (l : list LanguageIndex) : list LanguageIndex :=
  fold_right insertLanguage [] l.

Definition NO_LANGUAGE : jsstring := lit "Pagefind: No language indexes found".

(** Lines 266-270 of [init]: the index that is loaded, from the values of
    [entry.languages]. *)
Definition pickLanguage (langEntries : list LanguageIndex) : outcome LanguageIndex :=
  match langEntries with
  | [] => Throw (ErrorMessage NO_LANGUAGE)
  | _ :: _ =>
      match head (sortLanguages langEntries) with
      | Some index => Return index
      | None => Throw TypeError
      end
  end.

(** The two urls that [init] fetches for the index; a wasm name that is
    missing or empty gives [unknown]. *)
Definition metaUrl (base : jsstring) (index : LanguageIndex) : jsstring :=
  base ++ lit "pagefind." ++ language_hash index ++ lit ".pf_meta".

Definition wasmUrl (base : jsstring) (index : LanguageIndex) : jsstring :=
  base ++ lit "wasm."
  ++ match language_wasm index with
     | Some (c :: name) => c :: name
     | _ => lit "unknown"
     end
  ++ lit ".pagefind".

(** ** Fragments ([PagefindClient.loadFragment], lines 476-499) *)

(** [.replace(/</g, '&lt;').replace(/>/g, '&gt;')] *)
Definition escapeAngles (s : jsstring) : jsstring :=
  flat_map (fun c => if c =? 62 then lit "&gt;" else [c])
           (flat_map (fun c => if c =? 60 then lit "&lt;" else [c]) s).

(** The [replace] of every zero-width space by nothing. *)
Definition removeZws (s : jsstring) : jsstring :=
  List.filter (fun c => negb (c =? 8203)) s.

(** The fragment that [loadFragment] returns: the fields of the stored
    fragment and the three that the search adds. *)
Record LoadedFragment : Type := {
  loaded : PagefindFragment;
  loaded_locations : list Z;
  loaded_excerpt : jsstring;
  loaded_sub_results : list SubResult
}.

(** [loadFragment] from the clone of the stored fragment on.  A
    [raw_content] that is missing or empty is derived from the content. *)
Definition attachSearchData (urlWithHash : jsstring -> jsstring -> option jsstring)
    (excerptLength : Z) (stored : PagefindFragment)
    (weightedLocations : list WeightedLocation) : outcome LoadedFragment :=
  let locations := location <$> weightedLocations in
  let '(rawContent, content) :=
    match raw_content stored with
    | Some (c :: rest) => (c :: rest, content stored)
    | _ => (escapeAngles (content stored), removeZws (content stored))
    end in
  let fragment :=
    {| fragment_url := fragment_url stored;
       content := content;
       raw_content := Some rawContent;
       meta := meta stored;
       anchors := anchors stored;
       fragment_weighted_locations := weightedLocations |} in
  let excerptStart := calculateExcerptRegion weightedLocations excerptLength in
  let excerpt :=
    buildExcerpt rawContent excerptStart excerptLength locations None None in
  found ← calculateSubResults urlWithHash fragment excerptLength;
  Return {| loaded := fragment;
            loaded_locations := locations;
            loaded_excerpt := excerpt;
            loaded_sub_results := found |}.

(** ** The command line ([cli.ts]) *)

Record CliArgs : Type := {
  cli_query : jsstring;
  cli_basePath : option jsstring;
  cli_limit : float;
  cli_json : bool;
  cli_verbose : bool
}.

(** How the start of the program ends: the process exits with a code
    after a line is printed, or it goes on with the options. *)
Inductive cliStep : Type :=
  | Exit (code : Z) (printed : jsstring)
  | Parsed (opts : CliArgs).

Definition USAGE : jsstring :=
  lit "Usage: npx tsx tools/node-pagefind/src/cli.ts <query> [options]

Options:
  --base-path <url>  Pagefind base URL (default: https://nx.dev/docs/pagefind/)
  --limit <n>        Max results to show (default: 10)
  --json             Output as JSON
  --verbose          Show timing info".

Definition NO_QUERY : jsstring :=
  lit "Error: No search query provided. Use --help for usage.".

Definition defaultArgs : CliArgs :=
  {| cli_query := [];
     cli_basePath := Some (lit "https://nx.dev/docs/pagefind/");
     cli_limit := 10%float;
     cli_json := false;
     cli_verbose := false |}.

Definition sameString (a : jsstring) (b : string) : bool :=
  bool_decide (a = lit b).

Section CommandLine.

(** [parseInt(s, 10)]; the argument is [None] for [undefined]. *)
Variable parseInt10 : option jsstring -> float.

(** The end of [parseArgs]: the positional arguments joined by spaces. *)
Definition withQuery (opts : CliArgs) (positional : list jsstring) : cliStep :=
  Parsed {| cli_query := join (Some <$> positional) [32];
            cli_basePath := cli_basePath opts;
            cli_limit := cli_limit opts;
            cli_json := cli_json opts;
            cli_verbose := cli_verbose opts |}.

(** The loop of [parseArgs]: a flag that takes a value takes the next
    argument, whatever it is, and [undefined] when there is none. *)
Fixpoint parseArgsLoop (opts : CliArgs) (positional : list jsstring)
    (args : list jsstring) : cliStep :=
  match args with
  | [] => withQuery opts positional
  | a :: rest =>
      if sameString a "--base-path" then
        let opts' v := {| cli_query := cli_query opts;
                          cli_basePath := v;
                          cli_limit := cli_limit opts;
                          cli_json := cli_json opts;
                          cli_verbose := cli_verbose opts |} in
        match rest with
        | v :: rest' => parseArgsLoop (opts' (Some v)) positional rest'
        | [] => withQuery (opts' None) positional
        end
      else if sameString a "--limit" then
        let opts' v := {| cli_query := cli_query opts;
                          cli_basePath := cli_basePath opts;
                          cli_limit := parseInt10 v;
                          cli_json := cli_json opts;
                          cli_verbose := cli_verbose opts |} in
        match rest with
        | v :: rest' => parseArgsLoop (opts' (Some v)) positional rest'
        | [] => withQuery (opts' None) positional
        end
      else if sameString a "--json" then
        parseArgsLoop {| cli_query := cli_query opts;
                         cli_basePath := cli_basePath opts;
                         cli_limit := cli_limit opts;
                         cli_json := true;
                         cli_verbose := cli_verbose opts |} positional rest
      else if sameString a "--verbose" then
        parseArgsLoop {| cli_query := cli_query opts;
                         cli_basePath := cli_basePath opts;
                         cli_limit := cli_limit opts;
                         cli_json := cli_json opts;
                         cli_verbose := true |} positional rest
      else if sameString a "--help" || sameString a "-h" then Exit 0 USAGE
      else parseArgsLoop opts (positional ++ [a]) rest
  end.

(** [parseArgs(argv)] *)
Definition parseArgs (argv : list jsstring) : cliStep :=
  parseArgsLoop defaultArgs [] (drop 2 argv).

(** [main] up to the creation of the client: without a query the error
    line is printed and the process exits with the code 1. *)
Definition mainStart (argv : list jsstring) : cliStep :=
  match parseArgs argv with
  | Parsed opts => if nonEmpty (cli_query opts) then Parsed opts else Exit 1 NO_QUERY
  | Exit code printed => Exit code printed
  end.

End CommandLine.

(** Whether an argument is one of the two flags without a value. *)
Definition isSwitch (a : jsstring) : bool :=
  sameString a "--json" || sameString a "--verbose".

(** Whether an argument is a flag that takes the next argument or that
    prints the usage. *)
Definition isValueOrHelpFlag (a : jsstring) : bool :=
  sameString a "--base-path" || sameString a "--limit"
  || sameString a "--help" || sameString a "-h".

(** Two language indexes and a page for the examples. *)
Definition sampleLanguages : list LanguageIndex :=
  [{| language_hash := lit "fr"; language_wasm := Some (lit "fr"); page_count := 3 |};
   {| language_hash := lit "en"; language_wasm := Some (lit "en"); page_count := 7 |};
   {| language_hash := lit "de"; language_wasm := None; page_count := 7 |}].

Definition storedPage : PagefindFragment :=
  {| fragment_url := lit "/docs/";
     content := lit "a <b> c d e f g h i j";
     raw_content := None;
     meta := {[ lit "title" := lit "Page" ]};
     anchors := [headingTwo; headingOne];
     fragment_weighted_locations := [] |}.

(** The filter that a block of the filter string names: what comes before
    the colon at which [parseFilters] splits the block. *)
Definition filterName (block : jsstring) : jsstring :=
  fst (splitFilterBlock [] block).


(** The value entries of a block of the filter string: what follows the
    colon at which the block is split, cut at the value delimiter. *)
Definition valueEntries (block : jsstring) : list jsstring :=
  match snd (splitFilterBlock [] block) with
  | Some values => if nonEmpty values then split values VALUE_DELIM else []
  | None => []
  end.


(** What one value entry adds to the counts of its filter. *)
Definition addEntry (counts : gmap jsstring float) (entry : jsstring)
  : gmap jsstring float :=
  match matchValueCount [] entry with
  | Some (v, digits) =>
      if bool_decide (v = PROTO) then counts else <[v := parseIntDigits digits]> counts
  | None => counts
  end.

(** A filter string for the examples: the filter [a] with a value [x:y]
    entered twice, the second time with a count past 2^53, and an entry
    without a count between the two; then the filter [b]. *)
Definition sampleFilters : jsstring :=
  lit "a:x:y:12__PF_VALUE_DELIM__bad__PF_VALUE_DELIM__x:y:9007199254740993__PF_FILTER_DELIM__b:z:1".

(** The page of [samplePage] with matches at the offsets 7, 0 and 3,
    listed in this order. *)
Definition shuffledPage : PagefindFragment :=
  {| fragment_url := lit "/docs/";
     content := lit "a b c d e f g h i j";
     raw_content := Some (lit "a b c d e f g h i j");
     meta := {[ lit "title" := lit "Page" ]};
     anchors := [headingOne; headingTwo];
     fragment_weighted_locations := [matchAt 7; matchAt 0; matchAt 3] |}.

(** The page of [samplePage] under a url that names a host and no
    scheme. *)
Definition cdnPage : PagefindFragment :=
  {| fragment_url := lit "//cdn.example.org/docs/";
     content := content samplePage;
     raw_content := raw_content samplePage;
     meta := meta samplePage;
     anchors := anchors samplePage;
     fragment_weighted_locations := fragment_weighted_locations samplePage |}.

(** A url builder for the examples that, as [new URL] of one argument,
    takes no url without a scheme. *)
Definition schemeUrlWithHash (u h : jsstring) : option jsstring :=
  if startsWith u (lit "http://") || startsWith u (lit "https://")
  then appendHash u h else None.

(** * Properties *)

(** ** Strings *)

Lemma trimStart_head s : headIsWhiteSpace (trimStart s) = false.
Proof.
  induction s as [|c s IH]; simpl; [reflexivity|].
  destruct (isWhiteSpace c) eqn:Hc; [exact IH|]. simpl. exact Hc.
Qed.

Lemma trimStart_fixed s : headIsWhiteSpace s = false -> trimStart s = s.
Proof. destruct s as [|c s]; simpl; [reflexivity|]. intros ->. reflexivity. Qed.

Lemma trimStart_suffix s : exists ws, s = ws ++ trimStart s.
Proof.
  induction s as [|c s [ws IH]]; simpl.
  - exists []. reflexivity.
  - destruct (isWhiteSpace c).
    + exists (c :: ws). simpl. f_equal. exact IH.
    + exists []. reflexivity.
Qed.

Lemma trimEnd_prefix s : exists ws, s = trimEnd s ++ ws.
Proof.
  unfold trimEnd. destruct (trimStart_suffix (rev s)) as [ws H].
  exists (rev ws). rewrite <- rev_app_distr, <- H, rev_involutive. reflexivity.
Qed.

Lemma trimEnd_fixed s : headIsWhiteSpace (rev s) = false -> trimEnd s = s.
Proof.
  intros H. unfold trimEnd. rewrite trimStart_fixed by exact H.
  apply rev_involutive.
Qed.

Lemma trimEnd_last s : headIsWhiteSpace (rev (trimEnd s)) = false.
Proof. unfold trimEnd. rewrite rev_involutive. apply trimStart_head. Qed.

Lemma head_of_prefix (s t : jsstring) :
  headIsWhiteSpace (s ++ t) = false -> headIsWhiteSpace s = false.
Proof. destruct s; simpl; auto. Qed.

Lemma trimEnd_head s : headIsWhiteSpace s = false -> headIsWhiteSpace (trimEnd s) = false.
Proof.
  intros H. destruct (trimEnd_prefix s) as [ws Hs].
  rewrite Hs in H. exact (head_of_prefix _ _ H).
Qed.

Lemma trim_head s : headIsWhiteSpace (trim s) = false.
Proof. unfold trim. apply trimEnd_head, trimStart_head. Qed.

Lemma trim_last s : headIsWhiteSpace (rev (trim s)) = false.
Proof. unfold trim. apply trimEnd_last. Qed.

Lemma trim_fixed s :
  headIsWhiteSpace s = false -> headIsWhiteSpace (rev s) = false -> trim s = s.
Proof.
  intros H1 H2. unfold trim. rewrite (trimStart_fixed s H1).
  apply trimEnd_fixed, H2.
Qed.

Lemma trim_infix s : exists l r, s = l ++ trim s ++ r.
Proof.
  unfold trim. destruct (trimStart_suffix s) as [l Hl].
  destruct (trimEnd_prefix (trimStart s)) as [r Hr].
  exists l, r. rewrite <- Hr. exact Hl.
Qed.

Lemma trim_Forall (P : N -> Prop) s : Forall P s -> Forall P (trim s).
Proof.
  intros H. destruct (trim_infix s) as (l & r & Hs). rewrite Hs in H.
  apply Forall_app in H as [_ H]. apply Forall_app in H as [H _]. exact H.
Qed.

Lemma noWhiteSpaceRun_app_l s t : noWhiteSpaceRun (s ++ t) -> noWhiteSpaceRun s.
Proof.
  induction s as [|c s IH]; simpl; [tauto|]. intros [H1 H2]. split; [|auto].
  intros Hc. specialize (H1 Hc). destruct s; [reflexivity|exact H1].
Qed.

Lemma noWhiteSpaceRun_app_r s t : noWhiteSpaceRun (s ++ t) -> noWhiteSpaceRun t.
Proof. induction s as [|c s IH]; simpl; [tauto|]. intros [_ H]. auto. Qed.

Lemma trim_noWhiteSpaceRun s : noWhiteSpaceRun s -> noWhiteSpaceRun (trim s).
Proof.
  intros H. destruct (trim_infix s) as (l & r & Hs). rewrite Hs in H.
  apply noWhiteSpaceRun_app_r in H. apply noWhiteSpaceRun_app_l in H. exact H.
Qed.

Lemma collapseRuns_head b s :
  (b = true \/ headIsWhiteSpace s = false) ->
  headIsWhiteSpace (collapseRuns b s) = false.
Proof.
  revert b. induction s as [|c s IH]; intros b Hb; simpl; [reflexivity|].
  destruct (isWhiteSpace c) eqn:Hc.
  - destruct Hb as [-> | Hb]; [|simpl in Hb; congruence].
    apply IH. left. reflexivity.
  - simpl. exact Hc.
Qed.

Lemma collapseRuns_noWhiteSpaceRun b s : noWhiteSpaceRun (collapseRuns b s).
Proof.
  revert b. induction s as [|c s IH]; intros b; simpl; [exact I|].
  destruct (isWhiteSpace c) eqn:Hc.
  - destruct b; [apply IH|].
    destruct (headIsWhiteSpace s) eqn:Hs; simpl.
    + split; [|apply IH]. intros _. apply collapseRuns_head. left. reflexivity.
    + split; [|apply IH]. intros _. apply collapseRuns_head. right. exact Hs.
  - simpl. split; [congruence|apply IH].
Qed.

Lemma collapseRuns_fixed s : noWhiteSpaceRun s -> collapseRuns false s = s.
Proof.
  induction s as [|c s IH]; simpl; [reflexivity|]. intros [H1 H2].
  destruct (isWhiteSpace c) eqn:Hc.
  - rewrite (H1 eq_refl). f_equal. apply IH, H2.
  - f_equal. apply IH, H2.
Qed.

Lemma collapseRuns_Forall (P : N -> Prop) b s :
  P 32 -> Forall P s -> Forall P (collapseRuns b s).
Proof.
  intros H32 H. revert b. induction H as [|c s Hc Hs IH]; intros b; simpl.
  - constructor.
  - destruct (isWhiteSpace c); [destruct b; [apply IH|]|].
    + destruct (headIsWhiteSpace s); constructor; auto.
    + constructor; auto.
Qed.

Lemma stripPunctuation_Forall (P : N -> Prop) s :
  Forall P s -> Forall P (stripPunctuation s).
Proof.
  intros H. apply List.Forall_forall. intros c Hc. unfold stripPunctuation in Hc.
  apply filter_In in Hc as [Hc _]. revert c Hc. apply List.Forall_forall, H.
Qed.

Lemma stripPunctuation_clean s :
  Forall (fun c => isStripped c = false) (stripPunctuation s).
Proof.
  apply List.Forall_forall. intros c Hc. unfold stripPunctuation in Hc.
  apply filter_In in Hc as [_ Hc]. apply negb_true_iff, Hc.
Qed.

Lemma stripPunctuation_fixed s :
  Forall (fun c => isStripped c = false) s -> stripPunctuation s = s.
Proof.
  induction 1 as [|c s Hc Hs IH]; simpl; [reflexivity|].
  rewrite Hc. simpl. f_equal. exact IH.
Qed.

Lemma surrogate_not_high c : isHighSurrogate c = false -> forall rest,
  codePoints (c :: rest) = c :: codePoints rest.
Proof.
  intros Hc rest. cbn [codePoints]. rewrite Hc. destruct rest; reflexivity.
Qed.

Lemma codePoints_pair h l rest :
  isHighSurrogate h = true -> isLowSurrogate l = true ->
  codePoints (h :: l :: rest) = pairPoint h l :: codePoints rest.
Proof. intros Hh Hl. cbn [codePoints]. rewrite Hh, Hl. reflexivity. Qed.




Lemma trimStart_whiteSpace ws s :
  forallb isWhiteSpace ws = true -> trimStart (ws ++ s) = trimStart s.
Proof.
  induction ws as [|c ws IH]; intros H; [reflexivity|].
  simpl in *. apply andb_true_iff in H as [-> H]. apply IH, H.
Qed.

Lemma trimStart_removed s : exists ws,
  s = ws ++ trimStart s /\ forallb isWhiteSpace ws = true.
Proof.
  induction s as [|c s (ws & IH & Hws)]; simpl.
  - exists []. split; reflexivity.
  - destruct (isWhiteSpace c) eqn:Hc.
    + exists (c :: ws). simpl. rewrite Hc, Hws. split; [f_equal; exact IH|reflexivity].
    + exists []. split; reflexivity.
Qed.

Lemma forallb_rev (f : N -> bool) s : forallb f (rev s) = forallb f s.
Proof.
  induction s as [|c s IH]; [reflexivity|]. simpl.
  rewrite forallb_app, IH. simpl. rewrite andb_true_r. apply andb_comm.
Qed.

Lemma trimEnd_whiteSpace s ws :
  forallb isWhiteSpace ws = true -> trimEnd (s ++ ws) = trimEnd s.
Proof.
  intros H. unfold trimEnd. rewrite rev_app_distr.
  rewrite trimStart_whiteSpace by (rewrite forallb_rev; exact H). reflexivity.
Qed.

Lemma trimEnd_removed s : exists ws,
  s = trimEnd s ++ ws /\ forallb isWhiteSpace ws = true.
Proof.
  unfold trimEnd. destruct (trimStart_removed (rev s)) as (ws & H & Hws).
  exists (rev ws). split; [|rewrite forallb_rev; exact Hws].
  rewrite <- rev_app_distr, <- H, rev_involutive. reflexivity.
Qed.

Lemma quotedTail_spec s : forall seen,
  quotedTail seen s = true <->
  exists inner ws,
    s = inner ++ [34] ++ ws
    /\ (seen = true \/ inner <> [])
    /\ forallb (fun c => negb (isLineTerminator c)) inner = true
    /\ forallb isWhiteSpace ws = true.
Proof.
  induction s as [|c rest IH]; intros seen; cbn [quotedTail].
  - split; [discriminate|]. intros (inner & ws & H & _). destruct inner; discriminate.
  - rewrite orb_true_iff, !andb_true_iff, IH. split.
    + intros [[[-> Hc] Hws]|[Hc (inner & ws & -> & _ & Hin & Hws)]].
      * apply N.eqb_eq in Hc. subst c. exists [], rest.
        split; [reflexivity|]. split; [left; reflexivity|]. split; [reflexivity|exact Hws].
      * exists (c :: inner), ws. simpl. rewrite Hc, Hin.
        split; [reflexivity|]. split; [right; discriminate|]. split; [reflexivity|exact Hws].
    + intros (inner & ws & H & Hseen & Hin & Hws). destruct inner as [|d inner].
      * left. simpl in H. inversion H; subst. destruct Hseen as [->|Hne]; [|contradiction].
        split; [split; [reflexivity|apply N.eqb_refl]|exact Hws].
      * right. simpl in H. inversion H; subst. simpl in Hin.
        apply andb_true_iff in Hin as [Hd Hin]. split; [exact Hd|].
        exists inner, ws. split; [reflexivity|]. split; [left; reflexivity|].
        split; [exact Hin|exact Hws].
Qed.

(** X18. What the exact-phrase test of [search] accepts: a query is taken
    as an exact phrase exactly when, trimmed, it is a double quote, a text
    that is not empty and holds no line terminator, and a double quote. *)
Lemma exactSearch_spec term :
  exactSearch term = true <->
  exists inner,
    trim term = [34] ++ inner ++ [34]
    /\ inner <> []
    /\ forallb (fun c => negb (isLineTerminator c)) inner = true.
Proof.
  unfold exactSearch, trim. split.
  - destruct (trimStart term) as [|c rest] eqn:Ht; [discriminate|].
    intros H. apply andb_true_iff in H as [Hc H]. apply N.eqb_eq in Hc. subst c.
    apply quotedTail_spec in H as (inner & ws & -> & [Hs|Hne] & Hin & Hws);
      [discriminate|].
    exists inner. split; [|split; assumption].
    replace (34 :: inner ++ [34] ++ ws) with (([34] ++ inner ++ [34]) ++ ws)
      by (simpl; rewrite <- app_assoc; reflexivity).
    rewrite trimEnd_whiteSpace by exact Hws. apply trimEnd_fixed.
    rewrite !rev_app_distr. reflexivity.
  - intros (inner & H & Hne & Hin).
    destruct (trimEnd_removed (trimStart term)) as (ws & Hs & Hws).
    rewrite H in Hs. rewrite Hs. simpl. apply quotedTail_spec.
    exists inner, ws. rewrite <- app_assoc.
    split; [reflexivity|]. split; [right; exact Hne|]. split; [exact Hin|exact Hws].
Qed.



(** *** Lower case and well-formed strings *)

Ltac bounds :=
  repeat match goal with
         | H : (_ && _) = true |- _ => apply andb_true_iff in H as [? ?]
         | H : (_ || _) = true |- _ => apply orb_true_iff in H as [?|?]
         | H : (_ && _) = false |- _ => apply andb_false_iff in H as [?|?]
         | H : (_ || _) = false |- _ => apply orb_false_iff in H as [? ?]
         | H : negb _ = true |- _ => apply negb_true_iff in H
         | H : negb _ = false |- _ => apply negb_false_iff in H
         | H : (_ <=? _) = true |- _ => apply N.leb_le in H
         | H : (_ <=? _) = false |- _ => apply N.leb_gt in H
         | H : (_ <? _) = true |- _ => apply N.ltb_lt in H
         | H : (_ <? _) = false |- _ => apply N.ltb_ge in H
         | H : (_ =? _) = true |- _ => apply N.eqb_eq in H
         | H : (_ =? _) = false |- _ => apply N.eqb_neq in H
         end.

Lemma whiteSpace_not_surrogate c :
  isWhiteSpace c = true -> isHighSurrogate c = false /\ isLowSurrogate c = false.
Proof.
  intros H. unfold isWhiteSpace in H. unfold isHighSurrogate, isLowSurrogate.
  split; apply andb_false_iff; bounds; subst;
    first [left; apply N.leb_gt; lia | right; apply N.leb_gt; lia].
Qed.

Lemma surrogate_not_whiteSpace c :
  isHighSurrogate c = true \/ isLowSurrogate c = true -> isWhiteSpace c = false.
Proof.
  intros H. destruct (isWhiteSpace c) eqn:Hw; [|reflexivity].
  apply whiteSpace_not_surrogate in Hw as [H1 H2]. destruct H; congruence.
Qed.

Lemma isStripped_ascii c : isStripped c = true -> c < 128.
Proof.
  unfold isStripped. intros H. apply existsb_exists in H as (x & Hx & Hc).
  apply N.eqb_eq in Hc. subst x. vm_compute in Hx.
  repeat (destruct Hx as [<-|Hx]; [reflexivity|]). destruct Hx.
Qed.

Lemma surrogate_not_stripped c :
  isHighSurrogate c = true \/ isLowSurrogate c = true -> isStripped c = false.
Proof.
  intros H. destruct (isStripped c) eqn:Hs; [|reflexivity].
  apply isStripped_ascii in Hs. unfold isHighSurrogate, isLowSurrogate in H.
  destruct H as [H|H]; bounds; lia.
Qed.

Lemma utf16Units_pair h l :
  isHighSurrogate h = true -> isLowSurrogate l = true ->
  utf16Units (pairPoint h l) = [h; l].
Proof.
  unfold isHighSurrogate, isLowSurrogate, pairPoint, utf16Units. intros Hh Hl. bounds.
  replace (65536 + (h - 55296) * 1024 + (l - 56320) <? 65536) with false
    by (symmetry; apply N.ltb_ge; lia).
  replace (65536 + (h - 55296) * 1024 + (l - 56320) - 65536)
    with ((l - 56320) + (h - 55296) * 2 ^ 10) by lia.
  rewrite N.shiftr_div_pow2, N.div_add by discriminate.
  change 1023 with (N.ones 10). rewrite N.land_ones, N.Div0.mod_add.
  rewrite N.div_small, N.mod_small by (change (2 ^ 10) with 1024; lia).
  f_equal; [lia|f_equal; lia].
Qed.

Lemma utf16Units_scalar d :
  isScalar d = true ->
  (d < 65536 /\ isHighSurrogate d = false /\ isLowSurrogate d = false)
  \/ exists h l,
       utf16Units d = [h; l] /\ isHighSurrogate h = true /\ isLowSurrogate l = true
       /\ pairPoint h l = d.
Proof.
  unfold isScalar. intros H. apply andb_true_iff in H as [Hd Hs].
  apply negb_true_iff, orb_false_iff in Hs as [Hh Hl]. apply N.ltb_lt in Hd.
  destruct (N.ltb_spec d 65536) as [Hlt|Hge]; [left; auto|]. right.
  exists (55296 + (d - 65536) / 1024), (56320 + (d - 65536) mod 1024).
  pose proof (N.mod_upper_bound (d - 65536) 1024 ltac:(discriminate)) as Hm.
  assert (Hq : (d - 65536) / 1024 < 1024)
    by (apply N.Div0.div_lt_upper_bound; lia).
  pose proof (N.div_mod (d - 65536) 1024 ltac:(discriminate)) as Hdm.
  split; [|split; [|split]].
  - unfold utf16Units. replace (d <? 65536) with false by (symmetry; apply N.ltb_ge; lia).
    rewrite N.shiftr_div_pow2. change 1023 with (N.ones 10). rewrite N.land_ones.
    reflexivity.
  - unfold isHighSurrogate. clear Hdm Hm.
    generalize dependent ((d - 65536) / 1024). intros q Hq.
    apply andb_true_iff. split; apply N.leb_le; lia.
  - unfold isLowSurrogate. clear Hdm Hq.
    generalize dependent ((d - 65536) mod 1024). intros r Hr.
    apply andb_true_iff. split; apply N.leb_le; lia.
  - unfold pairPoint.
    generalize dependent ((d - 65536) mod 1024).
    generalize dependent ((d - 65536) / 1024). intros q Hq r Hr Hdm. lia.
Qed.

(** Lower-casing leaves a string in lower case as it is. *)
Lemma lowered_fixed data s :
  lowered data s ->
  forall before, flat_map utf16Units (lowerPoints data before (codePoints s)) = s.
Proof.
  induction 1 as [|c s Hh Hl Hc Hfix Hsig Hs IH|h l s Hh Hl Hfix Hs IH]; intros before.
  - reflexivity.
  - rewrite (surrogate_not_high c Hh). cbn [lowerPoints].
    replace (c =? 931) with false by (symmetry; apply N.eqb_neq; exact Hsig).
    rewrite Hfix. cbn [app flat_map]. rewrite IH. unfold utf16Units.
    replace (c <? 65536) with true by (symmetry; apply N.ltb_lt; exact Hc).
    reflexivity.
  - rewrite (codePoints_pair h l s Hh Hl). cbn [lowerPoints].
    replace (pairPoint h l =? 931) with false
      by (symmetry; apply N.eqb_neq; unfold pairPoint; lia).
    rewrite Hfix. cbn [app flat_map]. rewrite IH, (utf16Units_pair h l Hh Hl).
    reflexivity.
Qed.

Lemma list_two_step_ind (P : jsstring -> Prop) :
  P [] -> (forall c, P [c]) ->
  (forall c d s, P s -> P (d :: s) -> P (c :: d :: s)) ->
  forall s, P s.
Proof.
  intros H0 H1 H2 s.
  assert (H : P s /\ forall c, P (c :: s)).
  { induction s as [|d s [IH1 IH2]]; [split; [exact H0|exact H1]|].
    split; [apply IH2|]. intros c. apply H2; [exact IH1|apply IH2]. }
  apply H.
Qed.

Lemma wellFormed_scalar s :
  wellFormed s = true -> Forall (fun c => isScalar c = true) (codePoints s).
Proof.
  induction s as [|c|c d s IH1 IH2] using list_two_step_ind; intros H.
  - constructor.
  - cbn [wellFormed] in H. destruct (isHighSurrogate c) eqn:Hh; [discriminate|].
    apply andb_true_iff in H as [H _]. apply andb_true_iff in H as [Hl Hc].
    apply negb_true_iff in Hl. apply N.ltb_lt in Hc.
    cbn. constructor; [|constructor]. unfold isScalar. rewrite Hh, Hl.
    apply andb_true_iff. split; [apply N.ltb_lt; lia|reflexivity].
  - cbn [wellFormed] in H. destruct (isHighSurrogate c) eqn:Hh.
    + apply andb_true_iff in H as [Hl H].
      rewrite (codePoints_pair c d s Hh Hl). constructor; [|apply IH1, H].
      unfold isScalar, pairPoint, isHighSurrogate, isLowSurrogate in *. bounds.
      apply andb_true_iff. split; [apply N.ltb_lt; lia|].
      apply negb_true_iff, orb_false_iff.
      split; apply andb_false_iff; right; apply N.leb_gt; lia.
    + apply andb_true_iff in H as [H Hw]. apply andb_true_iff in H as [Hl Hc].
      rewrite (surrogate_not_high c Hh). constructor; [|apply IH2, Hw].
      apply negb_true_iff in Hl. apply N.ltb_lt in Hc. unfold isScalar. rewrite Hh, Hl.
      apply andb_true_iff. split; [apply N.ltb_lt; lia|reflexivity].
Qed.

Lemma lowered_points data ds rest :
  Forall (fun d => isScalar d = true /\ lowerPoint data d = [d] /\ d <> 931) ds ->
  lowered data rest ->
  lowered data (flat_map utf16Units ds ++ rest).
Proof.
  intros Hds Hrest. induction Hds as [|d ds (Hs & Hfix & Hsig) _ IH]; [exact Hrest|].
  cbn [flat_map]. rewrite <- app_assoc.
  destruct (utf16Units_scalar d Hs) as [(Hd & Hh & Hl)|(h & l & Hu & Hh & Hl & Hp)].
  - unfold utf16Units. replace (d <? 65536) with true by (symmetry; apply N.ltb_lt; exact Hd).
    cbn [app]. apply lowered_unit; assumption.
  - rewrite Hu. cbn [app]. apply lowered_pair; [exact Hh|exact Hl| |exact IH].
    rewrite Hp. exact Hfix.
Qed.

(** The lower-case form of a well-formed string is in lower case. *)
Lemma lowerPoints_lowered data `{!StableCaseTable data} cps :
  Forall (fun c => isScalar c = true) cps ->
  forall before, lowered data (flat_map utf16Units (lowerPoints data before cps)).
Proof.
  assert (Hsmall : lowerPoint data 963 = [963])
    by (apply (lower_stable 931); rewrite lower_sigma; left; reflexivity).
  assert (Hnot : forall d, lowerPoint data d = [d] -> d <> 931)
    by (intros d Hd ->; rewrite lower_sigma in Hd; discriminate).
  induction 1 as [|c cps Hc _ IH]; intros before; [constructor|].
  cbn [lowerPoints]. rewrite flat_map_app. apply lowered_points; [|apply IH].
  destruct (N.eqb_spec c 931) as [->|Hne].
  - destruct (finalSigma data before cps); repeat constructor;
      first [exact lower_final_sigma | exact Hsmall | discriminate].
  - apply List.Forall_forall. intros d Hd.
    pose proof (lower_stable c d Hd) as Hfix.
    split; [exact (lower_scalar c d Hc Hd)|]. split; [exact Hfix|apply Hnot, Hfix].
Qed.

Lemma toLowerCase_lowered data `{!StableCaseTable data} q :
  wellFormed q = true -> lowered data (toLowerCase data q).
Proof.
  intros H. apply (lowerPoints_lowered data), wellFormed_scalar, H.
Qed.

Lemma lowered_trimStart data s : lowered data s -> lowered data (trimStart s).
Proof.
  induction 1 as [|c s Hh Hl Hc Hfix Hsig Hs IH|h l s Hh Hl Hfix Hs IH].
  - constructor.
  - cbn [trimStart]. destruct (isWhiteSpace c); [exact IH|].
    apply lowered_unit; assumption.
  - cbn [trimStart]. rewrite (surrogate_not_whiteSpace h) by (left; exact Hh).
    apply lowered_pair; assumption.
Qed.

Lemma lowered_app_inv data ws : forall s t,
  lowered data t -> t = s ++ ws -> forallb isWhiteSpace ws = true ->
  lowered data s.
Proof.
  intros s t H. revert s.
  induction H as [|c t Hh Hl Hc Hfix Hsig Ht IH|h l t Hh Hl Hfix Ht IH];
    intros s Heq Hws.
  - destruct s; [constructor|discriminate].
  - destruct s as [|c' s]; [constructor|]. inversion Heq; subst.
    apply lowered_unit; try assumption. apply IH; [reflexivity|exact Hws].
  - destruct s as [|h' [|l' s]]; [constructor| |].
    + inversion Heq; subst. cbn in Hws. apply andb_true_iff in Hws as [Hw _].
      rewrite (surrogate_not_whiteSpace l) in Hw by (right; exact Hl). discriminate.
    + inversion Heq; subst. apply lowered_pair; try assumption.
      apply IH; [reflexivity|exact Hws].
Qed.

Lemma lowered_trim data s : lowered data s -> lowered data (trim s).
Proof.
  intros H. unfold trim. apply lowered_trimStart in H.
  destruct (trimEnd_removed (trimStart s)) as (ws & Heq & Hws).
  exact (lowered_app_inv data ws _ _ H Heq Hws).
Qed.

Lemma lowered_stripPunctuation data s :
  lowered data s -> lowered data (stripPunctuation s).
Proof.
  unfold stripPunctuation.
  induction 1 as [|c s Hh Hl Hc Hfix Hsig Hs IH|h l s Hh Hl Hfix Hs IH].
  - constructor.
  - cbn [List.filter]. destruct (negb (isStripped c)); [|exact IH].
    apply lowered_unit; assumption.
  - cbn [List.filter].
    rewrite (surrogate_not_stripped h) by (left; exact Hh).
    rewrite (surrogate_not_stripped l) by (right; exact Hl).
    cbn [negb]. apply lowered_pair; assumption.
Qed.

Lemma lowered_collapseRuns data `{!CaseTable data} s :
  lowered data s -> forall inRun, lowered data (collapseRuns inRun s).
Proof.
  assert (Hspace : forall t, lowered data t -> lowered data (32 :: t)).
  { intros t Ht. apply lowered_unit; try reflexivity; [|discriminate|exact Ht].
    apply (lower_ascii 32). reflexivity. }
  induction 1 as [|c s Hh Hl Hc Hfix Hsig Hs IH|h l s Hh Hl Hfix Hs IH]; intros inRun.
  - constructor.
  - cbn [collapseRuns]. destruct (isWhiteSpace c).
    + destruct inRun; [apply IH|].
      destruct (headIsWhiteSpace s); [apply Hspace, IH|].
      apply lowered_unit; try assumption. apply IH.
    + apply lowered_unit; try assumption. apply IH.
  - cbn [collapseRuns].
    rewrite (surrogate_not_whiteSpace h) by (left; exact Hh).
    rewrite (surrogate_not_whiteSpace l) by (right; exact Hl).
    apply lowered_pair; try assumption. apply IH.
Qed.

Lemma normalize_isNormalized data `{!StableCaseTable data} q :
  wellFormed q = true -> isNormalized data (normalize data q).
Proof.
  intros Hq. pose proof stable_ascii as Hascii.
  unfold isNormalized, normalize. split; [|repeat split].
  - apply lowered_trim, lowered_collapseRuns; [exact Hascii|].
    apply lowered_stripPunctuation, lowered_trim, toLowerCase_lowered; assumption.
  - apply trim_Forall, collapseRuns_Forall; [reflexivity|].
    apply stripPunctuation_clean.
  - apply trim_noWhiteSpaceRun, collapseRuns_noWhiteSpaceRun.
  - apply trim_head.
  - apply trim_last.
Qed.

Lemma normalize_fixed data s :
  isNormalized data s -> normalize data s = s.
Proof.
  intros (H1 & H2 & H3 & H4 & H5). unfold normalize, toLowerCase.
  rewrite (lowered_fixed data s H1), (trim_fixed _ H4 H5).
  rewrite (stripPunctuation_fixed _ H2). unfold collapseWhiteSpace.
  rewrite (collapseRuns_fixed _ H3). apply trim_fixed; assumption.
Qed.

#[global] Instance sampleTable_stable : StableCaseTable sampleTable.
Proof.
  assert (Hlow : forall c, asciiLower c = c \/ (asciiLower c = c + 32 /\ 65 <= c <= 90)).
  { intros c. unfold asciiLower. destruct ((65 <=? c) && (c <=? 90)) eqn:H; [|left; reflexivity].
    right. bounds. split; [reflexivity|lia]. }
  split.
  - split. intros c Hc. cbn.
    replace (c =? 931) with false by (symmetry; apply N.eqb_neq; lia).
    replace (c =? 66560) with false by (symmetry; apply N.eqb_neq; lia).
    reflexivity.
  - intros c d Hd. cbn in Hd |- *.
    destruct (N.eqb_spec c 931); [destruct Hd as [<-|[]]; reflexivity|].
    destruct (N.eqb_spec c 66560); [destruct Hd as [<-|[]]; reflexivity|].
    destruct Hd as [<-|[]].
    assert (H1 : asciiLower c <> 931) by (destruct (Hlow c) as [->|[-> ?]]; lia).
    assert (H2 : asciiLower c <> 66560) by (destruct (Hlow c) as [->|[-> ?]]; lia).
    replace (asciiLower c =? 931) with false by (symmetry; apply N.eqb_neq; exact H1).
    replace (asciiLower c =? 66560) with false by (symmetry; apply N.eqb_neq; exact H2).
    f_equal. destruct (Hlow c) as [Heq|[Heq ?]]; [rewrite !Heq; reflexivity|].
    rewrite Heq. unfold asciiLower.
    replace ((65 <=? c + 32) && (c + 32 <=? 90)) with false; [reflexivity|].
    symmetry. apply andb_false_iff. right. apply N.leb_gt. lia.
  - intros c d Hc Hd. cbn in Hd.
    destruct (N.eqb_spec c 931); [destruct Hd as [<-|[]]; reflexivity|].
    destruct (N.eqb_spec c 66560); [destruct Hd as [<-|[]]; reflexivity|].
    destruct Hd as [<-|[]].
    destruct (Hlow c) as [->|[-> ?]]; [exact Hc|].
    unfold isScalar, isHighSurrogate, isLowSurrogate.
    apply andb_true_iff. split; [apply N.ltb_lt; lia|].
    apply negb_true_iff, orb_false_iff.
    split; apply andb_false_iff; left; apply N.leb_gt; lia.
  - reflexivity.
  - reflexivity.
Qed.

(** C9, as the code has it.  On a query that is well-formed UTF-16,
    normalizing the normalized query changes nothing: the output of the
    five steps is in lower case code point by code point, and trimming,
    stripping and collapsing neither split nor join a surrogate pair of a
    well-formed string, so lower-casing again, trimming, stripping the
    punctuation, collapsing the white-space runs and trimming again leave
    it as it is. *)
Theorem normalize_idempotent (data : CaseData) (table : StableCaseTable data)
    (q : jsstring) :
  wellFormed q = true ->
  normalize data (normalize data q) = normalize data q.
Proof.
  intros Hq. apply normalize_fixed, normalize_isNormalized; assumption.
Qed.

Lemma normalize_idempotent_witness :
  wellFormed ([32; 55297; 56320; 931] ++ lit "  b.C ") = true
  /\ normalize sampleTable (normalize sampleTable ([32; 55297; 56320; 931] ++ lit "  b.C "))
     = normalize sampleTable ([32; 55297; 56320; 931] ++ lit "  b.C ").
Proof.
  split; [reflexivity|].
  apply (normalize_idempotent sampleTable sampleTable_stable). reflexivity.
Defined.

(** C9, as the claim states it, fails where the punctuation that is
    stripped stands between the two halves of a surrogate pair.  Lower-casing
    reads the two halves of [splitPair] as two code points and leaves them;
    stripping the full stop brings them together, and the normalized query is
    the Deseret capital long I (U+10400).  Normalizing again lower-cases
    that letter to U+10428. *)
Lemma normalize_not_idempotent :
  wellFormed splitPair = false
  /\ normalize sampleTable splitPair = [55297; 56320]
  /\ normalize sampleTable (normalize sampleTable splitPair) = [55297; 56360].
Proof. vm_compute. repeat split. Qed.

(** ** Decompression *)

Lemma lor_shiftl_lower (cp x k : N) :
  2 ^ k <= cp -> 2 ^ (k + 6) <= N.lor (N.shiftl cp 6) x.
Proof.
  intros H. assert (Hpos : 0 < cp).
  { apply N.lt_le_trans with (2 ^ k); [|exact H].
    apply N.neq_0_lt_0, N.pow_nonzero. discriminate. }
  assert (Hs : N.shiftl cp 6 <> 0).
  { rewrite N.shiftl_mul_pow2. intros H0. apply N.eq_mul_0 in H0 as [H0|H0]; [lia|].
    revert H0. apply N.pow_nonzero. discriminate. }
  assert (Hl : 0 < N.lor (N.shiftl cp 6) x).
  { apply N.neq_0_lt_0. intros H0. apply N.lor_eq_0_l in H0. contradiction. }
  apply N.log2_le_pow2; [exact Hl|]. rewrite N.log2_lor.
  apply N.le_trans with (N.log2 (N.shiftl cp 6)); [|apply N.le_max_l].
  rewrite N.log2_shiftl by lia. apply N.add_le_mono_r.
  apply N.log2_le_pow2; assumption.
Qed.

Lemma lor_lower_r (a x k : N) : 2 ^ k <= x -> 2 ^ k <= N.lor a x.
Proof.
  intros H. assert (Hpos : 0 < x).
  { apply N.lt_le_trans with (2 ^ k); [|exact H].
    apply N.neq_0_lt_0, N.pow_nonzero. discriminate. }
  assert (Hl : 0 < N.lor a x).
  { apply N.neq_0_lt_0. intros H0. rewrite N.lor_comm in H0.
    apply N.lor_eq_0_l in H0. lia. }
  apply N.log2_le_pow2; [exact Hl|]. rewrite N.log2_lor.
  apply N.le_trans with (N.log2 x); [|apply N.le_max_r].
  apply N.log2_le_pow2; assumption.
Qed.

Lemma land_continuation (b : Byte.byte) :
  144 <= Byte.to_N b -> Byte.to_N b <= 191 -> 2 ^ 4 <= N.land (Byte.to_N b) 63.
Proof. destruct b; vm_compute; intros H1 H2; congruence. Qed.

(** A sequence under way never ends in ASCII code points only. *)
Lemma utf8Points_pending bs : forall cp n lower upper,
  upper <= 191 ->
  pendingNonAscii cp (S n) lower ->
  ~ Forall (fun c => c < 128) (utf8Points cp (S n) lower upper bs).
Proof.
  induction bs as [|b rest IH]; intros cp n lower upper Hu Hp Hall.
  - cbn in Hall. inversion Hall as [|? ? H _]; subst. vm_compute in H. discriminate.
  - cbn [utf8Points] in Hall.
    destruct ((lower <=? Byte.to_N b) && (Byte.to_N b <=? upper)) eqn:Hin.
    + apply andb_true_iff in Hin as [H1 H2]. apply N.leb_le in H1, H2.
      assert (Hnext : 2 ^ 4 <= N.lor (N.shiftl cp 6) (N.land (Byte.to_N b) 63)
                      /\ (2 <= cp -> 2 ^ 7 <= N.lor (N.shiftl cp 6) (N.land (Byte.to_N b) 63))).
      { split.
        - destruct n as [|n]; cbn in Hp.
          + apply N.le_trans with (2 ^ (1 + 6)); [vm_compute; discriminate|].
            apply lor_shiftl_lower. exact Hp.
          + destruct Hp as [Hp|Hp].
            * apply N.le_trans with (2 ^ (0 + 6)); [vm_compute; discriminate|].
              apply lor_shiftl_lower. exact Hp.
            * apply lor_lower_r, land_continuation; lia.
        - intros H. apply (lor_shiftl_lower cp _ 1). exact H. }
      destruct Hnext as [H16 H128]. destruct n as [|n].
      * inversion Hall as [|? ? H _]; subst. cbn in Hp. specialize (H128 Hp).
        change (2 ^ 7) with 128 in H128. lia.
      * refine (IH _ n 128 191 _ _ Hall); [lia|].
        change (2 ^ 4) with 16 in H16. destruct n; cbn; [lia|left; lia].
    + inversion Hall as [|? ? H _]; subst. vm_compute in H. discriminate.
Qed.

Lemma utf8Lead_pending (b : Byte.byte) cp n lower upper :
  utf8Lead_of (Byte.to_N b) = LeadMore cp n lower upper ->
  exists m, n = S m /\ upper <= 191 /\ pendingNonAscii cp n lower.
Proof.
  destruct b; vm_compute; intros H; inversion H; subst;
    (eexists; split; [reflexivity|]); split;
    try (intros Hc; discriminate Hc);
    first [ intros Hc; discriminate Hc
          | left; intros Hc; discriminate Hc
          | right; intros Hc; discriminate Hc ].
Qed.

Lemma utf8Lead_done (b : Byte.byte) c :
  utf8Lead_of (Byte.to_N b) = LeadDone c -> c < 128 -> c = Byte.to_N b.
Proof. destruct b; vm_compute; intros H; inversion H; subst; congruence. Qed.

(** Decoded code points that are all ASCII are the bytes themselves. *)
Lemma utf8Points_ascii bs :
  Forall (fun c => c < 128) (utf8Points 0 0 128 191 bs) ->
  utf8Points 0 0 128 191 bs = List.map Byte.to_N bs.
Proof.
  induction bs as [|b rest IH]; intros Hall; [reflexivity|].
  cbn [utf8Points] in *.
  destruct (utf8Lead_of (Byte.to_N b)) as [c|cp n lower upper] eqn:Hlead.
  - inversion Hall as [|? ? Hc Hrest]; subst.
    rewrite (utf8Lead_done b c Hlead Hc). simpl. f_equal. apply IH, Hrest.
  - destruct (utf8Lead_pending b cp n lower upper Hlead) as (m & -> & Hu & Hp).
    destruct (utf8Points_pending rest cp m lower upper Hu Hp Hall).
Qed.

Lemma utf16Units_ascii pts :
  Forall (fun c => c < 128) (flat_map utf16Units pts) ->
  flat_map utf16Units pts = pts.
Proof.
  induction pts as [|cp pts IH]; intros Hall; [reflexivity|].
  cbn [flat_map] in *. unfold utf16Units in *.
  destruct (N.ltb_spec cp 65536).
  - inversion Hall as [|? ? _ Hrest]; subst. simpl. f_equal. apply IH, Hrest.
  - inversion Hall as [|? ? Hc _]; subst. lia.
Qed.

Lemma to_N_inj (bs bs' : bytes) :
  List.map Byte.to_N bs = List.map Byte.to_N bs' -> bs = bs'.
Proof.
  revert bs'. induction bs as [|b bs IH]; intros [|b' bs'] H; try discriminate;
    [reflexivity|].
  simpl in H. inversion H as [[Hb Hbs]]. f_equal; [|apply IH, Hbs].
  apply (f_equal Byte.of_N) in Hb. rewrite !Byte.of_to_N in Hb. congruence.
Qed.

(** The bytes that decode to the signature are its twelve ASCII bytes:
    the test of [decompress] is a test of the first twelve bytes. *)
Lemma decode_signature (data : bytes) :
  decode (take 12 data) = SIGNATURE <-> take 12 data = signatureBytes.
Proof.
  split; [|intros ->; vm_compute; reflexivity].
  intros H. unfold decode in H.
  assert (Hascii : Forall (fun c => c < 128) SIGNATURE).
  { apply List.Forall_forall. intros c Hc. vm_compute in Hc.
    repeat (destruct Hc as [<- | Hc]; [reflexivity|]). destruct Hc. }
  pose proof Hascii as Hunits. rewrite <- H in Hunits.
  rewrite (utf16Units_ascii _ Hunits) in H.
  pose proof Hascii as Hpoints. rewrite <- H in Hpoints.
  rewrite (utf8Points_ascii _ Hpoints) in H.
  change SIGNATURE with (List.map Byte.to_N signatureBytes) in H.
  apply to_N_inj in H.
  assert (Hlen : (length (take 12 data) <= 12)%nat) by (rewrite length_take; lia).
  revert H Hlen. generalize (take 12 data). intros bs H Hlen. unfold stripBOM in H.
  destruct bs as [|x [|y [|z rest]]]; try exact H.
  destruct ((Byte.to_N x =? 239) && (Byte.to_N y =? 187) && (Byte.to_N z =? 191));
    [|exact H].
  subst rest. simpl in Hlen. lia.
Qed.

(** C3. When the first twelve bytes of [b] decode to the signature,
    [decompress] returns [b] without its first twelve bytes and hands
    nothing to [gunzipSync]. *)
Theorem decompress_signature (gunzip : bytes -> option bytes) (b : bytes) :
  decode (take 12 b) = SIGNATURE ->
  decompress gunzip b = ([], Return (drop 12 b)).
Proof.
  intros H. unfold decompress. destruct (decide _) as [_|Hn]; [reflexivity|].
  contradiction.
Qed.

Lemma decompress_signature_witness :
  decode (take 12 signedChunk) = SIGNATURE
  /\ decompress (fun _ => None) signedChunk = ([], Return (drop 12 signedChunk)).
Proof.
  split; [vm_compute; reflexivity|].
  apply (decompress_signature (fun _ => None) signedChunk).
  vm_compute. reflexivity.
Defined.

(** ** Filter parsing *)







Lemma splitGo_absent sep s : forall cur,
  includes s sep = false -> splitGo sep 0 cur s = [rev cur ++ s].
Proof.
  induction s as [|c rest IH]; intros cur H.
  - simpl. rewrite app_nil_r. reflexivity.
  - cbn [includes] in H. apply orb_false_iff in H as [H1 H2].
    cbn [splitGo]. rewrite H1, (IH (c :: cur) H2). simpl.
    rewrite <- app_assoc. reflexivity.
Qed.

Lemma split_absent s sep : includes s sep = false -> split s sep = [s].
Proof. intros H. unfold split. rewrite (splitGo_absent sep s [] H). reflexivity. Qed.

Lemma splitFilterBlock_colon filter values : forall pre,
  ~ In 58 filter ->
  Forall (fun c => isLineTerminator c = false) values ->
  splitFilterBlock pre (filter ++ 58 :: values) = (rev pre ++ filter, Some values).
Proof.
  induction filter as [|c filter IH]; intros pre Hf Hv; simpl.
  - replace (forallb (fun d => negb (isLineTerminator d)) values) with true.
    + rewrite app_nil_r. reflexivity.
    + symmetry. apply forallb_forall. intros d Hd.
      rewrite List.Forall_forall in Hv. rewrite (Hv d Hd). reflexivity.
  - destruct (c =? 58) eqn:Hc.
    + apply N.eqb_eq in Hc. subst c. exfalso. apply Hf. left. reflexivity.
    + simpl. rewrite IH; [|intros Hin; apply Hf; right; exact Hin|exact Hv].
      simpl. rewrite <- app_assoc. reflexivity.
Qed.

Lemma recordCount_other output filter value n f :
  f <> filter ->
  ownFilters (recordCount output filter value n) !! f = ownFilters output !! f.
Proof.
  intros Hne. unfold recordCount.
  destruct (bool_decide (value = PROTO)); [reflexivity|].
  destruct (bool_decide (filter = PROTO)); [reflexivity|].
  apply lookup_alter_ne. congruence.
Qed.

Lemma recordCount_own output filter value n :
  filter <> PROTO ->
  ownFilters (recordCount output filter value n) !! filter
  = (fun counts => if bool_decide (value = PROTO) then counts
                   else <[value := n]> counts) <$> ownFilters output !! filter.
Proof.
  intros Hf. unfold recordCount. destruct (bool_decide (value = PROTO)).
  - destruct (ownFilters output !! filter); reflexivity.
  - rewrite bool_decide_eq_false_2 by exact Hf. cbn [ownFilters]. apply lookup_alter_eq.
Qed.

Lemma recordCount_prototype output filter value n :
  prototype (recordCount output filter value n)
  = if bool_decide (filter = PROTO)
    then (fun counts => if bool_decide (value = PROTO) then counts
                        else <[value := n]> counts) <$> prototype output
    else prototype output.
Proof.
  unfold recordCount. destruct (bool_decide (value = PROTO)).
  - destruct (bool_decide (filter = PROTO)); [|reflexivity].
    destruct (prototype output); reflexivity.
  - destruct (bool_decide (filter = PROTO)); reflexivity.
Qed.

Lemma matchValueCount_nil_entry entry :
  nonEmpty entry = false -> matchValueCount [] entry = None.
Proof. destruct entry; [reflexivity|discriminate]. Qed.

Lemma parseValueBlock_own filter output entry :
  filter <> PROTO ->
  ownFilters (parseValueBlock filter output entry) !! filter
  = (fun counts => addEntry counts entry) <$> ownFilters output !! filter.
Proof.
  intros Hf. unfold parseValueBlock, addEntry. destruct (nonEmpty entry) eqn:He.
  - destruct (matchValueCount [] entry) as [[v digits]|].
    + apply recordCount_own, Hf.
    + destruct (ownFilters output !! filter); reflexivity.
  - rewrite (matchValueCount_nil_entry entry He).
    destruct (ownFilters output !! filter); reflexivity.
Qed.

Lemma parseValueBlock_prototype filter output entry :
  prototype (parseValueBlock filter output entry)
  = if bool_decide (filter = PROTO)
    then (fun counts => addEntry counts entry) <$> prototype output
    else prototype output.
Proof.
  unfold parseValueBlock, addEntry. destruct (nonEmpty entry) eqn:He.
  - destruct (matchValueCount [] entry) as [[v digits]|].
    + apply recordCount_prototype.
    + destruct (bool_decide (filter = PROTO)); [|reflexivity].
      destruct (prototype output); reflexivity.
  - rewrite (matchValueCount_nil_entry entry He).
    destruct (bool_decide (filter = PROTO)); [|reflexivity].
    destruct (prototype output); reflexivity.
Qed.

(** What the value entries of a block do to the filters: the entries add
    to the counts of the filter of the block, one after the other, and touch
    nothing else. *)
Lemma parseValueBlocks_own filter entries : forall output,
  filter <> PROTO ->
  ownFilters (fold_left (parseValueBlock filter) entries output) !! filter
  = (fun counts => fold_left addEntry entries counts) <$> ownFilters output !! filter.
Proof.
  induction entries as [|e es IH]; intros output Hf.
  - cbn [fold_left]. destruct (ownFilters output !! filter); reflexivity.
  - cbn [fold_left]. rewrite IH, parseValueBlock_own by exact Hf.
    destruct (ownFilters output !! filter); reflexivity.
Qed.

Lemma parseValueBlocks_other filter f entries : forall output,
  f <> filter ->
  ownFilters (fold_left (parseValueBlock filter) entries output) !! f
  = ownFilters output !! f.
Proof.
  induction entries as [|e es IH]; intros output Hne; [reflexivity|].
  cbn [fold_left]. rewrite IH by exact Hne. unfold parseValueBlock.
  destruct (nonEmpty e); [|reflexivity].
  destruct (matchValueCount [] e) as [[v digits]|]; [|reflexivity].
  apply recordCount_other, Hne.
Qed.

Lemma parseValueBlocks_proto_own entries : forall output f,
  ownFilters (fold_left (parseValueBlock PROTO) entries output) !! f
  = ownFilters output !! f.
Proof.
  induction entries as [|e es IH]; intros output f; [reflexivity|].
  cbn [fold_left]. rewrite IH. unfold parseValueBlock.
  destruct (nonEmpty e); [|reflexivity].
  destruct (matchValueCount [] e) as [[v digits]|]; [|reflexivity].
  unfold recordCount. destruct (bool_decide (v = PROTO)); [reflexivity|].
  rewrite bool_decide_eq_true_2 by reflexivity. reflexivity.
Qed.

Lemma parseValueBlocks_prototype filter entries : forall output,
  prototype (fold_left (parseValueBlock filter) entries output)
  = if bool_decide (filter = PROTO)
    then (fun counts => fold_left addEntry entries counts) <$> prototype output
    else prototype output.
Proof.
  induction entries as [|e es IH]; intros output.
  - cbn [fold_left]. destruct (bool_decide (filter = PROTO)); [|reflexivity].
    destruct (prototype output); reflexivity.
  - cbn [fold_left]. rewrite IH, parseValueBlock_prototype.
    destruct (bool_decide (filter = PROTO)); [|reflexivity].
    destruct (prototype output); reflexivity.
Qed.

(** One block of the filter string: the own property of its filter is made
    anew from its value entries, the other own properties stay, and the key
    [__proto__] makes no own property. *)
Lemma parseFilterBlock_own output block f :
  ownFilters (parseFilterBlock output block) !! f
  = if bool_decide (filterName block = f) && negb (bool_decide (f = PROTO))
    then Some (fold_left addEntry (valueEntries block) ∅)
    else ownFilters output !! f.
Proof.
  unfold parseFilterBlock, filterName, valueEntries.
  destruct (splitFilterBlock [] block) as [filter values]. cbn [fst snd].
  unfold resetFilter.
  destruct (bool_decide_reflect (filter = PROTO)) as [->|Hproto].
  - assert (Hcond : bool_decide (PROTO = f) && negb (bool_decide (f = PROTO)) = false).
    { destruct (bool_decide_reflect (f = PROTO)) as [->|Hne]; [apply andb_false_r|].
      rewrite bool_decide_eq_false_2 by congruence. reflexivity. }
    rewrite Hcond. destruct values as [values|]; [|reflexivity].
    destruct (nonEmpty values); [|reflexivity].
    rewrite parseValueBlocks_proto_own. reflexivity.
  - destruct (bool_decide_reflect (filter = f)) as [<-|Hne].
    + rewrite (bool_decide_eq_false_2 (filter = PROTO)) by exact Hproto. cbn [negb andb].
      destruct values as [values|]; [|cbn [ownFilters fold_left]; apply lookup_insert_eq].
      destruct (nonEmpty values); [|cbn [ownFilters fold_left]; apply lookup_insert_eq].
      rewrite parseValueBlocks_own by exact Hproto. cbn [ownFilters].
      rewrite lookup_insert_eq. reflexivity.
    + cbn [andb].
      assert (Hins : <[filter := ∅]> (ownFilters output) !! f = ownFilters output !! f)
        by (apply lookup_insert_ne; exact Hne).
      destruct values as [values|]; [|exact Hins].
      destruct (nonEmpty values); [|exact Hins].
      rewrite parseValueBlocks_other by congruence. exact Hins.
Qed.

Lemma parseFilterBlock_prototype output block :
  prototype (parseFilterBlock output block)
  = if bool_decide (filterName block = PROTO)
    then Some (fold_left addEntry (valueEntries block) ∅)
    else prototype output.
Proof.
  unfold parseFilterBlock, filterName, valueEntries.
  destruct (splitFilterBlock [] block) as [filter values]. cbn [fst snd].
  unfold resetFilter.
  destruct (bool_decide_reflect (filter = PROTO)) as [->|Hproto].
  - destruct values as [values|]; [|reflexivity].
    destruct (nonEmpty values); [|reflexivity].
    rewrite parseValueBlocks_prototype, bool_decide_eq_true_2 by reflexivity.
    reflexivity.
  - destruct values as [values|]; [|reflexivity].
    destruct (nonEmpty values); [|reflexivity].
    rewrite parseValueBlocks_prototype, bool_decide_eq_false_2 by exact Hproto.
    reflexivity.
Qed.

Lemma last_filter_cons {A} (p : A -> bool) (b : A) (bs : list A) :
  last (List.filter p (b :: bs))
  = match last (List.filter p bs) with
    | Some x => Some x
    | None => if p b then Some b else None
    end.
Proof.
  cbn [List.filter]. destruct (p b); [|destruct (last (List.filter p bs)); reflexivity].
  destruct (List.filter p bs) as [|x xs]; [reflexivity|].
  change (last (b :: x :: xs)) with (last (x :: xs)).
  destruct (last (x :: xs)) eqn:Hl; [reflexivity|].
  apply last_None in Hl. discriminate.
Qed.

Lemma parseFilterBlocks_own f blocks : forall output,
  f <> PROTO ->
  ownFilters (fold_left parseFilterBlock blocks output) !! f
  = match last (List.filter (fun b => bool_decide (filterName b = f)) blocks) with
    | Some b => Some (fold_left addEntry (valueEntries b) ∅)
    | None => ownFilters output !! f
    end.
Proof.
  induction blocks as [|b bs IH]; intros output Hf; [reflexivity|].
  cbn [fold_left]. rewrite IH by exact Hf. rewrite last_filter_cons.
  destruct (last (List.filter (fun b => bool_decide (filterName b = f)) bs));
    [reflexivity|].
  rewrite parseFilterBlock_own, (bool_decide_eq_false_2 (f = PROTO)) by exact Hf.
  rewrite andb_true_r. destruct (bool_decide (filterName b = f)); reflexivity.
Qed.

Lemma parseFilterBlocks_proto_own blocks : forall output,
  ownFilters (fold_left parseFilterBlock blocks output) !! PROTO
  = ownFilters output !! PROTO.
Proof.
  induction blocks as [|b bs IH]; intros output; [reflexivity|].
  cbn [fold_left]. rewrite IH, parseFilterBlock_own.
  rewrite (bool_decide_eq_true_2 (PROTO = PROTO)) by reflexivity.
  rewrite andb_false_r. reflexivity.
Qed.

Lemma parseFilterBlocks_prototype blocks : forall output,
  prototype (fold_left parseFilterBlock blocks output)
  = match last (List.filter (fun b => bool_decide (filterName b = PROTO)) blocks) with
    | Some b => Some (fold_left addEntry (valueEntries b) ∅)
    | None => prototype output
    end.
Proof.
  induction blocks as [|b bs IH]; intros output; [reflexivity|].
  cbn [fold_left]. rewrite IH. rewrite last_filter_cons.
  destruct (last (List.filter (fun b => bool_decide (filterName b = PROTO)) bs));
    [reflexivity|].
  rewrite parseFilterBlock_prototype.
  destruct (bool_decide (filterName b = PROTO)); reflexivity.
Qed.



(** The integer that digits write, read digit after digit: a digit more
    at the end makes ten times the integer so far, plus the digit. *)
Lemma decimalValue_snoc ds d :
  decimalValue (ds ++ [d]) = (10 * decimalValue ds + (Z.of_N d - 48))%Z.
Proof.
  induction ds as [|c ds IH]; [cbn [app decimalValue length]; lia|].
  cbn [app decimalValue]. rewrite IH, length_app. cbn [length].
  rewrite Nat.add_1_r, Nat2Z.inj_succ, Z.pow_succ_r by lia. lia.
Qed.





(** The example of the specification, two filters and three values; the
    filters of the examples, where the second entry of [x:y] stands and its
    count is rounded; and a value and a filter named [__proto__], of which
    no entry is kept. *)
Example parseFilters_example :
  parseFilters
    (Some (lit "a:x:3__PF_VALUE_DELIM__y:5__PF_FILTER_DELIM__b:z:1"))
  = {| ownFilters := {[ lit "a" := {[ lit "x" := 3%float; lit "y" := 5%float ]};
                        lit "b" := {[ lit "z" := 1%float ]} ]};
       prototype := None |}
  /\ parseFilters (Some sampleFilters)
     = {| ownFilters := {[ lit "a" := {[ lit "x:y" := 9007199254740992%float ]};
                           lit "b" := {[ lit "z" := 1%float ]} ]};
          prototype := None |}
  /\ parseFilters (Some (lit "a:__proto__:5"))
     = {| ownFilters := {[ lit "a" := ∅ ]}; prototype := None |}
  /\ parseFilters (Some (lit "__proto__:x:1"))
     = {| ownFilters := ∅; prototype := Some {[ lit "x" := 1%float ]} |}.
Proof. repeat split; vm_compute; reflexivity. Qed.

(** ** Arrays *)

Lemma arrayGet_Some {A} (arr : list (option A)) i x :
  arrayGet arr i = Some x <->
  (0 <= i)%Z /\ arr !! Z.to_nat i = Some (Some x).
Proof.
  unfold arrayGet. destruct (Z.ltb_spec i 0).
  - split; [discriminate|]. intros [? _]. lia.
  - split.
    + intros Hx. split; [assumption|].
      destruct (arr !! Z.to_nat i) as [[y|]|]; simpl in Hx; congruence.
    + intros [_ ->]. reflexivity.
Qed.


Lemma arraySet_same {A} (arr : list (option A)) i v :
  (0 <= i)%Z -> arrayGet (arraySet arr i v) i = Some v.
Proof.
  intros Hi. apply arrayGet_Some. split; [assumption|].
  unfold arraySet. destruct (Z.ltb_spec i 0); [lia|].
  destruct (Nat.ltb_spec (Z.to_nat i) (length arr)).
  - apply list_lookup_insert_eq. assumption.
  - rewrite lookup_app_r by lia.
    rewrite lookup_app_r by (rewrite length_replicate; lia).
    rewrite length_replicate.
    replace (Z.to_nat i - length arr - (Z.to_nat i - length arr))%nat with 0%nat by lia.
    reflexivity.
Qed.

Lemma arraySet_other {A} (arr : list (option A)) i j v :
  i <> j -> arrayGet (arraySet arr i v) j = arrayGet arr j.
Proof.
  intros Hij. unfold arrayGet, arraySet.
  destruct (Z.ltb_spec j 0); [reflexivity|].
  destruct (Z.ltb_spec i 0); [reflexivity|].
  assert (Hn : Z.to_nat i <> Z.to_nat j) by lia.
  destruct (Nat.ltb_spec (Z.to_nat i) (length arr)).
  - rewrite list_lookup_insert_ne by assumption. reflexivity.
  - destruct (Nat.lt_ge_cases (Z.to_nat j) (length arr)) as [Hj|Hj].
    + rewrite lookup_app_l by assumption. reflexivity.
    + rewrite lookup_app_r by assumption.
      rewrite (lookup_ge_None_2 arr) by assumption.
      destruct (Nat.lt_ge_cases (Z.to_nat j - length arr) (Z.to_nat i - length arr)) as [Hk|Hk].
      * rewrite lookup_app_l by (rewrite length_replicate; assumption).
        rewrite lookup_replicate_2 by assumption. reflexivity.
      * rewrite lookup_app_r by (rewrite length_replicate; assumption).
        rewrite length_replicate.
        rewrite lookup_ge_None_2 by (simpl; lia). reflexivity.
Qed.

(** ** Excerpts *)

















(** C4, on the code.  With one match at the word offset 3 and a window of
    one word, the only window that holds the match starts at 3, and
    [calculateExcerptRegion] answers 2: the loop records the index [i]
    for the sum of the window that starts at [i + 1], while the window of
    the start is recorded at its own offset 0.  The excerpt cut at the
    answer is the word before the match.  With a window of two words and a
    match at 5 the windows of the largest sum start at 4 and 5 and the
    answer is 4, the first of them and not the one at the middle index.
    With the window of thirty words and a match at 50, the windows of the
    largest sum start at 21 to 50, the one at the middle index starts at 36
    and the answer is 35. *)
Theorem calculateExcerptRegion_one_before :
  (calculateExcerptRegion [matchAt 3] 1 = 2%Z
   /\ windowStartsWithSum (sumScores [matchAt 3]) 1 1 = [3%Z]
   /\ windowSum (sumScores [matchAt 3]) 2 1 = 0%float
   /\ densestAt (slide (sumScores [matchAt 3]) 1) = [2%Z]
   /\ buildExcerpt (lit "a b c d e") 2 1 [3%Z] None None = lit "c")
  /\ (calculateExcerptRegion [matchAt 5] 2 = 4%Z
      /\ windowStartsWithSum (sumScores [matchAt 5]) 2 1 = [4%Z; 5%Z]
      /\ densestAt (slide (sumScores [matchAt 5]) 2) = [3%Z; 4%Z])
  /\ (calculateExcerptRegion [matchAt 50] 30 = 35%Z
      /\ windowStartsWithSum (sumScores [matchAt 50]) 30 1
         = Z.of_nat <$> seq 21 30
      /\ (Z.of_nat <$> seq 21 30) !! (30 / 2)%nat = Some 36%Z).
Proof. vm_compute. repeat split. Qed.

(** ** Sub-results *)

Lemma pushAll_fields s ws :
  title (pushAll s ws) = title s
  /\ url (pushAll s ws) = url s
  /\ anchor (pushAll s ws) = anchor s
  /\ weighted_locations (pushAll s ws) = weighted_locations s ++ ws
  /\ locations (pushAll s ws) = locations s ++ (location <$> ws)
  /\ excerpt (pushAll s ws) = excerpt s.
Proof.
  revert s. induction ws as [|w ws IH]; intros s; simpl.
  - rewrite !app_nil_r. repeat split.
  - destruct (IH (pushLocation s w)) as (H1 & H2 & H3 & H4 & H5 & H6).
    unfold pushAll in *. simpl in *.
    rewrite H1, H2, H3, H4, H5, H6, <- !app_assoc. repeat split.
Qed.

Section SubResultsFacts.

Variable urlWithHash : jsstring -> jsstring -> option jsstring.
Variable fragment : PagefindFragment.
Variable desiredExcerptLength : Z.

Lemma segmentLoop_app ws1 : forall st ws2,
  segmentLoop urlWithHash fragment desiredExcerptLength st (ws1 ++ ws2)
  = (st' ← segmentLoop urlWithHash fragment desiredExcerptLength st ws1;
     segmentLoop urlWithHash fragment desiredExcerptLength st' ws2).
Proof.
  induction ws1 as [|w ws1 IH]; intros st ws2; simpl; [reflexivity|].
  destruct (segmentStep urlWithHash fragment desiredExcerptLength st w) as [st'|e]; simpl;
    [apply IH|reflexivity].
Qed.

(** While the matches stay before the next anchor, or no anchor is left,
    the loop only pushes them to the current section. *)
Lemma segmentLoop_pushes ws : forall st,
  match anchorsLeft st with
  | [] => True
  | first :: _ => Forall (fun w => (location w < anchor_location first)%Z) ws
  end ->
  segmentLoop urlWithHash fragment desiredExcerptLength st ws
  = Return {| anchorsLeft := anchorsLeft st;
              results := results st;
              currentAnchorPosition := currentAnchorPosition st;
              currentAnchor := pushAll (currentAnchor st) ws |}.
Proof.
  induction ws as [|w ws IH]; intros st H.
  - destruct st; reflexivity.
  - cbn [segmentLoop]. unfold segmentStep.
    destruct (anchorsLeft st) as [|first rest] eqn:Ha.
    + cbn. rewrite IH by (cbn; exact I). cbn. reflexivity.
    + inversion H as [|? ? Hw Hws]; subst.
      apply Z.ltb_lt in Hw. rewrite Hw. cbn.
      rewrite IH by (cbn; exact Hws). cbn. reflexivity.
Qed.

Lemma addResult_nonEmpty st endRange :
  Forall (fun s => locations s <> []) (results st) ->
  Forall (fun s => locations s <> [])
         (addResult fragment desiredExcerptLength st endRange).
Proof.
  intros H. unfold addResult.
  destruct (bool_decide_reflect (locations (currentAnchor st) <> [])) as [Hn|_]; [|exact H].
  apply Forall_app. split; [exact H|]. constructor; [exact Hn|constructor].
Qed.

Lemma segmentStep_nonEmpty st word st' :
  Forall (fun s => locations s <> []) (results st) ->
  segmentStep urlWithHash fragment desiredExcerptLength st word = Return st' ->
  Forall (fun s => locations s <> []) (results st').
Proof.
  intros H Hs. unfold segmentStep in Hs.
  destruct (anchorsLeft st) as [|first rest].
  - inversion Hs; subst. exact H.
  - destruct (location word <? anchor_location first)%Z.
    + inversion Hs; subst. exact H.
    + destruct (skipAnchors (location word) first rest) as [nextAnchor remaining].
      destruct (anchoredUrl urlWithHash fragment (anchor_id nextAnchor)) as [u|e];
        [|discriminate].
      cbn in Hs. inversion Hs; subst. cbn. apply addResult_nonEmpty, H.
Qed.

Lemma segmentLoop_nonEmpty ws : forall st st',
  Forall (fun s => locations s <> []) (results st) ->
  segmentLoop urlWithHash fragment desiredExcerptLength st ws = Return st' ->
  Forall (fun s => locations s <> []) (results st').
Proof.
  induction ws as [|w ws IH]; intros st st' H Hl; cbn in Hl.
  - inversion Hl; subst. exact H.
  - destruct (segmentStep urlWithHash fragment desiredExcerptLength st w) as [st1|e] eqn:Hs;
      [|discriminate].
    cbn in Hl. apply (IH st1 st'); [|exact Hl].
    exact (segmentStep_nonEmpty st w st1 H Hs).
Qed.

(** No section without a match is emitted, the preamble included. *)
Lemma calculateSubResults_nonEmpty found :
  calculateSubResults urlWithHash fragment desiredExcerptLength = Return found ->
  Forall (fun s => locations s <> []) found.
Proof.
  unfold calculateSubResults. intros H.
  match type of H with
  | context [segmentLoop _ _ _ ?st ?ws] =>
      destruct (segmentLoop urlWithHash fragment desiredExcerptLength st ws) as [st'|e] eqn:Hl
  end; [|discriminate].
  cbn in H. inversion H; subst. apply addResult_nonEmpty.
  refine (segmentLoop_nonEmpty _ _ st' _ Hl). constructor.
Qed.

End SubResultsFacts.

Lemma pushAll_locations_nonEmpty s ws :
  ws <> [] -> locations (pushAll s ws) <> [].
Proof.
  intros Hn. destruct (pushAll_fields s ws) as (_ & _ & _ & _ & -> & _).
  destruct ws; [contradiction|]. destruct (locations s); discriminate.
Qed.

(** C7, as the code has it.  With two heading anchors and matches before
    the first, between the two and from the second on, listed in this
    order, and the urls of the two sections built, the segmenter gives
    three sections: the preamble with the matches before the first anchor,
    the section of the first anchor with the matches between the two, the
    section of the second anchor with the matches from it on.  And whatever
    the fragment, no section without a match is among the sections given,
    the preamble included. *)
Theorem calculateSubResults_sections
    (urlWithHash : jsstring -> jsstring -> option jsstring)
    (fragment : PagefindFragment) (desiredExcerptLength : Z) :
  (forall a1 a2 before between after u1 u2,
      headingAnchors fragment = [a1; a2] ->
      fragment_weighted_locations fragment = before ++ between ++ after ->
      before <> [] -> between <> [] -> after <> [] ->
      Forall (fun w => (location w < anchor_location a1)%Z) before ->
      Forall (fun w => (anchor_location a1 <= location w < anchor_location a2)%Z)
             between ->
      Forall (fun w => (anchor_location a2 <= location w)%Z) after ->
      anchoredUrl urlWithHash fragment (anchor_id a1) = Return u1 ->
      anchoredUrl urlWithHash fragment (anchor_id a2) = Return u2 ->
      exists s0 s1 s2,
        calculateSubResults urlWithHash fragment desiredExcerptLength
        = Return [s0; s1; s2]
        /\ (anchor s0 = None /\ title s0 = meta fragment !! lit "title"
            /\ url s0 = fragment_url fragment
            /\ weighted_locations s0 = before
            /\ locations s0 = location <$> before)
        /\ (anchor s1 = Some a1 /\ title s1 = Some (text a1) /\ url s1 = u1
            /\ weighted_locations s1 = between
            /\ locations s1 = location <$> between)
        /\ (anchor s2 = Some a2 /\ title s2 = Some (text a2) /\ url s2 = u2
            /\ weighted_locations s2 = after
            /\ locations s2 = location <$> after))
  /\ (forall found,
        calculateSubResults urlWithHash fragment desiredExcerptLength = Return found ->
        Forall (fun s => locations s <> []) found).
Proof.
  split; [|apply calculateSubResults_nonEmpty].
  intros a1 a2 before between after u1 u2 Ha Hw Hb Hm Hx Fb Fm Fx Hu1 Hu2.
  unfold calculateSubResults. rewrite Ha, Hw.
  rewrite segmentLoop_app, segmentLoop_pushes by (cbn; exact Fb). cbn [mbind outcome_bind].
  rewrite segmentLoop_app.
  destruct between as [|m ms]; [contradiction|].
  inversion Fm as [|? ? Hm1 Fms]; subst.
  cbn [segmentLoop]. unfold segmentStep at 1. cbn [anchorsLeft].
  replace (location m <? anchor_location a1)%Z with false by (symmetry; apply Z.ltb_ge; lia).
  cbn [skipAnchors].
  replace (anchor_location a2 <=? location m)%Z with false by (symmetry; apply Z.leb_gt; lia).
  rewrite Hu1. cbn [mbind outcome_bind mret outcome_ret].
  rewrite segmentLoop_pushes
    by (cbn; eapply Forall_impl; [exact Fms|]; cbn; intros; lia).
  cbn [mbind outcome_bind anchorsLeft results currentAnchorPosition currentAnchor].
  destruct after as [|x xs]; [contradiction|].
  inversion Fx as [|? ? Hx1 Fxs]; subst.
  cbn [segmentLoop]. unfold segmentStep at 1. cbn [anchorsLeft].
  replace (location x <? anchor_location a2)%Z with false by (symmetry; apply Z.ltb_ge; lia).
  cbn [skipAnchors]. rewrite Hu2. cbn [mbind outcome_bind mret outcome_ret].
  rewrite segmentLoop_pushes by (cbn; exact I).
  cbn [mbind outcome_bind anchorsLeft results currentAnchorPosition currentAnchor head fmap option_fmap option_map].
  unfold addResult.
  cbn [anchorsLeft results currentAnchorPosition currentAnchor].
  rewrite !bool_decide_eq_true_2;
    [|apply (pushAll_locations_nonEmpty _ before Hb)
     |destruct (pushAll_fields
                  {| title := Some (text a1); url := u1; anchor := Some a1;
                     weighted_locations := [m]; locations := [location m];
                     excerpt := [] |} ms) as (_ & _ & _ & _ & -> & _); discriminate
     |destruct (pushAll_fields
                  {| title := Some (text a2); url := u2; anchor := Some a2;
                     weighted_locations := [x]; locations := [location x];
                     excerpt := [] |} xs) as (_ & _ & _ & _ & -> & _); discriminate].
  cbn [app].
  eexists _, _, _. split; [reflexivity|].
  unfold withExcerpt. cbn [title url anchor weighted_locations locations excerpt].
  repeat match goal with
         | |- context [pushAll ?s ?ws] =>
             let H := fresh in
             pose proof (pushAll_fields s ws) as H;
             destruct H as (-> & -> & -> & -> & -> & _)
         end.
  cbn. repeat split.
Qed.

Lemma calculateSubResults_sections_witness :
  exists s0 s1 s2,
    calculateSubResults appendHash samplePage 3 = Return [s0; s1; s2]
    /\ (anchor s0 = None /\ title s0 = meta samplePage !! lit "title"
        /\ url s0 = fragment_url samplePage
        /\ weighted_locations s0 = [matchAt 0; matchAt 1]
        /\ locations s0 = location <$> [matchAt 0; matchAt 1])
    /\ (anchor s1 = Some headingOne /\ title s1 = Some (text headingOne)
        /\ url s1 = lit "/docs/#one"
        /\ weighted_locations s1 = [matchAt 3]
        /\ locations s1 = location <$> [matchAt 3])
    /\ (anchor s2 = Some headingTwo /\ title s2 = Some (text headingTwo)
        /\ url s2 = lit "/docs/#two"
        /\ weighted_locations s2 = [matchAt 7; matchAt 9]
        /\ locations s2 = location <$> [matchAt 7; matchAt 9]).
Proof.
  apply (proj1 (calculateSubResults_sections appendHash samplePage 3)
               headingOne headingTwo
               [matchAt 0; matchAt 1] [matchAt 3] [matchAt 7; matchAt 9]
               (lit "/docs/#one") (lit "/docs/#two")).
  - vm_compute. reflexivity.
  - reflexivity.
  - discriminate.
  - discriminate.
  - discriminate.
  - repeat constructor.
  - repeat constructor; vm_compute; congruence.
  - repeat constructor; vm_compute; congruence.
  - vm_compute. reflexivity.
  - vm_compute. reflexivity.
Defined.

(** C7, as stated, fails.  On a page with two heading anchors, at the
    offsets 2 and 6, and matches at the offsets 7, 0 and 3 listed in this
    order, there is a match before the first anchor, one between the two
    and one after the second, and the segmenter gives one section, that of
    the second anchor, with the three matches.  And on the page of the
    sample under the url [//cdn.example.org/docs/], with a url builder
    that takes no url without a scheme, the segmenter throws. *)
Lemma calculateSubResults_unordered :
  headingAnchors shuffledPage = [headingOne; headingTwo]
  /\ location <$> fragment_weighted_locations shuffledPage = [7; 0; 3]%Z
  /\ (exists s,
        calculateSubResults appendHash shuffledPage 3 = Return [s]
        /\ anchor s = Some headingTwo
        /\ locations s = [7; 0; 3]%Z)
  /\ headingAnchors cdnPage = [headingOne; headingTwo]
  /\ location <$> fragment_weighted_locations cdnPage = [0; 1; 3; 7; 9]%Z
  /\ calculateSubResults schemeUrlWithHash cdnPage 3 = Throw TypeError.
Proof.
  split; [vm_compute; reflexivity|]. split; [reflexivity|].
  split; [eexists; split; [vm_compute; reflexivity|split; reflexivity]|].
  split; [vm_compute; reflexivity|]. split; vm_compute; reflexivity.
Qed.

(** A list of matches in the order of their offsets is made of the
    matches before an offset followed by the matches from it on. *)
Lemma sorted_split (p : Z) (ws : list WeightedLocation) :
  StronglySorted (fun a b => (location a <= location b)%Z) ws ->
  ws = List.filter (fun w => (location w <? p)%Z) ws
       ++ List.filter (fun w => (p <=? location w)%Z) ws.
Proof.
  induction 1 as [|w ws Hs IH Hall]; [reflexivity|]. simpl.
  destruct (Z.ltb_spec (location w) p) as [Hlt|Hge].
  - replace (p <=? location w)%Z with false by (symmetry; apply Z.leb_gt; lia).
    simpl. f_equal. exact IH.
  - replace (p <=? location w)%Z with true by (symmetry; apply Z.leb_le; lia).
    assert (Hnone : List.filter (fun w => (location w <? p)%Z) ws = []).
    { clear IH Hs. induction Hall as [|x xs Hx Hxs IHx]; [reflexivity|]. simpl.
      replace (location x <? p)%Z with false by (symmetry; apply Z.ltb_ge; lia).
      exact IHx. }
    assert (Hall' : List.filter (fun w => (p <=? location w)%Z) ws = ws).
    { clear IH Hs Hnone. induction Hall as [|x xs Hx Hxs IHx]; [reflexivity|]. simpl.
      replace (p <=? location x)%Z with true by (symmetry; apply Z.leb_le; lia).
      f_equal. exact IHx. }
    rewrite Hnone, Hall'. reflexivity.
Qed.

(** ** The search *)

(** C2. On an initialized client, a query whose normalization is empty
    gets the empty response: no result, the count zero, both filter maps
    empty, the three timings zero; and the search has called the engine for
    nothing and fetched nothing. *)
Theorem search_empty_query {E} (engine : Engine E) (rt : Runtime)
    (term : jsstring) (options : searchOptions) (w : World E) :
  wasm (client w) = true ->
  rawPtr (client w) <> None ->
  normalize (caseData rt) term = [] ->
  exists w',
    search engine rt term options w
    = (Returned {| response_results := [];
                   unfilteredResultCount := 0%float;
                   response_filters := ∅;
                   totalFilters := ∅;
                   response_timings :=
                     {| preload := 0; search_time := 0; total := 0 |} |}, w')
    /\ engineCalls w' = engineCalls w
    /\ engineState w' = engineState w
    /\ fetched w' = fetched w
    /\ promises w' = promises w
    /\ client w' = client w.
Proof.
  intros Hwasm Hptr Hq. unfold search. rewrite Hwasm.
  rewrite bool_decide_eq_false_2 by exact Hptr. cbn [negb orb now].
  rewrite Hq. rewrite bool_decide_eq_true_2 by reflexivity.
  eexists. split; [reflexivity|]. unfold log.
  destruct (verbose options); cbn; repeat split.
Qed.

Lemma search_empty_query_witness :
  exists w',
    search sampleEngine sampleRuntime (lit " ?! ") noOptions sampleWorld
    = (Returned {| response_results := [];
                   unfilteredResultCount := 0%float;
                   response_filters := ∅;
                   totalFilters := ∅;
                   response_timings :=
                     {| preload := 0; search_time := 0; total := 0 |} |}, w')
    /\ engineCalls w' = engineCalls sampleWorld
    /\ engineState w' = engineState sampleWorld
    /\ fetched w' = fetched sampleWorld
    /\ promises w' = promises sampleWorld
    /\ client w' = client sampleWorld.
Proof.
  apply (search_empty_query sampleEngine sampleRuntime (lit " ?! ") noOptions sampleWorld).
  - reflexivity.
  - discriminate.
  - vm_compute. reflexivity.
Defined.





Lemma startsWith_prefix p s : startsWith (p ++ s) p = true.
Proof.
  induction p as [|c p IH]; [destruct s; reflexivity|].
  simpl. rewrite N.eqb_refl. exact IH.
Qed.

Lemma untilColon_complete r after : forall pre,
  forallb (fun x => negb (x =? 58)) r = true ->
  untilColon pre (r ++ 58 :: after) = Some (rev pre ++ r, after).
Proof.
  induction r as [|x r IH]; intros pre H; cbn.
  - rewrite app_nil_r. reflexivity.
  - cbn in H. apply andb_true_iff in H as [Hx Hr].
    apply negb_true_iff in Hx. rewrite Hx, IH by exact Hr.
    cbn. rewrite <- app_assoc. reflexivity.
Qed.













(** ** The chunk store *)

Lemma chunkUrl_inj base k h k' h' :
  chunkUrl base k h = chunkUrl base k' h' -> k = k' /\ h = h'.
Proof.
  unfold chunkUrl. intros H.
  destruct k, k'; apply app_inv_head in H.
  - apply app_inv_head in H. apply app_inv_tail in H. auto.
  - discriminate.
  - discriminate.
  - apply app_inv_head in H. apply app_inv_tail in H. auto.
Qed.

Lemma filter_length_snoc {A} (f : A -> bool) (l : list A) (x : A) :
  length (List.filter f (l ++ [x]))
  = (length (List.filter f l) + if f x then 1 else 0)%nat.
Proof.
  rewrite List.filter_app, length_app. simpl. destruct (f x); reflexivity.
Qed.

(** What does not touch the maps, the promises, the fetched urls or the
    load calls keeps the invariant. *)
Lemma invariant_frame {E} (w w' : World E) :
  basePath (client w') = basePath (client w) ->
  loadedChunks (client w') = loadedChunks (client w) ->
  loadedFilters (client w') = loadedFilters (client w) ->
  promises w' = promises w ->
  fetched w' = fetched w ->
  (forall k h, loadCount k h w' = loadCount k h w) ->
  chunkStoreInvariant w -> chunkStoreInvariant w'.
Proof.
  intros Hb Hc Hf Hp Hu Hl [I1 I2 I3 I4].
  assert (Hm : forall k, loadedOf k (client w') = loadedOf k (client w))
    by (intros []; assumption).
  split.
  - intros k h p. rewrite Hm, Hp. apply I1.
  - intros p pr. rewrite Hm, Hp. apply I2.
  - intros k h. unfold fetchCount. rewrite Hb, Hu, Hm. apply I3.
  - intros k h. rewrite Hl. unfold storedState. rewrite Hm, Hp. apply I4.
Qed.

Lemma fresh_invariant {E} (w : World E) : fresh w -> chunkStoreInvariant w.
Proof.
  intros [Hc Hf Hp Hu Hl].
  assert (Hm : forall k h, loadedOf k (client w) !! h = None).
  { intros [] h; simpl; [rewrite Hc|rewrite Hf]; apply lookup_empty. }
  split.
  - intros k h p. rewrite Hm. discriminate.
  - intros p pr. rewrite Hp. discriminate.
  - intros k h. rewrite Hm. apply Hu.
  - intros k h. unfold storedState. rewrite Hm. apply Hl.
Qed.

(** The client after a promise has been stored for the chunk [(k, h)]. *)
Lemma loadOf_absent {E} k h (w : World E) :
  loadedOf k (client w) !! h = None ->
  exists w',
    loadOf k h w = (length (promises w), w')
    /\ basePath (client w') = basePath (client w)
    /\ loadedOf k (client w') = <[h := length (promises w)]> (loadedOf k (client w))
    /\ (forall k', k' <> k -> loadedOf k' (client w') = loadedOf k' (client w))
    /\ promises w' = promises w ++ [{| kind := k; hash := h; state := Pending |}]
    /\ fetched w' = fetched w ++ [chunkUrl (basePath (client w)) k h]
    /\ engineCalls w' = engineCalls w
    /\ engineState w' = engineState w
    /\ wasm (client w') = wasm (client w)
    /\ rawPtr (client w') = rawPtr (client w).
Proof.
  intros H. destruct k; simpl in H; simpl;
    [unfold loadChunk|unfold loadFilterChunkByHash]; rewrite H; cbn;
    (eexists; split; [reflexivity|]); cbn; repeat split;
    intros [] Hne; try congruence; reflexivity.
Qed.

Lemma loadOf_present {E} k h p (w : World E) :
  loadedOf k (client w) !! h = Some p -> loadOf k h w = (p, w).
Proof.
  intros H. destruct k; simpl in H; simpl;
    [unfold loadChunk|unfold loadFilterChunkByHash]; rewrite H; reflexivity.
Qed.

Lemma loadOf_invariant {E} k h (w : World E) :
  chunkStoreInvariant w -> chunkStoreInvariant (snd (loadOf k h w)).
Proof.
  intros Hinv. destruct (loadedOf k (client w) !! h) as [p|] eqn:Hl.
  { rewrite (loadOf_present k h p w Hl). exact Hinv. }
  destruct (loadOf_absent k h w Hl)
    as (w' & -> & Hb & Hmap & Hother & Hp & Hu & Hc & _). cbn [snd].
  destruct Hinv as [I1 I2 I3 I4]. split.
  - intros k0 h0 p0 H0. rewrite Hp. destruct (decide (k0 = k)) as [->|Hk].
    + rewrite Hmap in H0. destruct (decide (h0 = h)) as [->|Hh].
      * rewrite lookup_insert_eq in H0. inversion H0; subst.
        exists Pending. rewrite lookup_app_r by lia. rewrite Nat.sub_diag. reflexivity.
      * rewrite lookup_insert_ne in H0 by congruence.
        destruct (I1 _ _ _ H0) as [st Hst]. exists st.
        apply lookup_app_l_Some, Hst.
    + rewrite (Hother k0 Hk) in H0. destruct (I1 _ _ _ H0) as [st Hst].
      exists st. apply lookup_app_l_Some, Hst.
  - intros p0 pr H0. rewrite Hp in H0. apply lookup_app_Some in H0 as [H0|[Hlen H0]].
    + pose proof (I2 _ _ H0) as Hold. destruct (decide (kind pr = k)) as [Hk|Hk].
      * rewrite Hk in *. rewrite Hmap. destruct (decide (hash pr = h)) as [Hh|Hh].
        -- rewrite Hh in Hold. congruence.
        -- rewrite lookup_insert_ne by congruence. exact Hold.
      * rewrite (Hother _ Hk). exact Hold.
    + destruct (p0 - length (promises w))%nat as [|n] eqn:Hn; [|destruct n; discriminate].
      inversion H0; subst. cbn [kind hash]. rewrite Hmap.
      replace p0 with (length (promises w)) by lia. apply lookup_insert_eq.
  - intros k0 h0. unfold fetchCount. rewrite Hb, Hu, filter_length_snoc.
    fold (fetchCount k0 h0 w). rewrite I3.
    destruct (decide (k0 = k /\ h0 = h)) as [[-> ->]|Hne].
    + rewrite bool_decide_eq_true_2 by reflexivity.
      rewrite Hl, Hmap, lookup_insert_eq. reflexivity.
    + rewrite bool_decide_eq_false_2
        by (intros Heq; apply chunkUrl_inj in Heq as [? ?]; apply Hne; split; congruence).
      rewrite Nat.add_0_r. destruct (decide (k0 = k)) as [->|Hk].
      * rewrite Hmap, lookup_insert_ne by (intros ->; apply Hne; split; reflexivity).
        reflexivity.
      * rewrite (Hother k0 Hk). reflexivity.
  - intros k0 h0. unfold loadCount. rewrite Hc. fold (loadCount k0 h0 w). rewrite I4.
    unfold storedState. rewrite Hp.
    destruct (decide (k0 = k /\ h0 = h)) as [[-> ->]|Hne].
    + rewrite Hl, Hmap, lookup_insert_eq. cbn.
      rewrite lookup_app_r by lia. rewrite Nat.sub_diag. reflexivity.
    + assert (Hsame : loadedOf k0 (client w') !! h0 = loadedOf k0 (client w) !! h0).
      { destruct (decide (k0 = k)) as [->|Hk].
        - rewrite Hmap. apply lookup_insert_ne. intros ->. apply Hne. split; reflexivity.
        - rewrite (Hother k0 Hk). reflexivity. }
      rewrite Hsame. destruct (loadedOf k0 (client w) !! h0) as [p0|] eqn:H0; [|reflexivity].
      cbn. destruct (I1 _ _ _ H0) as [st Hst].
      rewrite (lookup_app_l_Some _ _ _ _ Hst), Hst. reflexivity.
Qed.

(** The facts about a world that the load calls and the requests of a
    search leave as they are. *)
Lemma loadOf_basePath {E} k h (w : World E) :
  basePath (client (snd (loadOf k h w))) = basePath (client w).
Proof.
  destruct (loadedOf k (client w) !! h) as [p|] eqn:Hl.
  - rewrite (loadOf_present k h p w Hl). reflexivity.
  - destruct (loadOf_absent k h w Hl) as (w' & -> & Hb & _). exact Hb.
Qed.

Lemma loadEach_invariant {E} k hashes : forall (w : World E),
  chunkStoreInvariant w -> chunkStoreInvariant (snd (loadEach (loadOf k) hashes w)).
Proof.
  induction hashes as [|h hs IH]; intros w Hinv; cbn; [exact Hinv|].
  pose proof (loadOf_invariant k h w Hinv) as H1.
  destruct (loadOf k h w) as [p w1]. cbn [snd] in H1.
  specialize (IH w1 H1). destruct (loadEach (loadOf k) hs w1) as [ps w2].
  exact IH.
Qed.

Lemma settle_lookup p q s ps :
  settle p s ps !! q
  = if decide (p = q)
    then (fun pr => {| kind := kind pr; hash := hash pr; state := s |}) <$> ps !! q
    else ps !! q.
Proof.
  unfold settle. rewrite list_lookup_alter.
  destruct (decide (p = q)) as [->|Hne]; reflexivity.
Qed.

(** Settling the pending promise of the chunk [(k, h)] keeps the
    invariant when the chunk goes to the engine exactly if the promise is
    fulfilled. *)
Lemma settle_invariant {E} (w w' : World E) p k h s :
  chunkStoreInvariant w ->
  promises w !! p = Some {| kind := k; hash := h; state := Pending |} ->
  basePath (client w') = basePath (client w) ->
  loadedChunks (client w') = loadedChunks (client w) ->
  loadedFilters (client w') = loadedFilters (client w) ->
  fetched w' = fetched w ->
  promises w' = settle p s (promises w) ->
  (forall k0 h0,
      loadCount k0 h0 w'
      = (loadCount k0 h0 w
         + match s with
           | Fulfilled => if decide (k0 = k /\ h0 = h) then 1 else 0
           | _ => 0
           end)%nat) ->
  chunkStoreInvariant w'.
Proof.
  intros [I1 I2 I3 I4] Hp Hb Hc Hf Hu Hps Hl.
  assert (Hm : forall k0, loadedOf k0 (client w') = loadedOf k0 (client w))
    by (intros []; assumption).
  pose proof (I2 _ _ Hp) as Hstored. cbn [kind hash] in Hstored.
  split.
  - intros k0 h0 p0 H0. rewrite Hm in H0. destruct (I1 _ _ _ H0) as [st Hst].
    rewrite Hps, settle_lookup. destruct (decide (p = p0)) as [->|Hne].
    + rewrite Hst. cbn. eauto.
    + eauto.
  - intros p0 pr H0. rewrite Hps, settle_lookup in H0. rewrite Hm.
    destruct (decide (p = p0)) as [->|Hne].
    + destruct (promises w !! p0) as [pr0|] eqn:H1; [|discriminate].
      cbn in H0. inversion H0; subst. cbn [kind hash]. apply I2, H1.
    + apply I2, H0.
  - intros k0 h0. unfold fetchCount. rewrite Hb, Hu, Hm. apply I3.
  - intros k0 h0. rewrite Hl, I4. unfold storedState. rewrite Hm, Hps.
    destruct (loadedOf k0 (client w) !! h0) as [p0|] eqn:H0; cbn.
    + destruct (I1 _ _ _ H0) as [st Hst]. rewrite settle_lookup, Hst.
      destruct (decide (p = p0)) as [->|Hne].
      * rewrite Hp in Hst. inversion Hst; subst. cbn.
        destruct s; [reflexivity| |reflexivity].
        rewrite decide_True by (split; reflexivity). reflexivity.
      * cbn. destruct s; try lia.
        rewrite decide_False; [lia|]. intros [-> ->]. congruence.
    + destruct s; try lia.
      rewrite decide_False; [lia|]. intros [-> ->]. congruence.
Qed.

Lemma loadCount_called {E} (w : World E) e call k0 h0 :
  loadCount k0 h0 (engineCalled w e call)
  = (loadCount k0 h0 w + if isLoadOf k0 h0 call then 1 else 0)%nat.
Proof. unfold loadCount. cbn. apply filter_length_snoc. Qed.

Lemma respond_invariant {E} (engine : Engine E) rt p r (w : World E) :
  chunkStoreInvariant w -> chunkStoreInvariant (respond engine rt p r w).
Proof.
  intros Hinv. unfold respond.
  destruct (promises w !! p) as [[k h []]|] eqn:Hp; try exact Hinv.
  destruct (fetchAndDecompress rt (chunkUrl (basePath (client w)) k h) r) as [chunk|e].
  - destruct (wasm (client w)).
    + destruct k.
      * destruct (wasmLoadIndexChunk engine (engineState w)
                    (default 0%Z (rawPtr (client w))) chunk) as [e ptr'].
        eapply (settle_invariant w _ p IndexChunk h Fulfilled Hinv Hp);
          try reflexivity.
        intros k0 h0. cbn. unfold loadCount. cbn. rewrite filter_length_snoc.
        f_equal. destruct k0; cbn.
        -- destruct (decide (h = h0)) as [->|Hne].
           ++ rewrite bool_decide_eq_true_2, decide_True by auto. reflexivity.
           ++ rewrite bool_decide_eq_false_2, decide_False by (try intros [_ ?]; congruence).
              reflexivity.
        -- rewrite decide_False by (intros [? _]; discriminate). reflexivity.
      * destruct (wasmLoadFilterChunk engine (engineState w)
                    (default 0%Z (rawPtr (client w))) chunk) as [e ptr'].
        eapply (settle_invariant w _ p FilterChunk h Fulfilled Hinv Hp);
          try reflexivity.
        intros k0 h0. cbn. unfold loadCount. cbn. rewrite filter_length_snoc.
        f_equal. destruct k0; cbn.
        -- rewrite decide_False by (intros [? _]; discriminate). reflexivity.
        -- destruct (decide (h = h0)) as [->|Hne].
           ++ rewrite bool_decide_eq_true_2, decide_True by auto. reflexivity.
           ++ rewrite bool_decide_eq_false_2, decide_False by (try intros [_ ?]; congruence).
              reflexivity.
    + eapply (settle_invariant w _ p k h (Rejected TypeError) Hinv Hp);
        try reflexivity.
      intros k0 h0. exact (eq_sym (Nat.add_0_r _)).
  - eapply (settle_invariant w _ p k h (Rejected e) Hinv Hp); try reflexivity.
    intros k0 h0. exact (eq_sym (Nat.add_0_r _)).
Qed.

Lemma search_invariant {E} (engine : Engine E) rt term options (w : World E) :
  chunkStoreInvariant w ->
  chunkStoreInvariant (snd (search engine rt term options w)).
Proof.
  intros Hinv. unfold search.
  destruct (negb (wasm (client w)) || bool_decide (rawPtr (client w) = None));
    [exact Hinv|].
  cbn [now].
  match goal with
  | |- context [log ?b ?msg ?w0] =>
      assert (H1 : chunkStoreInvariant (log b msg w0))
        by (apply (invariant_frame w); try exact Hinv;
            unfold log; destruct b; reflexivity);
      generalize dependent (log b msg w0)
  end.
  intros w1 H1.
  destruct (bool_decide (normalize (caseData rt) term = [])); [exact H1|].
  destruct (requestIndexes engine (engineState w1) (default 0%Z (rawPtr (client w)))
              (normalize (caseData rt) term)) as [e1 indexResp].
  match goal with
  | |- context [requestFilterIndexes engine (engineState ?w2) ?a ?b] =>
      assert (H2 : chunkStoreInvariant w2)
        by (apply (invariant_frame w1); try exact H1; try reflexivity;
            intros k h; rewrite loadCount_called; destruct k; cbn; lia);
      destruct (requestFilterIndexes engine (engineState w2) a b) as [e2 filterResp]
  end.
  match goal with
  | |- context [loadEach loadChunk ?hs ?w3] =>
      assert (H3 : chunkStoreInvariant w3)
        by (eapply invariant_frame; [..|exact H2]; try reflexivity;
            intros k h; rewrite loadCount_called; destruct k; cbn; lia);
      pose proof (loadEach_invariant IndexChunk hs w3 H3) as H4;
      change (loadOf IndexChunk) with (@loadChunk E) in H4;
      destruct (loadEach loadChunk hs w3) as [ps1 w4]
  end.
  cbn [snd] in H4.
  match goal with
  | |- context [loadEach loadFilterChunkByHash ?hs ?w4] =>
      pose proof (loadEach_invariant FilterChunk hs w4 H4) as H5;
      change (loadOf FilterChunk) with (@loadFilterChunkByHash E) in H5;
      destruct (loadEach loadFilterChunkByHash hs w4) as [ps2 w5]
  end.
  exact H5.
Qed.

Lemma resumeSearch_invariant {E} (engine : Engine E) rt k (w : World E) r w' :
  chunkStoreInvariant w ->
  resumeSearch engine rt k w = Some (r, w') ->
  chunkStoreInvariant w'.
Proof.
  intros Hinv H. unfold resumeSearch in H.
  destruct (promiseAll (awaited k) w) as [[[]|e]|]; [| |discriminate].
  2: { inversion H; subst. exact Hinv. }
  cbn [now] in H.
  match type of H with
  | context [log ?b ?msg w] =>
      assert (H1 : chunkStoreInvariant (log b msg w))
        by (apply (invariant_frame w); try exact Hinv;
            unfold log; destruct b; reflexivity);
      generalize dependent (log b msg w)
  end.
  intros w1 H H1. cbn [engineState client] in H.
  destruct (wasmSearch engine (engineState w1) (default 0%Z (rawPtr (client w1)))
              (normalized k) (filterStr k) (sortStr k) (exact k)) as [e rawResult].
  match type of H with
  | context [parseResponse rt ?q ?raw] => destruct (parseResponse rt q raw) as [[[[c found] fo] tfo]|err]
  end.
  - cbn [now] in H. inversion H; subst. eapply invariant_frame; [..|exact H1];
      try (unfold log; destruct (beVerbose k); reflexivity).
    intros k0 h0. unfold log. destruct (beVerbose k); unfold loadCount; cbn;
      rewrite filter_length_snoc; destruct k0; apply Nat.add_0_r.
  - inversion H; subst. eapply invariant_frame; [..|exact H1]; try reflexivity.
    intros k0 h0. rewrite loadCount_called. destruct k0; apply Nat.add_0_r.
Qed.

Lemma step_invariant {E} (engine : Engine E) rt (w : World E) ev :
  chunkStoreInvariant w -> chunkStoreInvariant (step engine rt w ev).
Proof.
  intros Hinv. destruct ev as [term options|p r|i]; cbn [step].
  - pose proof (search_invariant engine rt term options w Hinv) as H.
    destruct (search engine rt term options w) as [[e|r|k] w1]; cbn [snd] in H;
      (eapply invariant_frame; [..|exact H]; reflexivity).
  - apply respond_invariant, Hinv.
  - destruct (waiting w !! i) as [k|]; [|exact Hinv].
    destruct (resumeSearch engine rt k w) as [[r w1]|] eqn:Hr; [|exact Hinv].
    pose proof (resumeSearch_invariant engine rt k w r w1 Hinv Hr) as H.
    eapply invariant_frame; [..|exact H]; reflexivity.
Qed.

Lemma run_invariant {E} (engine : Engine E) rt evs : forall (w : World E),
  chunkStoreInvariant w -> chunkStoreInvariant (run engine rt evs w).
Proof.
  induction evs as [|ev evs IH]; intros w Hinv; [exact Hinv|].
  apply IH, step_invariant, Hinv.
Qed.

(** C1, as the code has it.  From a client on which no chunk has been
    asked for, after any searches, answers of the network and resumptions,
    in any order: a chunk not asked for has no fetch and no engine load,
    and the first load call for it makes one fetch and stores a pending
    promise in the map of its kind; a chunk asked for has had exactly one
    fetch, every further load call for it gives back the stored promise and
    changes nothing, and the chunk has been handed to the engine exactly
    once if that promise is fulfilled and not at all while it is pending or
    if it is rejected. *)
Theorem chunk_fetched_once_loaded_at_most_once {E} (engine : Engine E)
    (rt : Runtime) (w0 : World E) (evs : list event)
    (k : chunkKind) (h : jsstring) :
  fresh w0 ->
  let w := run engine rt evs w0 in
  match loadedOf k (client w) !! h with
  | None =>
      fetchCount k h w = 0%nat /\ loadCount k h w = 0%nat
      /\ exists w',
          loadOf k h w = (length (promises w), w')
          /\ loadedOf k (client w') !! h = Some (length (promises w))
          /\ promises w' !! length (promises w)
             = Some {| kind := k; hash := h; state := Pending |}
          /\ fetchCount k h w' = 1%nat
          /\ loadCount k h w' = 0%nat
  | Some p =>
      fetchCount k h w = 1%nat
      /\ loadOf k h w = (p, w)
      /\ exists st,
          promises w !! p = Some {| kind := k; hash := h; state := st |}
          /\ loadCount k h w = match st with
                               | Fulfilled => 1%nat
                               | _ => 0%nat
                               end
  end.
Proof.
  intros Hfresh w.
  assert (Hinv : chunkStoreInvariant w)
    by (apply run_invariant, fresh_invariant, Hfresh).
  destruct (loadedOf k (client w) !! h) as [p|] eqn:Hl.
  - destruct Hinv as [I1 _ I3 I4]. split; [rewrite I3, Hl; reflexivity|].
    split; [exact (loadOf_present k h p w Hl)|].
    destruct (I1 _ _ _ Hl) as [st Hst]. exists st. split; [exact Hst|].
    rewrite I4. unfold storedState. rewrite Hl. cbn. rewrite Hst. reflexivity.
  - pose proof (loadOf_invariant k h w Hinv) as Hinv'.
    destruct Hinv as [_ _ I3 I4].
    split; [rewrite I3, Hl; reflexivity|].
    split; [rewrite I4; unfold storedState; rewrite Hl; reflexivity|].
    destruct (loadOf_absent k h w Hl) as (w' & Hload & _ & Hmap & _ & Hp & _).
    rewrite Hload in Hinv'. cbn [snd] in Hinv'. destruct Hinv' as [_ _ I3' I4'].
    exists w'. split; [exact Hload|].
    assert (Hnew : loadedOf k (client w') !! h = Some (length (promises w)))
      by (rewrite Hmap; apply lookup_insert_eq).
    assert (Hpr : promises w' !! length (promises w)
                  = Some {| kind := k; hash := h; state := Pending |})
      by (rewrite Hp, lookup_app_r by lia; rewrite Nat.sub_diag; reflexivity).
    split; [exact Hnew|]. split; [exact Hpr|].
    split; [rewrite I3', Hnew; reflexivity|].
    rewrite I4'. unfold storedState. rewrite Hnew. cbn. rewrite Hpr. reflexivity.
Qed.

Lemma sampleWorld_fresh : fresh sampleWorld.
Proof. split; reflexivity. Qed.

Lemma chunk_fetched_once_loaded_at_most_once_witness :
  let w := run sampleEngine sampleRuntime loadedTrace sampleWorld in
  fetchCount IndexChunk (lit "abc") w = 1%nat
  /\ loadOf IndexChunk (lit "abc") w = (0%nat, w)
  /\ loadCount IndexChunk (lit "abc") w = 1%nat.
Proof.
  intros w.
  pose proof (chunk_fetched_once_loaded_at_most_once sampleEngine sampleRuntime
                sampleWorld loadedTrace IndexChunk (lit "abc") sampleWorld_fresh) as H.
  cbv zeta in H. fold w in H.
  assert (Hl : loadedOf IndexChunk (client w) !! lit "abc" = Some 0%nat)
    by (vm_compute; reflexivity).
  rewrite Hl in H. destruct H as (Hf & Hsame & st & Hst & Hc).
  assert (Hs : promises w !! 0%nat
               = Some {| kind := IndexChunk; hash := lit "abc"; state := Fulfilled |})
    by (vm_compute; reflexivity).
  rewrite Hs in Hst. inversion Hst; subst st.
  split; [exact Hf|]. split; [exact Hsame|exact Hc].
Defined.

(** The claim C1 fails when the fetch fails.  Three searches ask for the
    index chunk [abc], twice each; its only fetch is answered by a status
    404 before the third search starts.  The chunk has been fetched once,
    its promise is rejected and stays stored, no load is pending, and the
    chunk has not been handed to the engine once: it has never been. *)
Lemma chunk_not_loaded_when_fetch_fails :
  let w := run sampleEngine sampleRuntime failedTrace sampleWorld in
  loadedChunks (client w) !! lit "abc" = Some 0%nat
  /\ length (promises w) = 1%nat
  /\ (exists e, state <$> promises w !! 0%nat = Some (Rejected e))
  /\ fetchCount IndexChunk (lit "abc") w = 1%nat
  /\ loadCount IndexChunk (lit "abc") w = 0%nat
  /\ ~ (fetchCount IndexChunk (lit "abc") w = 1%nat
        /\ loadCount IndexChunk (lit "abc") w = 1%nat).
Proof.
  vm_compute. repeat split; try reflexivity.
  - eexists. reflexivity.
  - intros [_ H]. discriminate.
Qed.

(** * Further properties *)

(** ** Decompression, byte by byte *)

(** X1. [decompress] looks at its input only through the question whether
    the first twelve bytes are the ASCII bytes of the signature.  Signed
    data come back without these bytes and are never inflated.  Other data
    are inflated once; an inflation that fails is thrown; inflated bytes
    that carry the signature lose it, and inflated bytes without it are
    returned as they are. *)
Theorem decompress_bytes (gunzip : bytes -> option bytes) (data : bytes) :
  decompress gunzip data
  = if decide (take 12 data = signatureBytes) then ([], Return (drop 12 data))
    else match gunzip data with
         | None => ([data], Throw ZlibError)
         | Some inflated =>
             ([data],
              Return (if decide (take 12 inflated = signatureBytes)
                      then drop 12 inflated else inflated))
         end.
Proof.
  unfold decompress.
  destruct (decide (decode (take 12 data) = SIGNATURE)) as [H|H];
    destruct (decide (take 12 data = signatureBytes)) as [Hb|Hb];
    try reflexivity.
  - exfalso. apply Hb, decode_signature, H.
  - exfalso. apply H, decode_signature, Hb.
  - destruct (gunzip data) as [inflated|]; [|reflexivity].
    destruct (decide (decode (take 12 inflated) <> SIGNATURE)) as [Hi|Hi];
      destruct (decide (take 12 inflated = signatureBytes)) as [Hc|Hc];
      try reflexivity.
    + exfalso. apply Hi, decode_signature, Hc.
    + exfalso. apply Hi. intros Hd. apply Hc, decode_signature, Hd.
Qed.

(** ** The window and the marks of an excerpt *)

Lemma clampWindow_inside start length endcap startcap :
  exists from len,
    clampWindow start length endcap startcap = (from, len)
    /\ (startcap <= from)%Z /\ (from + len <= endcap)%Z
    /\ len = Z.min length (endcap - startcap).
Proof.
  unfold clampWindow. eexists _, _. split; [reflexivity|].
  destruct (Z.ltb_spec (endcap - startcap) length);
    repeat match goal with
           | |- context [(?a <? ?b)%Z] => destruct (Z.ltb_spec a b)
           end; lia.
Qed.

(** X2. When the length asked for is not negative and the two bounds,
    the lower bound [notBefore] (zero when absent) and the upper bound
    [notFrom] (the number of tokens when absent), are in this order between
    zero and the number of tokens, the tokens that [buildExcerpt] joins are
    the [len] tokens from the offset [from] on, with [from] not below the
    lower bound, [from + len] not above the upper bound, and [len] the
    smaller of the length asked for and the distance of the bounds. *)
Theorem buildExcerpt_window_inside
    (content : jsstring) (start length : Z) (locations : list Z)
    (notBefore notFrom : option Z) :
  let fragmentWords := fold_left markWord locations (tokenize content) in
  let endcap := default (Z.of_nat (List.length fragmentWords)) notFrom in
  let startcap := default 0%Z notBefore in
  (0 <= length)%Z ->
  (0 <= startcap <= endcap)%Z ->
  (endcap <= Z.of_nat (List.length fragmentWords))%Z ->
  exists from len,
    buildExcerpt content start length locations notBefore notFrom
    = trim (join (take (Z.to_nat len) (drop (Z.to_nat from) fragmentWords))
                 (if includes content ZWS then [] else [32]))
    /\ List.length (take (Z.to_nat len) (drop (Z.to_nat from) fragmentWords))
       = Z.to_nat len
    /\ (startcap <= from)%Z /\ (0 <= len)%Z /\ (from + len <= endcap)%Z
    /\ len = Z.min length (endcap - startcap).
Proof.
  intros fragmentWords endcap startcap Hlen Hcaps Hend.
  destruct (clampWindow_inside start length endcap startcap)
    as (from & len & Hc & H1 & H2 & H3).
  exists from, len. split; [|split; [|repeat split; lia]].
  - unfold buildExcerpt.
    fold fragmentWords. fold endcap. fold startcap. rewrite Hc.
    unfold slice, sliceIndex.
    replace (from <? 0)%Z with false by (symmetry; apply Z.ltb_ge; lia).
    replace (from + len <? 0)%Z with false by (symmetry; apply Z.ltb_ge; lia).
    rewrite !Z.min_l by lia.
    replace (from + len - from)%Z with len by lia. reflexivity.
  - rewrite length_take, length_drop. lia.
Qed.

Lemma buildExcerpt_window_inside_witness :
  let content := lit "a b c d e" in
  let fragmentWords := fold_left markWord [1%Z] (tokenize content) in
  exists from len,
    buildExcerpt content 1 2 [1%Z] (Some 2%Z) None
    = trim (join (take (Z.to_nat len) (drop (Z.to_nat from) fragmentWords))
                 (if includes content ZWS then [] else [32]))
    /\ List.length (take (Z.to_nat len) (drop (Z.to_nat from) fragmentWords))
       = Z.to_nat len
    /\ (2 <= from)%Z /\ (0 <= len)%Z /\ (from + len <= 5)%Z
    /\ len = Z.min 2 (5 - 2).
Proof.
  apply (buildExcerpt_window_inside (lit "a b c d e") 1 2 [1%Z] (Some 2%Z) None);
    vm_compute; try split; congruence.
Defined.

Lemma markWord_at arr word :
  (0 <= word)%Z ->
  arrayGet (markWord arr word) word = Some (markedToken (arrayGet arr word)).
Proof.
  intros Hw. unfold markWord, markedToken.
  destruct (arrayGet arr word) as [w|] eqn:Hg.
  - destruct (startsWith w MARK_OPEN); [exact Hg|]. apply arraySet_same, Hw.
  - apply arraySet_same, Hw.
Qed.

Lemma markWord_elsewhere arr word j :
  word <> j -> arrayGet (markWord arr word) j = arrayGet arr j.
Proof.
  intros Hne. unfold markWord. destruct (arrayGet arr word) as [w|].
  - destruct (startsWith w MARK_OPEN); [reflexivity|]. apply arraySet_other, Hne.
  - apply arraySet_other, Hne.
Qed.

Lemma markedToken_marked x :
  markedToken (Some (markedToken x)) = markedToken x.
Proof.
  unfold markedToken at 1.
  assert (H : startsWith (markedToken x) MARK_OPEN = true).
  { unfold markedToken. destruct x as [w|]; [|reflexivity].
    destruct (startsWith w MARK_OPEN) eqn:Hs; [exact Hs|].
    apply startsWith_prefix. }
  rewrite H. reflexivity.
Qed.

Lemma markWords_lookup (locations : list Z) (arr : list (option jsstring)) (j : Z) :
  arrayGet (fold_left markWord locations arr) j
  = if bool_decide (0 <= j)%Z && bool_decide (j ∈ locations)
    then Some (markedToken (arrayGet arr j))
    else arrayGet arr j.
Proof.
  revert arr. induction locations as [|w ws IH]; intros arr.
  - cbn [fold_left].
    rewrite (bool_decide_eq_false_2 (j ∈ [])) by apply not_elem_of_nil.
    rewrite andb_false_r. reflexivity.
  - cbn [fold_left]. rewrite IH.
    destruct (bool_decide_reflect (0 <= j)%Z) as [Hj|Hj]; cbn [andb].
    + destruct (decide (w = j)) as [->|Hne].
      * rewrite (bool_decide_eq_true_2 (j ∈ j :: ws)) by apply list_elem_of_here.
        rewrite markWord_at by exact Hj.
        destruct (bool_decide (j ∈ ws)); [|reflexivity].
        rewrite markedToken_marked. reflexivity.
      * rewrite markWord_elsewhere by exact Hne.
        destruct (bool_decide_reflect (j ∈ ws)) as [Hin|Hin].
        -- rewrite (bool_decide_eq_true_2 (j ∈ w :: ws))
             by (apply list_elem_of_further; exact Hin).
           reflexivity.
        -- rewrite (bool_decide_eq_false_2 (j ∈ w :: ws)); [reflexivity|].
           intros H. apply elem_of_cons in H as [H|H]; [congruence|contradiction].
    + unfold arrayGet. destruct (Z.ltb_spec j 0); [reflexivity|lia].
Qed.

(** X3. After the highlighting loop of [buildExcerpt], the token at an
    offset from zero on that is among the highlight offsets is the token
    that was there wrapped in the mark pair, or left as it was when it
    started with the opening mark already, or the marked [undefined] when
    there was none; the token at an offset that is not among them is
    untouched.  So an offset listed twice is wrapped once, and the order of
    the offsets does not matter. *)
Theorem highlight_tokens (locations : list Z) (arr : list (option jsstring)) (j : Z) :
  (0 <= j)%Z ->
  arrayGet (fold_left markWord locations arr) j
  = if bool_decide (j ∈ locations)
    then Some (markedToken (arrayGet arr j))
    else arrayGet arr j.
Proof.
  intros Hj. rewrite markWords_lookup.
  rewrite (bool_decide_eq_true_2 (0 <= j)%Z) by exact Hj. reflexivity.
Qed.

Lemma highlight_tokens_witness :
  arrayGet (fold_left markWord [1; 5; 1]%Z (tokenize (lit "a b c"))) 1
  = if bool_decide (1%Z ∈ [1; 5; 1]%Z)
    then Some (markedToken (arrayGet (tokenize (lit "a b c")) 1))
    else arrayGet (tokenize (lit "a b c")) 1.
Proof. apply (highlight_tokens [1; 5; 1]%Z (tokenize (lit "a b c")) 1). lia. Defined.


(** ** The range of the excerpt region *)

Lemma arraySet_length {A} (arr : list (option A)) (i : Z) (v : A) :
  length (arraySet arr i v) = Nat.max (length arr) (Z.to_nat (i + 1)).
Proof.
  unfold arraySet. destruct (Z.ltb_spec i 0) as [Hi|Hi].
  - replace (Z.to_nat (i + 1)) with 0%nat by lia. lia.
  - replace (Z.to_nat (i + 1)) with (S (Z.to_nat i)) by lia.
    destruct (Nat.ltb_spec (Z.to_nat i) (length arr)) as [Hn|Hn].
    + rewrite length_insert. lia.
    + rewrite !length_app, length_replicate. cbn [length]. lia.
Qed.

Lemma sumScores_length_inv (P : nat -> Prop) (Q : WeightedLocation -> Prop)
    (positions : list WeightedLocation) :
  (forall (n : nat) p, P n -> Q p -> P (Nat.max n (Z.to_nat (location p + 1)))) ->
  (forall p, In p positions -> Q p) ->
  forall words, P (length words) ->
  P (length (fold_left
               (fun words word =>
                  arraySet words (location word)
                    (orZero (arrayGet words (location word)) + balanced_score word)%float)
               positions words)).
Proof.
  intros Hstep. induction positions as [|p ps IH]; intros HQ words Hw; [exact Hw|].
  cbn [fold_left]. apply IH.
  - intros q Hq. apply HQ. right. exact Hq.
  - rewrite arraySet_length. apply Hstep; [exact Hw|]. apply HQ. left. reflexivity.
Qed.

Lemma sumScores_length_below positions (bound : Z) :
  (forall p, In p positions -> (location p < bound)%Z) ->
  (length (sumScores positions) <= Z.to_nat bound)%nat.
Proof.
  intros H. unfold sumScores.
  apply (sumScores_length_inv (fun n => (n <= Z.to_nat bound)%nat)
                              (fun p => (location p < bound)%Z)).
  - intros n p Hn Hp. lia.
  - exact H.
  - cbn. lia.
Qed.

Lemma sumScores_length_reached positions :
  length (sumScores positions) = 0%nat
  \/ exists p, In p positions
               /\ Z.of_nat (length (sumScores positions)) = (location p + 1)%Z.
Proof.
  unfold sumScores.
  apply (sumScores_length_inv
           (fun n => n = 0%nat
                     \/ exists p, In p positions /\ Z.of_nat n = (location p + 1)%Z)
           (fun p => In p positions)).
  - intros n p Hn Hp.
    destruct (Nat.max_spec n (Z.to_nat (location p + 1))) as [[Hlt ->]|[Hle ->]].
    + right. exists p. split; [exact Hp|lia].
    + exact Hn.
  - auto.
  - left. reflexivity.
Qed.

(** X4. When every match lies before the offset [excerptLength], so that
    the window of that width at the start of the page holds them all,
    [calculateExcerptRegion] answers 0: the excerpt starts with the page. *)
Theorem calculateExcerptRegion_fits positions (excerptLength : Z) :
  (forall p, In p positions -> (location p < excerptLength)%Z) ->
  calculateExcerptRegion positions excerptLength = 0%Z.
Proof.
  intros H. unfold calculateExcerptRegion. destruct positions as [|p ps]; [reflexivity|].
  pose proof (sumScores_length_below (p :: ps) excerptLength H) as Hlen.
  cbv zeta. destruct (Z.leb_spec (Z.of_nat (length (sumScores (p :: ps)))) excerptLength)
    as [Hle|Hgt]; [reflexivity|].
  assert (Hnil : sumScores (p :: ps) = []) by (apply length_zero_iff_nil; lia).
  rewrite Hnil. reflexivity.
Qed.

Lemma calculateExcerptRegion_fits_witness :
  calculateExcerptRegion [matchAt 3; matchAt 7; matchAt 3] 30 = 0%Z.
Proof.
  apply calculateExcerptRegion_fits. intros p Hp.
  repeat (destruct Hp as [<-|Hp]; [cbn; lia|]). destruct Hp.
Defined.

Lemma slideStep_indices (P : Z -> Prop) words excerptLength st i :
  P i -> Forall P (densestAt st) ->
  Forall P (densestAt (slideStep words excerptLength st i)).
Proof.
  intros Hi Hst. unfold slideStep.
  destruct (PrimFloat.ltb _ _); [repeat constructor; exact Hi|].
  destruct (_ && _); cbn [densestAt]; [|exact Hst].
  apply Forall_app. split; [exact Hst|repeat constructor; exact Hi].
Qed.

Lemma slide_indices (P : Z -> Prop) words excerptLength :
  P 0%Z ->
  (forall n, (n < length words)%nat -> P (Z.of_nat n)) ->
  Forall P (densestAt (slide words excerptLength)).
Proof.
  intros H0 Hn. unfold slide.
  assert (Hidx : Forall P (Z.of_nat <$> seq 0 (length words))).
  { apply Forall_fmap, Forall_forall. intros n Hin. apply elem_of_seq in Hin.
    apply Hn. lia. }
  revert Hidx. generalize (Z.of_nat <$> seq 0 (length words)). intros indices Hidx.
  match goal with
  | |- context [fold_left _ indices ?st0] =>
      assert (Hst : Forall P (densestAt st0)) by (repeat constructor; exact H0);
      generalize dependent st0
  end.
  induction Hidx as [|i indices Hi Hidx IH]; intros st0 Hst; [exact Hst|].
  cbn [fold_left]. apply IH, slideStep_indices; assumption.
Qed.

(** X5. The start that [calculateExcerptRegion] answers is never negative,
    and when it is not 0 it is not past the last match: some match lies at
    or after it.  So an excerpt cut at the answer never starts after every
    match. *)
Theorem calculateExcerptRegion_range positions (excerptLength : Z) :
  (0 <= calculateExcerptRegion positions excerptLength)%Z
  /\ (calculateExcerptRegion positions excerptLength = 0%Z
      \/ exists p, In p positions
                   /\ (calculateExcerptRegion positions excerptLength <= location p)%Z).
Proof.
  unfold calculateExcerptRegion. destruct positions as [|p0 ps]; [split; [lia|left; reflexivity]|].
  cbv zeta. destruct (Z.leb_spec (Z.of_nat (length (sumScores (p0 :: ps)))) excerptLength);
    [split; [lia|left; reflexivity]|].
  pose proof (slide_indices
                (fun i => (0 <= i)%Z
                          /\ (i = 0%Z \/ exists p, In p (p0 :: ps) /\ (i <= location p)%Z))
                (sumScores (p0 :: ps)) excerptLength) as Hall.
  match type of Hall with
  | ?A -> ?B -> Forall ?P ?l =>
      assert (HF : Forall P l);
      [apply Hall|clear Hall; generalize dependent l; intros at_ HF]
  end.
  - split; [lia|left; reflexivity].
  - intros n Hn. split; [lia|]. right.
    destruct (sumScores_length_reached (p0 :: ps)) as [Hz|(p & Hp & Hl)]; [lia|].
    exists p. split; [exact Hp|lia].
  - destruct (at_ !! (length at_ / 2)%nat) as [r|] eqn:Hr; cbn [default].
    + rewrite Forall_lookup in HF. apply (HF _ _ Hr).
    + split; [lia|left; reflexivity].
Qed.




(** ** What every list of sub-results satisfies *)

Lemma skipAnchors_suffix wordLocation : forall rest nextAnchor reached remaining,
  skipAnchors wordLocation nextAnchor rest = (reached, remaining) ->
  (exists passed, nextAnchor :: rest = passed ++ reached :: remaining)
  /\ ((anchor_location nextAnchor <= wordLocation)%Z ->
      (anchor_location reached <= wordLocation)%Z).
Proof.
  induction rest as [|a rest IH]; intros nextAnchor reached remaining H; cbn in H.
  - inversion H; subst. split; [exists []; reflexivity|auto].
  - destruct (Z.leb_spec (anchor_location a) wordLocation) as [Hle|Hgt].
    + destruct (IH _ _ _ H) as [(passed & Hp) Hloc]. split; [|auto].
      exists (nextAnchor :: passed). cbn. rewrite Hp. reflexivity.
    + inversion H; subst. split; [exists []; reflexivity|auto].
Qed.

Lemma insertAnchor_In a b sorted :
  In b (insertAnchor a sorted) <-> b = a \/ In b sorted.
Proof.
  induction sorted as [|c rest IH]; cbn.
  - intuition.
  - destruct (anchor_location a <=? anchor_location c)%Z; cbn; [intuition|].
    rewrite IH. intuition.
Qed.

Lemma sortAnchors_In b l : In b (sortAnchors l) <-> In b l.
Proof.
  unfold sortAnchors. induction l as [|a l IH]; cbn; [tauto|].
  rewrite insertAnchor_In, IH. intuition.
Qed.

Lemma insertAnchor_length a sorted :
  length (insertAnchor a sorted) = S (length sorted).
Proof.
  induction sorted as [|c rest IH]; cbn; [reflexivity|].
  destruct (anchor_location a <=? anchor_location c)%Z; cbn; [reflexivity|].
  rewrite IH. reflexivity.
Qed.

Lemma sortAnchors_length l : length (sortAnchors l) = length l.
Proof.
  unfold sortAnchors. induction l as [|a l IH]; cbn; [reflexivity|].
  rewrite insertAnchor_length, IH. reflexivity.
Qed.

Section SubResultsInvariants.

Variable urlWithHash : jsstring -> jsstring -> option jsstring.
Variable fragment : PagefindFragment.
Variable desiredExcerptLength : Z.

Lemma addResult_cases st endRange :
  (locations (currentAnchor st) = []
   /\ addResult fragment desiredExcerptLength st endRange = results st)
  \/ (locations (currentAnchor st) <> []
      /\ exists e,
           addResult fragment desiredExcerptLength st endRange
           = results st ++ [withExcerpt (currentAnchor st) e]).
Proof.
  unfold addResult.
  destruct (bool_decide_reflect (locations (currentAnchor st) <> [])) as [Hn|Hn].
  - right. split; [exact Hn|]. eexists. reflexivity.
  - left. split; [|reflexivity]. destruct (locations (currentAnchor st)); [reflexivity|].
    exfalso. apply Hn. discriminate.
Qed.

(** The three ways one turn of the main loop can end well: the match is
    pushed to the current section, or the current section is closed and a
    new one is opened at an anchor that is reached from the first anchor
    left. *)
Lemma segmentStep_cases st word st' :
  segmentStep urlWithHash fragment desiredExcerptLength st word = Return st' ->
  (st' = {| anchorsLeft := anchorsLeft st;
            results := results st;
            currentAnchorPosition := currentAnchorPosition st;
            currentAnchor := pushLocation (currentAnchor st) word |}
   /\ match anchorsLeft st with
      | [] => True
      | first :: _ => (location word < anchor_location first)%Z
      end)
  \/ exists first rest passed reached u,
       anchorsLeft st = first :: rest
       /\ (anchor_location first <= location word)%Z
       /\ first :: rest = passed ++ reached :: anchorsLeft st'
       /\ (anchor_location reached <= location word)%Z
       /\ anchoredUrl urlWithHash fragment (anchor_id reached) = Return u
       /\ results st'
          = addResult fragment desiredExcerptLength st (Some (anchor_location first))
       /\ currentAnchorPosition st' = anchor_location reached
       /\ currentAnchor st'
          = {| title := Some (text reached); url := u; anchor := Some reached;
               weighted_locations := [word]; locations := [location word];
               excerpt := [] |}.
Proof.
  unfold segmentStep. intros H.
  destruct (anchorsLeft st) as [|first rest] eqn:Ha.
  - left. inversion H; subst. split; [reflexivity|exact I].
  - destruct (Z.ltb_spec (location word) (anchor_location first)) as [Hlt|Hge].
    + left. inversion H; subst. split; [reflexivity|exact Hlt].
    + right. cbv zeta in H.
      destruct (skipAnchors (location word) first rest) as [reached remaining] eqn:Hs.
      destruct (anchoredUrl urlWithHash fragment (anchor_id reached)) as [u|e] eqn:Hu;
        [|discriminate].
      cbn in H. inversion H; subst. cbn.
      destruct (skipAnchors_suffix _ _ _ _ _ Hs) as [(passed & Hp) Hloc].
      exists first, rest, passed, reached, u. repeat split; auto.
Qed.

Lemma segmentLoop_invariant (P : segmenter -> Prop) :
  (forall st word st',
      P st ->
      segmentStep urlWithHash fragment desiredExcerptLength st word = Return st' ->
      P st') ->
  forall matches st st',
    P st ->
    segmentLoop urlWithHash fragment desiredExcerptLength st matches = Return st' ->
    P st'.
Proof.
  intros Hstep matches. induction matches as [|w ws IH]; intros st st' HP Hl; cbn in Hl.
  - inversion Hl; subst. exact HP.
  - destruct (segmentStep urlWithHash fragment desiredExcerptLength st w) as [st1|e] eqn:Hs;
      [|discriminate].
    cbn in Hl. exact (IH st1 st' (Hstep _ _ _ HP Hs) Hl).
Qed.

Lemma locations_nil s :
  locations s = location <$> weighted_locations s ->
  locations s = [] -> weighted_locations s = [].
Proof.
  intros -> H. destruct (weighted_locations s); [reflexivity|discriminate].
Qed.

Lemma segmentStep_partition st word st' :
  Forall (fun s => locations s = location <$> weighted_locations s)
         (results st ++ [currentAnchor st]) ->
  segmentStep urlWithHash fragment desiredExcerptLength st word = Return st' ->
  Forall (fun s => locations s = location <$> weighted_locations s)
         (results st' ++ [currentAnchor st'])
  /\ concat (weighted_locations <$> results st') ++ weighted_locations (currentAnchor st')
     = (concat (weighted_locations <$> results st) ++ weighted_locations (currentAnchor st))
       ++ [word].
Proof.
  intros HF Hs. apply Forall_app in HF as [HR HC]. inversion HC as [|? ? Hc _]; subst.
  destruct (segmentStep_cases _ _ _ Hs)
    as [[-> _]|(first & rest & passed & reached & u & _ & _ & _ & _ & _ & Hr & _ & Hcur)].
  - cbn. split.
    + apply Forall_app. split; [exact HR|]. constructor; [|constructor].
      cbn [pushLocation locations weighted_locations].
      rewrite Hc, fmap_app. reflexivity.
    + rewrite app_assoc. reflexivity.
  - rewrite Hr, Hcur. cbn [weighted_locations locations].
    destruct (addResult_cases st (Some (anchor_location first)))
      as [[Hnil ->]|[_ (e & ->)]].
    + split.
      * apply Forall_app. split; [exact HR|]. constructor; [reflexivity|constructor].
      * rewrite (locations_nil _ Hc Hnil), app_nil_r. reflexivity.
    + split.
      * apply Forall_app. split; [|constructor; [reflexivity|constructor]].
        apply Forall_app. split; [exact HR|]. constructor; [exact Hc|constructor].
      * rewrite fmap_app, concat_app. cbn. rewrite app_nil_r. reflexivity.
Qed.

Lemma segmentLoop_partition matches : forall st st',
  Forall (fun s => locations s = location <$> weighted_locations s)
         (results st ++ [currentAnchor st]) ->
  segmentLoop urlWithHash fragment desiredExcerptLength st matches = Return st' ->
  Forall (fun s => locations s = location <$> weighted_locations s)
         (results st' ++ [currentAnchor st'])
  /\ concat (weighted_locations <$> results st') ++ weighted_locations (currentAnchor st')
     = (concat (weighted_locations <$> results st) ++ weighted_locations (currentAnchor st))
       ++ matches.
Proof.
  induction matches as [|w ws IH]; intros st st' HF Hl; cbn in Hl.
  - inversion Hl; subst. rewrite app_nil_r. auto.
  - destruct (segmentStep urlWithHash fragment desiredExcerptLength st w) as [st1|e] eqn:Hs;
      [|discriminate].
    cbn in Hl. destruct (segmentStep_partition _ _ _ HF Hs) as [HF1 Hc1].
    destruct (IH _ _ HF1 Hl) as [HF' Hc']. split; [exact HF'|].
    rewrite Hc', Hc1, <- app_assoc. reflexivity.
Qed.

Lemma calculateSubResults_shares found :
  calculateSubResults urlWithHash fragment desiredExcerptLength = Return found ->
  concat (weighted_locations <$> found) = fragment_weighted_locations fragment
  /\ Forall (fun s => locations s = location <$> weighted_locations s) found.
Proof.
  unfold calculateSubResults. intros H.
  match type of H with
  | context [segmentLoop _ _ _ ?st ?ws] =>
      destruct (segmentLoop urlWithHash fragment desiredExcerptLength st ws) as [st'|e] eqn:Hl
  end; [|discriminate].
  cbn in H. inversion H; subst. clear H.
  apply segmentLoop_partition in Hl; [|repeat constructor].
  destruct Hl as [HF Hc]. cbn in Hc. rewrite <- Hc.
  apply Forall_app in HF as [HR HC]. inversion HC as [|? ? Hcur _]; subst.
  destruct (addResult_cases st' (anchor_location <$> head (anchorsLeft st')))
    as [[Hnil ->]|[_ (e & ->)]].
  - rewrite (locations_nil _ Hcur Hnil), app_nil_r. auto.
  - split.
    + rewrite fmap_app, concat_app. cbn. rewrite app_nil_r. reflexivity.
    + apply Forall_app. split; [exact HR|]. constructor; [exact Hcur|constructor].
Qed.

(** X7. The sections that [calculateSubResults] returns share out the
    matches of the page: put end to end in the order of the sections,
    their weighted matches are the weighted matches of the page, in the
    order of the page, none lost and none repeated; and the offsets of a
    section are the offsets of its own weighted matches. *)
Theorem calculateSubResults_partition found :
  calculateSubResults urlWithHash fragment desiredExcerptLength = Return found ->
  concat (weighted_locations <$> found) = fragment_weighted_locations fragment
  /\ Forall (fun s => locations s = location <$> weighted_locations s) found.
Proof.
  intros H. split.
  - apply (calculateSubResults_shares found H).
  - apply (calculateSubResults_shares found H).
Qed.

(** X8. [calculateSubResults] returns at most one section more than the
    page has heading anchors, the anchors that pass the filter on the
    element name and the text. *)
Theorem calculateSubResults_count found :
  calculateSubResults urlWithHash fragment desiredExcerptLength = Return found ->
  (length found <= S (length (List.filter isHeading (anchors fragment))))%nat.
Proof.
  unfold calculateSubResults. intros H.
  match type of H with
  | context [segmentLoop _ _ _ ?st ?ws] =>
      destruct (segmentLoop urlWithHash fragment desiredExcerptLength st ws) as [st'|e] eqn:Hl
  end; [|discriminate].
  cbn in H. inversion H; subst. clear H.
  apply (segmentLoop_invariant
           (fun st => (length (results st) + length (anchorsLeft st)
                       <= length (List.filter isHeading (anchors fragment)))%nat))
    in Hl.
  - destruct (addResult_cases st' (anchor_location <$> head (anchorsLeft st')))
      as [[_ ->]|[_ (e & ->)]]; [lia|].
    rewrite length_app. cbn. lia.
  - intros st word st1 HP Hs.
    destruct (segmentStep_cases _ _ _ Hs)
      as [[-> _]|(first & rest & passed & reached & u & Ha & _ & Hp & _ & _ & Hr & _ & _)].
    + exact HP.
    + rewrite Hr. rewrite Ha in HP.
      assert (Hlen : (length (anchorsLeft st1) < length (first :: rest))%nat).
      { rewrite Hp, length_app. cbn. lia. }
      destruct (addResult_cases st (Some (anchor_location first)))
        as [[_ ->]|[_ (e & ->)]]; [lia|].
      rewrite length_app. cbn. cbn in Hlen. cbn in HP. lia.
  - cbn. unfold headingAnchors. rewrite sortAnchors_length. lia.
Qed.

(** X9. Of the sections that [calculateSubResults] returns only the first
    can be without an anchor, and it then carries the title and the url of
    the page.  Any other section is that of a heading anchor of the page:
    its title is the text of the anchor, its url is the url built for the
    id of the anchor, and its first match lies at or after the anchor. *)
Theorem calculateSubResults_headings found :
  calculateSubResults urlWithHash fragment desiredExcerptLength = Return found ->
  Forall (fun s =>
            match anchor s with
            | None =>
                title s = meta fragment !! lit "title"
                /\ url s = fragment_url fragment
            | Some a =>
                In a (anchors fragment) /\ isHeading a = true
                /\ title s = Some (text a)
                /\ anchoredUrl urlWithHash fragment (anchor_id a) = Return (url s)
                /\ exists w ws, weighted_locations s = w :: ws
                                /\ (anchor_location a <= location w)%Z
            end) found
  /\ Forall (fun s => anchor s <> None) (tail found).
Proof.
  unfold calculateSubResults. intros H.
  match type of H with
  | context [segmentLoop _ _ _ ?st ?ws] =>
      destruct (segmentLoop urlWithHash fragment desiredExcerptLength st ws) as [st'|e] eqn:Hl
  end; [|discriminate].
  cbn in H. inversion H; subst. clear H.
  match goal with
  | |- Forall ?Q _ /\ _ =>
      apply (segmentLoop_invariant
               (fun st =>
                  Forall Q (results st ++ [currentAnchor st])
                  /\ (forall a, In a (anchorsLeft st) ->
                                In a (anchors fragment) /\ isHeading a = true)
                  /\ Forall (fun s => anchor s <> None)
                            (tail (results st ++ [currentAnchor st])))) in Hl
  end.
  - destruct Hl as (HQ & _ & HT).
    destruct (addResult_cases st' (anchor_location <$> head (anchorsLeft st')))
      as [[_ ->]|[_ (e & ->)]].
    + apply Forall_app in HQ as [HQ _]. split; [exact HQ|].
      destruct (results st') as [|r rs]; [constructor|].
      cbn in HT. apply Forall_app in HT as [HT _]. exact HT.
    + split.
      * apply Forall_app in HQ as [HQ HC]. apply Forall_app. split; [exact HQ|].
        inversion HC; subst. constructor; [assumption|constructor].
      * destruct (results st') as [|r rs]; [constructor|].
        cbn in HT |- *. apply Forall_app in HT as [HT HC].
        apply Forall_app. split; [exact HT|].
        inversion HC; subst. constructor; [assumption|constructor].
  - intros st word st1 (HQ & HA & HT) Hs.
    apply Forall_app in HQ as [HQ HC]. inversion HC as [|? ? Hcur _]; subst.
    destruct (segmentStep_cases _ _ _ Hs)
      as [[-> _]|(first & rest & passed & reached & u & Ha & _ & Hp & Hloc & Hu & Hr & _ & Hc1)].
    + cbn. repeat split.
      * apply Forall_app. split; [exact HQ|]. constructor; [|constructor].
        cbn. destruct (anchor (currentAnchor st)) as [a|]; [|exact Hcur].
        destruct Hcur as (? & ? & ? & ? & w & ws & Hw & ?).
        repeat split; auto. exists w, (ws ++ [word]). rewrite Hw.
        split; [reflexivity|assumption].
      * apply HA. assumption.
      * apply HA. assumption.
      * destruct (results st) as [|r rs]; [constructor|].
        cbn in HT |- *. apply Forall_app in HT as [HT HC'].
        apply Forall_app. split; [exact HT|].
        inversion HC'; subst. constructor; [assumption|constructor].
    + assert (Hreached : In reached (anchorsLeft st)).
      { rewrite Ha, Hp. apply in_or_app. right. left. reflexivity. }
      rewrite Hr, Hc1. repeat split.
      * apply Forall_app. split.
        -- destruct (addResult_cases st (Some (anchor_location first)))
             as [[_ ->]|[_ (e & ->)]]; [exact HQ|].
           apply Forall_app. split; [exact HQ|]. constructor; [exact Hcur|constructor].
        -- constructor; [|constructor]. cbn.
           destruct (HA _ Hreached). repeat split; auto.
           exists word, []. auto.
      * apply HA. rewrite Ha, Hp. apply in_or_app. right. right. assumption.
      * apply HA. rewrite Ha, Hp. apply in_or_app. right. right. assumption.
      * destruct (addResult_cases st (Some (anchor_location first)))
          as [[_ ->]|[_ (e & ->)]].
        -- destruct (results st) as [|r rs]; cbn; [constructor|].
           cbn in HT. apply Forall_app in HT as [HT _].
           apply Forall_app. split; [exact HT|]. constructor; [discriminate|constructor].
        -- destruct (results st) as [|r rs]; cbn.
           ++ constructor; [discriminate|constructor].
           ++ cbn in HT. apply Forall_app in HT as [HT HC'].
              apply Forall_app. split; [|constructor; [discriminate|constructor]].
              apply Forall_app. split; [exact HT|].
              inversion HC'; subst. constructor; [assumption|constructor].
  - cbn. repeat split.
    + constructor; [cbn; auto|constructor].
    + unfold headingAnchors in H. apply sortAnchors_In, filter_In in H. apply H.
    + unfold headingAnchors in H. apply sortAnchors_In, filter_In in H. apply H.
    + constructor.
Qed.

End SubResultsInvariants.

Lemma calculateSubResults_partition_witness :
  exists found,
    calculateSubResults appendHash samplePage 3 = Return found
    /\ concat (weighted_locations <$> found) = fragment_weighted_locations samplePage
    /\ Forall (fun s => locations s = location <$> weighted_locations s) found.
Proof.
  eexists. split; [vm_compute; reflexivity|].
  apply (calculateSubResults_partition appendHash samplePage 3).
  vm_compute. reflexivity.
Defined.

Lemma calculateSubResults_count_witness :
  exists found,
    calculateSubResults appendHash samplePage 3 = Return found
    /\ (length found <= S (length (List.filter isHeading (anchors samplePage))))%nat.
Proof.
  eexists. split; [vm_compute; reflexivity|].
  apply (calculateSubResults_count appendHash samplePage 3).
  vm_compute. reflexivity.
Defined.

Lemma calculateSubResults_headings_witness :
  exists found,
    calculateSubResults appendHash samplePage 3 = Return found
    /\ Forall (fun s =>
                 match anchor s with
                 | None =>
                     title s = meta samplePage !! lit "title"
                     /\ url s = fragment_url samplePage
                 | Some a =>
                     In a (anchors samplePage) /\ isHeading a = true
                     /\ title s = Some (text a)
                     /\ anchoredUrl appendHash samplePage (anchor_id a) = Return (url s)
                     /\ exists w ws, weighted_locations s = w :: ws
                                     /\ (anchor_location a <= location w)%Z
                 end) found
    /\ Forall (fun s => anchor s <> None) (tail found).
Proof.
  eexists. split; [vm_compute; reflexivity|].
  apply (calculateSubResults_headings appendHash samplePage 3).
  vm_compute. reflexivity.
Defined.

(** ** Filters named by several blocks *)

(** X10. In the filters that [parseFilters] reads from a string that is
    not empty, the own property of a filter name is made of the value
    entries of the last block that names the filter, and of them alone: the
    values of the earlier blocks of the same name are dropped, not merged.
    A name that no block carries is no own property.  The name [__proto__]
    is never an own property: the last block of that name gives the
    prototype of the filters instead, and without such a block the
    prototype is left as it was. *)
Theorem parseFilters_last_block (c : N) (s f : jsstring) :
  ownFilters (parseFilters (Some (c :: s))) !! f
  = (if bool_decide (f = PROTO) then None
     else match last (List.filter (fun b => bool_decide (filterName b = f))
                                  (split (c :: s) FILTER_DELIM)) with
          | Some b => ownFilters (parseFilterBlock ∅ b) !! f
          | None => None
          end)
  /\ prototype (parseFilters (Some (c :: s)))
     = match last (List.filter (fun b => bool_decide (filterName b = PROTO))
                               (split (c :: s) FILTER_DELIM)) with
       | Some b => prototype (parseFilterBlock ∅ b)
       | None => None
       end.
Proof.
  unfold parseFilters. split.
  - destruct (bool_decide_reflect (f = PROTO)) as [->|Hf].
    + apply parseFilterBlocks_proto_own.
    + rewrite parseFilterBlocks_own by exact Hf.
      destruct (last _) as [b|] eqn:Hl; [|reflexivity].
      rewrite parseFilterBlock_own.
      assert (Hb : filterName b = f).
      { apply last_Some_elem_of, list_elem_of_In, filter_In in Hl as [_ Hl].
        apply bool_decide_eq_true in Hl. exact Hl. }
      rewrite (bool_decide_eq_true_2 _ Hb), (bool_decide_eq_false_2 _ Hf). reflexivity.
  - rewrite parseFilterBlocks_prototype.
    destruct (last _) as [b|] eqn:Hl; [|reflexivity].
    rewrite parseFilterBlock_prototype.
    assert (Hb : filterName b = PROTO).
    { apply last_Some_elem_of, list_elem_of_In, filter_In in Hl as [_ Hl].
      apply bool_decide_eq_true in Hl. exact Hl. }
    rewrite (bool_decide_eq_true_2 _ Hb). reflexivity.
Qed.

(** X11. Whatever the case table, a normalized query holds none of the
    punctuation marks that [search] strips, starts and ends with a unit
    that is not white space, and holds no two white-space units side by
    side. *)
Theorem normalize_shape (data : CaseData) (q : jsstring) :
  Forall (fun c => isStripped c = false) (normalize data q)
  /\ noWhiteSpaceRun (normalize data q)
  /\ headIsWhiteSpace (normalize data q) = false
  /\ headIsWhiteSpace (rev (normalize data q)) = false.
Proof.
  unfold normalize. repeat split.
  - apply trim_Forall, collapseRuns_Forall; [reflexivity|].
    apply stripPunctuation_clean.
  - apply trim_noWhiteSpaceRun, collapseRuns_noWhiteSpaceRun.
  - apply trim_head.
  - apply trim_last.
Qed.

(** ** A client that was not initialized *)

Lemma step_uninitialized {E} (engine : Engine E) rt (w : World E) ev :
  (wasm (client w) = false \/ rawPtr (client w) = None) ->
  promises w = [] -> waiting w = [] ->
  client (step engine rt w ev) = client w
  /\ promises (step engine rt w ev) = []
  /\ waiting (step engine rt w ev) = []
  /\ fetched (step engine rt w ev) = fetched w
  /\ engineCalls (step engine rt w ev) = engineCalls w
  /\ finished (step engine rt w ev)
     = finished w ++ (if isStartSearch ev
                      then [Throw (ErrorMessage NOT_INITIALIZED)] else []).
Proof.
  intros Hno Hp Hw. destruct ev as [term options|p r|i]; cbn [step isStartSearch].
  - unfold search.
    replace (negb (wasm (client w)) || bool_decide (rawPtr (client w) = None))
      with true.
    + cbn. repeat split; auto.
    + symmetry. destruct Hno as [->| ->]; [reflexivity|].
      rewrite bool_decide_eq_true_2 by reflexivity. apply orb_true_r.
  - unfold respond. rewrite Hp. cbn. rewrite app_nil_r. repeat split; auto.
  - rewrite Hw. cbn. rewrite app_nil_r. repeat split; auto.
Qed.

(** X12. On a client that has no engine or no pointer, as before [init],
    and on which nothing is loading or waiting, whatever happens next,
    every search that is started ends with the error that asks to call
    [init] first, no url is fetched and the engine is not called. *)
Theorem search_before_init {E} (engine : Engine E) (rt : Runtime)
    (evs : list event) (w : World E) :
  (wasm (client w) = false \/ rawPtr (client w) = None) ->
  promises w = [] -> waiting w = [] ->
  fetched (run engine rt evs w) = fetched w
  /\ engineCalls (run engine rt evs w) = engineCalls w
  /\ finished (run engine rt evs w)
     = finished w ++ replicate (length (List.filter isStartSearch evs))
                               (Throw (ErrorMessage NOT_INITIALIZED)).
Proof.
  revert w. induction evs as [|ev evs IH]; intros w Hno Hp Hw.
  - cbn. rewrite app_nil_r. auto.
  - destruct (step_uninitialized engine rt w ev Hno Hp Hw)
      as (Hc & Hp' & Hw' & Hf & He & Hfin).
    unfold run. cbn [fold_left]. fold (run engine rt evs (step engine rt w ev)).
    destruct (IH (step engine rt w ev)) as (IH1 & IH2 & IH3);
      [rewrite Hc; exact Hno|exact Hp'|exact Hw'|].
    rewrite IH1, IH2, IH3, Hf, He, Hfin. repeat split.
    cbn [List.filter]. destruct (isStartSearch ev); cbn.
    + rewrite <- app_assoc. reflexivity.
    + rewrite app_nil_r. reflexivity.
Qed.

Lemma search_before_init_witness :
  fetched (run sampleEngine sampleRuntime loadedTrace constructedWorld)
  = fetched constructedWorld
  /\ engineCalls (run sampleEngine sampleRuntime loadedTrace constructedWorld)
     = engineCalls constructedWorld
  /\ finished (run sampleEngine sampleRuntime loadedTrace constructedWorld)
     = finished constructedWorld
       ++ replicate (length (List.filter isStartSearch loadedTrace))
                    (Throw (ErrorMessage NOT_INITIALIZED)).
Proof.
  apply (search_before_init sampleEngine sampleRuntime loadedTrace constructedWorld).
  - left. reflexivity.
  - reflexivity.
  - reflexivity.
Defined.

(** ** The search after its await *)

Lemma promiseAll_rejected {E} (w : World E) e : forall ps,
  promiseAll ps w = Some (Throw e) ->
  exists p pr, In p ps /\ promises w !! p = Some pr /\ state pr = Rejected e.
Proof.
  induction ps as [|p ps IH]; cbn; [discriminate|]. intros H.
  destruct (promises w !! p) as [pr|] eqn:Hp; cbn in H.
  - destruct (state pr) as [| |e'] eqn:Hs.
    + destruct (promiseAll ps w) as [[[]|e']|] eqn:Hall; try discriminate.
      inversion H; subst. destruct (IH eq_refl) as (q & qr & Hq & Hl & Hst).
      exists q, qr. auto.
    + destruct (IH H) as (q & qr & Hq & Hl & Hst). exists q, qr. auto.
    + inversion H; subst. exists p, pr. auto.
  - destruct (promiseAll ps w) as [[[]|e']|] eqn:Hall; try discriminate.
    inversion H; subst. destruct (IH eq_refl) as (q & qr & Hq & Hl & Hst).
    exists q, qr. auto.
Qed.

Lemma promiseAll_fulfilled {E} (w : World E) : forall ps,
  promiseAll ps w = Some (Return tt) ->
  Forall (fun p => state <$> promises w !! p = Some Fulfilled) ps.
Proof.
  induction ps as [|p ps IH]; cbn; [constructor|]. intros H.
  destruct (state <$> promises w !! p) as [[| |e']|] eqn:Hp.
  - destruct (promiseAll ps w) as [[[]|e']|]; discriminate.
  - constructor; [exact Hp|apply IH, H].
  - discriminate.
  - destruct (promiseAll ps w) as [[[]|e']|]; discriminate.
Qed.

(** X13. When a suspended search goes on, either one of the chunk loads it
    waited for was rejected, and the search ends with the reason of the
    rejection without calling the engine or changing anything; or every
    load it waited for is fulfilled, and the engine is called once, for the
    search itself, with the normalized query, the filters, the sort and the
    exact flag kept from the start of the search.  In both cases nothing is
    fetched and the chunk store is left as it is. *)
Theorem resumeSearch_cases {E} (engine : Engine E) (rt : Runtime)
    (k : suspendedSearch) (w w' : World E) (r : outcome SearchResponse) :
  resumeSearch engine rt k w = Some (r, w') ->
  (exists e p pr,
      r = Throw e /\ w' = w
      /\ In p (awaited k) /\ promises w !! p = Some pr /\ state pr = Rejected e)
  \/ (Forall (fun p => state <$> promises w !! p = Some Fulfilled) (awaited k)
      /\ engineCalls w'
         = engineCalls w
           ++ [CallSearch (normalized k) (filterStr k) (sortStr k) (exact k)]
      /\ fetched w' = fetched w
      /\ promises w' = promises w
      /\ client w' = client w).
Proof.
  intros H. unfold resumeSearch in H.
  destruct (promiseAll (awaited k) w) as [[[]|e]|] eqn:Hall; [| |discriminate].
  2: { left. injection H as <- <-.
       destruct (promiseAll_rejected w e _ Hall) as (p & pr & Hp).
       exists e, p, pr. auto. }
  right. split; [apply promiseAll_fulfilled, Hall|].
  cbn [now] in H.
  assert (Hlog : forall b msg (w0 : World E),
             engineCalls (log b msg w0) = engineCalls w0
             /\ fetched (log b msg w0) = fetched w0
             /\ promises (log b msg w0) = promises w0
             /\ client (log b msg w0) = client w0)
    by (intros [] ? ?; cbn; auto).
  match type of H with
  | context [log ?b ?msg w] =>
      destruct (Hlog b msg w) as (L1 & L2 & L3 & L4);
      generalize dependent (log b msg w)
  end.
  intros w1 H L1 L2 L3 L4. cbn [engineState client] in H.
  destruct (wasmSearch engine (engineState w1) (default 0%Z (rawPtr (client w1)))
              (normalized k) (filterStr k) (sortStr k) (exact k)) as [e rawResult].
  match type of H with
  | context [parseResponse rt ?q ?raw] =>
      destruct (parseResponse rt q raw) as [[[[c found] fo] tfo]|err]
  end.
  - cbn [now] in H. inversion H; subst.
    match goal with
    | |- context [log ?b ?msg ?w0] => destruct (Hlog b msg w0) as (-> & -> & -> & ->)
    end.
    cbn. rewrite L1, L2, L3, L4. auto.
  - inversion H; subst. cbn. rewrite L1, L2, L3, L4. auto.
Qed.

Lemma resumeSearch_cases_witness :
  exists r w',
    resumeSearch sampleEngine sampleRuntime sampleSuspended sampleWorld = Some (r, w')
    /\ ((exists e p pr,
            r = Throw e /\ w' = sampleWorld
            /\ In p (awaited sampleSuspended)
            /\ promises sampleWorld !! p = Some pr /\ state pr = Rejected e)
        \/ (Forall (fun p => state <$> promises sampleWorld !! p = Some Fulfilled)
                   (awaited sampleSuspended)
            /\ engineCalls w'
               = engineCalls sampleWorld
                 ++ [CallSearch (normalized sampleSuspended) (filterStr sampleSuspended)
                                (sortStr sampleSuspended) (exact sampleSuspended)]
            /\ fetched w' = fetched sampleWorld
            /\ promises w' = promises sampleWorld
            /\ client w' = client sampleWorld)).
Proof.
  eexists _, _. split; [vm_compute; reflexivity|].
  apply (resumeSearch_cases sampleEngine sampleRuntime sampleSuspended sampleWorld).
  vm_compute. reflexivity.
Defined.

(** ** What the chunk store keeps *)

Lemma storeKept_frame {E} (w w' : World E) :
  loadedChunks (client w') = loadedChunks (client w) ->
  loadedFilters (client w') = loadedFilters (client w) ->
  promises w' = promises w ->
  storeKept w w'.
Proof.
  intros Hc Hf Hp. split.
  - intros [] h p H; cbn in *; congruence.
  - intros p pr H _. congruence.
  - intros p pr H. exists (state pr). rewrite Hp, H. destruct pr; reflexivity.
Qed.

Lemma storeKept_trans {E} (w1 w2 w3 : World E) :
  storeKept w1 w2 -> storeKept w2 w3 -> storeKept w1 w3.
Proof.
  intros [M1 S1 P1] [M2 S2 P2]. split.
  - intros k h p H. apply M2, M1, H.
  - intros p pr H Hs. apply S2; [apply S1; assumption|exact Hs].
  - intros p pr H. destruct (P1 _ _ H) as [st Hst].
    destruct (P2 _ _ Hst) as [st' Hst']. exists st'. exact Hst'.
Qed.

Lemma loadOf_kept {E} k h (w : World E) :
  loadedOf k (client (snd (loadOf k h w))) !! h = Some (fst (loadOf k h w))
  /\ storeKept w (snd (loadOf k h w))
  /\ engineCalls (snd (loadOf k h w)) = engineCalls w
  /\ engineState (snd (loadOf k h w)) = engineState w.
Proof.
  destruct (loadedOf k (client w) !! h) as [p|] eqn:Hl.
  - rewrite (loadOf_present k h p w Hl). cbn [fst snd].
    repeat split; auto. apply storeKept_frame; reflexivity.
  - destruct (loadOf_absent k h w Hl)
      as (w' & -> & _ & Hmap & Hother & Hp & _ & Hc & He & _). cbn [fst snd].
    split; [rewrite Hmap; apply lookup_insert_eq|]. split; [|auto]. split.
    + intros k0 h0 p0 H0. destruct (decide (k0 = k)) as [->|Hk].
      * rewrite Hmap, lookup_insert_ne; [exact H0|]. intros ->. congruence.
      * rewrite (Hother k0 Hk). exact H0.
    + intros p pr H _. rewrite Hp. apply lookup_app_l_Some, H.
    + intros p pr H. exists (state pr). rewrite Hp.
      rewrite (lookup_app_l_Some _ _ _ _ H). destruct pr; reflexivity.
Qed.

Lemma loadEach_kept {E} k hashes : forall (w : World E),
  Forall2 (fun h p => loadedOf k (client (snd (loadEach (loadOf k) hashes w))) !! h = Some p)
          hashes (fst (loadEach (loadOf k) hashes w))
  /\ storeKept w (snd (loadEach (loadOf k) hashes w))
  /\ engineCalls (snd (loadEach (loadOf k) hashes w)) = engineCalls w
  /\ engineState (snd (loadEach (loadOf k) hashes w)) = engineState w.
Proof.
  induction hashes as [|h hs IH]; intros w; cbn [loadEach].
  - cbn. repeat split; auto. apply storeKept_frame; reflexivity.
  - destruct (loadOf_kept k h w) as (Hh & Hk & Hc & He).
    destruct (loadOf k h w) as [p w1]. cbn [fst snd] in *.
    destruct (IH w1) as (IHf & IHk & IHc & IHe).
    destruct (loadEach (loadOf k) hs w1) as [ps w2]. cbn [fst snd] in *.
    split; [|split; [exact (storeKept_trans _ _ _ Hk IHk)|split; congruence]].
    constructor; [|exact IHf]. apply (kept_maps _ _ IHk), Hh.
Qed.

(** X14. On an initialized client, a search whose normalized query is not
    empty asks the engine first for the index chunks of the query, then
    for the filter chunks of the filters, and stops at its await with one
    promise for each hash named in the two answers, in their order: the
    promise that the client has stored for the chunk of that hash.  It
    keeps the normalized query, the filters, the sort and the exact flag
    for the call of the search. *)
Theorem search_awaits_requested {E} (engine : Engine E) (rt : Runtime)
    (term : jsstring) (options : searchOptions) (w : World E) (ptr : Z) :
  wasm (client w) = true ->
  rawPtr (client w) = Some ptr ->
  normalize (caseData rt) term <> [] ->
  let query := normalize (caseData rt) term in
  let filterJson := stringifyFilters rt (default [] (filters options)) in
  let asked := requestIndexes engine (engineState w) ptr query in
  let askedFilters := requestFilterIndexes engine (fst asked) ptr filterJson in
  exists k w',
    search engine rt term options w = (Awaiting k, w')
    /\ engineCalls w'
       = engineCalls w ++ [CallRequestIndexes query; CallRequestFilterIndexes filterJson]
    /\ engineState w' = fst askedFilters
    /\ Forall2 (fun h p => loadedChunks (client w') !! h = Some p)
               (List.filter nonEmpty (split (snd asked) (lit " ")))
               (take (chunkLoads k) (awaited k))
    /\ Forall2 (fun h p => loadedFilters (client w') !! h = Some p)
               (List.filter nonEmpty (split (snd askedFilters) (lit " ")))
               (drop (chunkLoads k) (awaited k))
    /\ normalized k = query /\ filterStr k = filterJson
    /\ sortStr k = stringifySorts (default [] (sort options))
    /\ exact k = exactSearch term.
Proof.
  intros Hwasm Hptr Hq. cbv zeta.
  unfold search. rewrite Hwasm, Hptr. cbn [negb orb].
  change (default 0%Z (Some ptr)) with ptr.
  rewrite bool_decide_eq_false_2 by discriminate. cbn [now].
  assert (Hlog : forall b msg (w0 : World E),
             engineCalls (log b msg w0) = engineCalls w0
             /\ engineState (log b msg w0) = engineState w0)
    by (intros [] ? ?; cbn; auto).
  match goal with
  | |- context [log ?b ?msg ?w0] =>
      destruct (Hlog b msg w0) as (L1 & L2);
      generalize dependent (log b msg w0)
  end.
  intros w1 L1 L2. cbn in L1, L2.
  rewrite bool_decide_eq_false_2 by exact Hq.
  rewrite L2.
  destruct (requestIndexes engine (engineState w) ptr (normalize (caseData rt) term))
    as [e1 indexResp].
  cbn [engineCalled engineState fst snd].
  destruct (requestFilterIndexes engine e1 ptr
              (stringifyFilters rt (default [] (filters options))))
    as [e2 filterResp].
  cbn [fst snd].
  match goal with
  | |- context [loadEach loadChunk ?hs ?w3] =>
      destruct (loadEach_kept IndexChunk hs w3) as (F1 & K1 & C1 & E1);
      change (loadOf IndexChunk) with (@loadChunk E) in F1, K1, C1, E1;
      destruct (loadEach loadChunk hs w3) as [ps1 w4]
  end.
  cbn [fst snd] in F1, K1, C1, E1.
  match goal with
  | |- context [loadEach loadFilterChunkByHash ?hs ?w4] =>
      destruct (loadEach_kept FilterChunk hs w4) as (F2 & K2 & C2 & E2);
      change (loadOf FilterChunk) with (@loadFilterChunkByHash E) in F2, K2, C2, E2;
      destruct (loadEach loadFilterChunkByHash hs w4) as [ps2 w5]
  end.
  cbn [fst snd] in F2, K2, C2, E2.
  eexists _, _. split; [reflexivity|].
  cbn [awaited chunkLoads normalized filterStr sortStr exact].
  rewrite take_app_length, drop_app_length.
  split; [rewrite C2, C1; cbn; rewrite L1, <- app_assoc; reflexivity|].
  split; [rewrite E2, E1; reflexivity|].
  split; [|split; [exact F2|repeat split]].
  eapply Forall2_impl; [exact F1|]. intros h p H.
  apply (kept_maps _ _ K2 IndexChunk), H.
Qed.

Lemma search_awaits_requested_witness :
  let query := normalize (caseData sampleRuntime) (lit "Hello") in
  let filterJson := stringifyFilters sampleRuntime (default [] (filters noOptions)) in
  let asked := requestIndexes sampleEngine (engineState sampleWorld) 8 query in
  let askedFilters := requestFilterIndexes sampleEngine (fst asked) 8 filterJson in
  exists k w',
    search sampleEngine sampleRuntime (lit "Hello") noOptions sampleWorld = (Awaiting k, w')
    /\ engineCalls w'
       = engineCalls sampleWorld
         ++ [CallRequestIndexes query; CallRequestFilterIndexes filterJson]
    /\ engineState w' = fst askedFilters
    /\ Forall2 (fun h p => loadedChunks (client w') !! h = Some p)
               (List.filter nonEmpty (split (snd asked) (lit " ")))
               (take (chunkLoads k) (awaited k))
    /\ Forall2 (fun h p => loadedFilters (client w') !! h = Some p)
               (List.filter nonEmpty (split (snd askedFilters) (lit " ")))
               (drop (chunkLoads k) (awaited k))
    /\ normalized k = query /\ filterStr k = filterJson
    /\ sortStr k = stringifySorts (default [] (sort noOptions))
    /\ exact k = exactSearch (lit "Hello").
Proof.
  apply (search_awaits_requested sampleEngine sampleRuntime (lit "Hello") noOptions
                                 sampleWorld 8).
  - reflexivity.
  - reflexivity.
  - vm_compute. discriminate.
Defined.

Lemma respond_kept {E} (engine : Engine E) rt p r (w : World E) :
  storeKept w (respond engine rt p r w).
Proof.
  unfold respond.
  destruct (promises w !! p) as [[k h []]|] eqn:Hp;
    try (apply storeKept_frame; reflexivity).
  assert (Hsettle : forall s (w' : World E),
             loadedChunks (client w') = loadedChunks (client w) ->
             loadedFilters (client w') = loadedFilters (client w) ->
             promises w' = settle p s (promises w) ->
             storeKept w w').
  { intros s w' Hc Hf Hps. split.
    - intros [] h0 p0 H; cbn in *; congruence.
    - intros q qr Hq Hs. rewrite Hps, settle_lookup.
      destruct (decide (p = q)) as [<-|_]; [|exact Hq].
      rewrite Hp in Hq. inversion Hq; subst. contradiction.
    - intros q qr Hq. rewrite Hps, settle_lookup.
      destruct (decide (p = q)) as [<-|_].
      + rewrite Hq. cbn. eexists. reflexivity.
      + exists (state qr). rewrite Hq. destruct qr; reflexivity. }
  destruct (fetchAndDecompress rt _ r) as [chunk|e];
    [|apply (Hsettle (Rejected e)); reflexivity].
  destruct (wasm (client w)); [|apply (Hsettle (Rejected TypeError)); reflexivity].
  destruct k; cbn;
    match goal with
    | |- context [?f engine (engineState w) ?a ?b] =>
        destruct (f engine (engineState w) a b) as [e ptr']
    end;
    apply (Hsettle Fulfilled); reflexivity.
Qed.

Lemma search_kept {E} (engine : Engine E) rt term options (w : World E) :
  storeKept w (snd (search engine rt term options w)).
Proof.
  unfold search.
  destruct (negb (wasm (client w)) || bool_decide (rawPtr (client w) = None));
    [apply storeKept_frame; reflexivity|].
  cbn [now].
  match goal with
  | |- context [log ?b ?msg ?w0] =>
      assert (H1 : storeKept w (log b msg w0))
        by (apply storeKept_frame; destruct b; reflexivity);
      generalize dependent (log b msg w0)
  end.
  intros w1 H1.
  destruct (bool_decide (normalize (caseData rt) term = [])); [exact H1|].
  destruct (requestIndexes engine (engineState w1) (default 0%Z (rawPtr (client w)))
              (normalize (caseData rt) term)) as [e1 indexResp].
  match goal with
  | |- context [requestFilterIndexes engine (engineState ?w2) ?a ?b] =>
      destruct (requestFilterIndexes engine (engineState w2) a b) as [e2 filterResp]
  end.
  match goal with
  | |- context [loadEach loadChunk ?hs ?w3] =>
      assert (H3 : storeKept w w3)
        by (apply (storeKept_trans _ _ _ H1); apply storeKept_frame; reflexivity);
      destruct (loadEach_kept IndexChunk hs w3) as (_ & K1 & _);
      change (loadOf IndexChunk) with (@loadChunk E) in K1;
      destruct (loadEach loadChunk hs w3) as [ps1 w4]
  end.
  cbn [snd] in K1.
  match goal with
  | |- context [loadEach loadFilterChunkByHash ?hs ?w4] =>
      destruct (loadEach_kept FilterChunk hs w4) as (_ & K2 & _);
      change (loadOf FilterChunk) with (@loadFilterChunkByHash E) in K2;
      destruct (loadEach loadFilterChunkByHash hs w4) as [ps2 w5]
  end.
  cbn [snd] in K2 |- *.
  exact (storeKept_trans _ _ _ H3 (storeKept_trans _ _ _ K1 K2)).
Qed.

Lemma resumeSearch_kept {E} (engine : Engine E) rt k (w w' : World E) r :
  resumeSearch engine rt k w = Some (r, w') -> storeKept w w'.
Proof.
  intros H. unfold resumeSearch in H.
  destruct (promiseAll (awaited k) w) as [[[]|e]|]; [| |discriminate].
  2: { injection H as <- <-. apply storeKept_frame; reflexivity. }
  cbn [now] in H.
  match type of H with
  | context [log ?b ?msg w] =>
      assert (H1 : storeKept w (log b msg w))
        by (apply storeKept_frame; destruct b; reflexivity);
      generalize dependent (log b msg w)
  end.
  intros w1 H H1. cbn [engineState client] in H.
  destruct (wasmSearch engine (engineState w1) (default 0%Z (rawPtr (client w1)))
              (normalized k) (filterStr k) (sortStr k) (exact k)) as [e rawResult].
  match type of H with
  | context [parseResponse rt ?q ?raw] =>
      destruct (parseResponse rt q raw) as [[[[c found] fo] tfo]|err]
  end.
  - cbn [now] in H. inversion H; subst. apply (storeKept_trans _ _ _ H1).
    apply storeKept_frame; destruct (beVerbose k); reflexivity.
  - inversion H; subst. apply (storeKept_trans _ _ _ H1).
    apply storeKept_frame; reflexivity.
Qed.

Lemma step_kept {E} (engine : Engine E) rt (w : World E) ev :
  storeKept w (step engine rt w ev).
Proof.
  destruct ev as [term options|p r|i]; cbn [step].
  - pose proof (search_kept engine rt term options w) as H.
    destruct (search engine rt term options w) as [[e|r|k] w1]; cbn [snd] in H;
      apply (storeKept_trans _ _ _ H); apply storeKept_frame; reflexivity.
  - apply respond_kept.
  - destruct (waiting w !! i) as [k|]; [|apply storeKept_frame; reflexivity].
    destruct (resumeSearch engine rt k w) as [[r w1]|] eqn:Hr;
      [|apply storeKept_frame; reflexivity].
    apply (storeKept_trans _ _ _ (resumeSearch_kept engine rt k w w1 r Hr)).
    apply storeKept_frame; reflexivity.
Qed.

(** X15. Whatever searches, answers of the network and resumptions follow,
    the promise stored for a chunk stays the promise stored for it, and a
    promise that is settled stays as it is: a chunk that was loaded is not
    loaded again, and a chunk whose load was rejected is not tried again,
    so every later search that needs it waits for the same rejected
    promise. *)
Theorem chunk_store_keeps {E} (engine : Engine E) (rt : Runtime)
    (evs : list event) (w : World E) :
  (forall k h p,
      loadedOf k (client w) !! h = Some p ->
      loadedOf k (client (run engine rt evs w)) !! h = Some p)
  /\ (forall p pr,
        promises w !! p = Some pr -> state pr <> Pending ->
        promises (run engine rt evs w) !! p = Some pr).
Proof.
  assert (H : storeKept w (run engine rt evs w)).
  { revert w. induction evs as [|ev evs IH]; intros w.
    - apply storeKept_frame; reflexivity.
    - exact (storeKept_trans _ _ _ (step_kept engine rt w ev) (IH _)). }
  destruct H as [M S _]. split; assumption.
Qed.

(** ** Reading a response of the right shape *)

Lemma matchFilterGroups_absent s : forall pre,
  includes s UNFILTERED_DELIM = false -> matchFilterGroups pre s = None.
Proof.
  induction s as [|x s IH]; intros pre H; [reflexivity|].
  cbn [includes] in H. apply orb_false_iff in H as [Hs Hi].
  cbn [matchFilterGroups]. rewrite (IH _ Hi), Hs.
  destruct (isLineTerminator x); reflexivity.
Qed.

Lemma matchFilterGroups_complete t f : forall pre,
  forallb (fun d => negb (isLineTerminator d)) f = true ->
  forallb (fun d => negb (isLineTerminator d)) t = true ->
  includes (drop 1 (UNFILTERED_DELIM ++ t)) UNFILTERED_DELIM = false ->
  matchFilterGroups pre (f ++ UNFILTERED_DELIM ++ t) = Some (rev pre ++ f, t).
Proof.
  induction f as [|x f IH]; intros pre Hf Ht Hlast.
  - rewrite app_nil_r. cbn [app].
    destruct (UNFILTERED_DELIM ++ t) as [|d rest] eqn:Hs; [discriminate|].
    cbn [drop] in Hlast. cbn [matchFilterGroups].
    rewrite (matchFilterGroups_absent _ _ Hlast), <- Hs.
    rewrite startsWith_prefix, drop_app_length, Ht.
    destruct (isLineTerminator d); reflexivity.
  - cbn in Hf. apply andb_true_iff in Hf as [Hx Hf].
    apply negb_true_iff in Hx. cbn [app matchFilterGroups].
    rewrite Hx, (IH (x :: pre) Hf Ht Hlast). cbn. rewrite <- app_assoc. reflexivity.
Qed.

Lemma splitResponse_complete c rest r f t : forall pre,
  forallb (fun x => negb (x =? 58)) c = true ->
  matchAtColon rest = Some (r, f, t) ->
  splitResponse pre (c ++ 58 :: rest) = Some (rev pre ++ c, r, f, t).
Proof.
  induction c as [|x c IH]; intros pre Hc Hm; cbn.
  - rewrite Hm, app_nil_r. reflexivity.
  - cbn in Hc. apply andb_true_iff in Hc as [Hx Hc].
    apply negb_true_iff in Hx. rewrite Hx, (IH (x :: pre) Hc Hm).
    cbn. rewrite <- app_assoc. reflexivity.
Qed.

(** X16. A response of the engine made of a count and a list of results
    without a colon, a filter part and a totals part without a line
    terminator, joined by two colons and the delimiter, where the delimiter
    occurs nowhere after its own place, is read back into these four
    pieces: the count, the results parsed one by one, and the two filter
    maps parsed from the filter part and from the totals part. *)
Theorem parseResponse_well_formed (rt : Runtime) (query c r f t : jsstring) :
  forallb (fun x => negb (x =? 58)) c = true ->
  forallb (fun x => negb (x =? 58)) r = true ->
  forallb (fun d => negb (isLineTerminator d)) f = true ->
  forallb (fun d => negb (isLineTerminator d)) t = true ->
  includes (drop 1 (UNFILTERED_DELIM ++ t)) UNFILTERED_DELIM = false ->
  parseResponse rt query (c ++ [58] ++ r ++ [58] ++ f ++ UNFILTERED_DELIM ++ t)
  = (found ← (if nonEmpty r then parseEach rt query (split r (lit " "))
              else Return []);
     Return (c, found, parseFilters (Some f), parseFilters (Some t))).
Proof.
  intros Hc Hr Hf Ht Hlast. unfold parseResponse.
  cbn [app]. rewrite (splitResponse_complete c _ r f t [] Hc); [reflexivity|].
  unfold matchAtColon. rewrite (untilColon_complete r _ [] Hr). cbn [rev app].
  rewrite (matchFilterGroups_complete t f [] Hf Ht Hlast). reflexivity.
Qed.

Lemma parseResponse_well_formed_witness :
  parseResponse sampleRuntime (lit "q")
    (lit "2" ++ [58] ++ lit "a@1@1>1>0 b@1@" ++ [58] ++ lit "tag:x:1"
     ++ UNFILTERED_DELIM ++ lit "tag:x:2")
  = (found ← (if nonEmpty (lit "a@1@1>1>0 b@1@")
              then parseEach sampleRuntime (lit "q") (split (lit "a@1@1>1>0 b@1@") (lit " "))
              else Return []);
     Return (lit "2", found, parseFilters (Some (lit "tag:x:1")),
             parseFilters (Some (lit "tag:x:2")))).
Proof.
  apply (parseResponse_well_formed sampleRuntime (lit "q") (lit "2")
           (lit "a@1@1>1>0 b@1@") (lit "tag:x:1") (lit "tag:x:2"));
    vm_compute; reflexivity.
Defined.

Lemma splitGo_unit_length (c : N) s : forall cur,
  length (splitGo [c] 0 cur s) = S (length (List.filter (N.eqb c) s)).
Proof.
  induction s as [|x s IH]; intros cur; [reflexivity|].
  cbn [splitGo startsWith List.filter length Nat.sub].
  rewrite (N.eqb_sym c x). destruct (x =? c).
  - replace (startsWith s []) with true by (destruct s; reflexivity).
    cbn [andb length]. rewrite IH. reflexivity.
  - cbn [andb]. apply IH.
Qed.

(** X17. Reading one entry of the list of results throws a [TypeError]
    exactly when the entry holds fewer than two [@] signs, so that its
    third part, the locations, is missing; any other entry is read. *)
Theorem parseResult_missing_locations (rt : Runtime) (query r : jsstring) :
  parseResult rt query r = Throw TypeError
  <-> (length (List.filter (N.eqb 64) r) < 2)%nat.
Proof.
  unfold parseResult.
  pose proof (splitGo_unit_length 64 r []) as Hlen.
  change (splitGo [64] 0 [] r) with (split r (lit "@")) in Hlen.
  destruct (split r (lit "@") !! 2%nat) as [allLocations|] eqn:Hl.
  - apply lookup_lt_Some in Hl. split; [discriminate|lia].
  - apply lookup_ge_None in Hl. split; [lia|reflexivity].
Qed.

(** ** The constructor and the choice of the language *)

Lemma replaceTrailingSlash_spec s :
  replaceTrailingSlash s = if bool_decide (last s = Some 47) then s else s ++ [47].
Proof.
  induction s as [|c rest IH]; [reflexivity|]. cbn [replaceTrailingSlash].
  destruct rest as [|d rest].
  - cbn. destruct (N.eqb_spec c 47) as [->|Hne]; cbn.
    + rewrite bool_decide_eq_true_2 by reflexivity. reflexivity.
    + rewrite bool_decide_eq_false_2 by congruence. reflexivity.
  - cbn [nonEmpty negb]. rewrite andb_false_r, IH.
    change (last (c :: d :: rest)) with (last (d :: rest)).
    destruct (bool_decide (last (d :: rest) = Some 47)); reflexivity.
Qed.

(** X19. The base path that the constructor keeps is the one it is given
    when that ends with a slash, and the one it is given with a slash added
    otherwise: one slash at most is added, none is removed, and the base
    path kept always ends with a slash, so that making a client from the
    base path of a client gives the same base path. *)
Theorem newPagefindClient_basePath (options : NodePagefindOptions) :
  basePath (newPagefindClient options)
  = (if bool_decide (last (options_basePath options) = Some 47)
     then options_basePath options
     else options_basePath options ++ [47])
  /\ last (basePath (newPagefindClient options)) = Some 47
  /\ replaceTrailingSlash (basePath (newPagefindClient options))
     = basePath (newPagefindClient options).
Proof.
  cbn [newPagefindClient basePath].
  assert (Hlast : last (replaceTrailingSlash (options_basePath options)) = Some 47).
  { rewrite replaceTrailingSlash_spec.
    destruct (bool_decide_reflect (last (options_basePath options) = Some 47)) as [H|_];
      [exact H|apply last_snoc]. }
  split; [apply replaceTrailingSlash_spec|]. split; [exact Hlast|].
  rewrite (replaceTrailingSlash_spec (replaceTrailingSlash _)).
  rewrite bool_decide_eq_true_2 by exact Hlast. reflexivity.
Qed.

Lemma sortLanguages_head a l :
  exists before picked after,
    head (sortLanguages (a :: l)) = Some picked
    /\ a :: l = before ++ picked :: after
    /\ Forall (fun b => (page_count b < page_count picked)%Z) before
    /\ Forall (fun b => (page_count b <= page_count picked)%Z) after.
Proof.
  revert a. induction l as [|b l IH]; intros a.
  - exists [], a, []. cbn. repeat split; constructor.
  - destruct (IH b) as (before & picked & after & Hh & Hl & Hb & Ha).
    change (sortLanguages (a :: b :: l)) with (insertLanguage a (sortLanguages (b :: l))).
    destruct (sortLanguages (b :: l)) as [|m rest]; [discriminate|].
    cbn in Hh. inversion Hh; subst m. cbn [insertLanguage].
    destruct (Z.leb_spec (page_count picked) (page_count a)) as [Hle|Hgt].
    + exists [], a, (b :: l). cbn. repeat split; [constructor|].
      rewrite Hl. apply Forall_app. split.
      * eapply Forall_impl; [exact Hb|]. cbn. intros; lia.
      * constructor; [exact Hle|]. eapply Forall_impl; [exact Ha|]. cbn. intros; lia.
    + exists (a :: before), picked, after. cbn. rewrite Hl.
      repeat split; [constructor; [lia|exact Hb]|exact Ha].
Qed.

(** X20. Without a language index [init] throws [No language indexes
    found]; otherwise the index it loads is the first, in the order of the
    entry file, of those that have the most pages: every index before it
    has fewer pages and no index after it has more. *)
Theorem pickLanguage_first_largest (langEntries : list LanguageIndex) :
  (langEntries = [] /\ pickLanguage langEntries = Throw (ErrorMessage NO_LANGUAGE))
  \/ exists before picked after,
       pickLanguage langEntries = Return picked
       /\ langEntries = before ++ picked :: after
       /\ Forall (fun b => (page_count b < page_count picked)%Z) before
       /\ Forall (fun b => (page_count b <= page_count picked)%Z) after.
Proof.
  destruct langEntries as [|a l]; [left; split; reflexivity|]. right.
  destruct (sortLanguages_head a l) as (before & picked & after & Hh & Hrest).
  exists before, picked, after. split; [|exact Hrest].
  unfold pickLanguage. rewrite Hh. reflexivity.
Qed.

(** ** The fragment handed to the caller *)

Lemma escapeAngles_clean s :
  Forall (fun c => c <> 60 /\ c <> 62) (escapeAngles s).
Proof.
  unfold escapeAngles.
  assert (H1 : Forall (fun c => c <> 60)
                      (flat_map (fun c => if c =? 60 then lit "&lt;" else [c]) s)).
  { induction s as [|c s IH]; [constructor|]. cbn [flat_map].
    apply Forall_app. split; [|exact IH].
    destruct (N.eqb_spec c 60) as [->|Hne].
    - repeat constructor; discriminate.
    - repeat constructor. exact Hne. }
  induction H1 as [|c l Hc _ IH]; [constructor|]. cbn [flat_map].
  apply Forall_app. split; [|exact IH].
  destruct (N.eqb_spec c 62) as [->|Hne].
  - repeat constructor; discriminate.
  - repeat constructor; assumption.
Qed.

Lemma removeZws_clean s : Forall (fun c => c <> 8203) (removeZws s).
Proof.
  unfold removeZws. apply List.Forall_forall. intros c Hc.
  apply filter_In in Hc as [_ Hc]. apply negb_true_iff, N.eqb_neq in Hc. exact Hc.
Qed.

(** X21. The fragment that [loadFragment] hands to the caller carries the
    matches of the search, not those stored with the page: its weighted
    matches are the ones passed in, its offsets are their offsets, and its
    sections share out exactly these matches.  Its excerpt is cut from the
    raw content at the start that [calculateExcerptRegion] gives.  A raw
    content that the stored page has is kept with the content; one that is
    missing or empty is derived from the content with every angle bracket
    escaped, so that it holds none, and the content then loses every
    zero-width space. *)
Theorem loadFragment_search_data
    (urlWithHash : jsstring -> jsstring -> option jsstring) (excerptLength : Z)
    (stored : PagefindFragment) (weightedLocations : list WeightedLocation)
    (lf : LoadedFragment) :
  attachSearchData urlWithHash excerptLength stored weightedLocations = Return lf ->
  fragment_weighted_locations (loaded lf) = weightedLocations
  /\ loaded_locations lf = location <$> weightedLocations
  /\ concat (weighted_locations <$> loaded_sub_results lf) = weightedLocations
  /\ exists raw,
       raw_content (loaded lf) = Some raw
       /\ loaded_excerpt lf
          = buildExcerpt raw (calculateExcerptRegion weightedLocations excerptLength)
                         excerptLength (location <$> weightedLocations) None None
       /\ ((raw_content stored = Some raw /\ raw <> []
            /\ content (loaded lf) = content stored)
           \/ ((raw_content stored = None \/ raw_content stored = Some [])
               /\ raw = escapeAngles (content stored)
               /\ Forall (fun c => c <> 60 /\ c <> 62) raw
               /\ content (loaded lf) = removeZws (content stored)
               /\ Forall (fun c => c <> 8203) (content (loaded lf)))).
Proof.
  unfold attachSearchData. intros H.
  assert (Hcase :
    exists raw text,
      match raw_content stored with
      | Some (c :: rest) => (c :: rest, content stored)
      | _ => (escapeAngles (content stored), removeZws (content stored))
      end = (raw, text)
      /\ ((raw_content stored = Some raw /\ raw <> [] /\ text = content stored)
          \/ ((raw_content stored = None \/ raw_content stored = Some [])
              /\ raw = escapeAngles (content stored)
              /\ Forall (fun c => c <> 60 /\ c <> 62) raw
              /\ text = removeZws (content stored)
              /\ Forall (fun c => c <> 8203) text))).
  { destruct (raw_content stored) as [[|c rest]|].
    - eexists _, _. split; [reflexivity|]. right.
      split; [right; reflexivity|]. split; [reflexivity|].
      split; [apply escapeAngles_clean|]. split; [reflexivity|apply removeZws_clean].
    - eexists _, _. split; [reflexivity|]. left. repeat split. discriminate.
    - eexists _, _. split; [reflexivity|]. right.
      split; [left; reflexivity|]. split; [reflexivity|].
      split; [apply escapeAngles_clean|]. split; [reflexivity|apply removeZws_clean]. }
  destruct Hcase as (raw & text & Heq & Hcase). rewrite Heq in H. cbv zeta in H.
  match type of H with
  | context [calculateSubResults urlWithHash ?f excerptLength] =>
      destruct (calculateSubResults urlWithHash f excerptLength) as [found|e] eqn:Hsub;
        [|discriminate]
  end.
  cbn in H. inversion H; subst lf. clear H. cbn.
  apply calculateSubResults_shares in Hsub as [Hsub _]. cbn in Hsub.
  split; [reflexivity|]. split; [reflexivity|]. split; [exact Hsub|].
  exists raw. split; [reflexivity|]. split; [reflexivity|].
  destruct Hcase as [(H1 & H2 & ->)|(H1 & H2 & H3 & -> & H5)]; [left|right]; auto.
Qed.

Lemma loadFragment_search_data_witness :
  exists lf,
    attachSearchData appendHash 3 storedPage [matchAt 0; matchAt 1; matchAt 3; matchAt 7]
    = Return lf
    /\ fragment_weighted_locations (loaded lf) = [matchAt 0; matchAt 1; matchAt 3; matchAt 7]
    /\ loaded_locations lf = location <$> [matchAt 0; matchAt 1; matchAt 3; matchAt 7]
    /\ concat (weighted_locations <$> loaded_sub_results lf)
       = [matchAt 0; matchAt 1; matchAt 3; matchAt 7]
    /\ exists raw,
         raw_content (loaded lf) = Some raw
         /\ loaded_excerpt lf
            = buildExcerpt raw
                (calculateExcerptRegion [matchAt 0; matchAt 1; matchAt 3; matchAt 7] 3)
                3 (location <$> [matchAt 0; matchAt 1; matchAt 3; matchAt 7]) None None
         /\ ((raw_content storedPage = Some raw /\ raw <> []
              /\ content (loaded lf) = content storedPage)
             \/ ((raw_content storedPage = None \/ raw_content storedPage = Some [])
                 /\ raw = escapeAngles (content storedPage)
                 /\ Forall (fun c => c <> 60 /\ c <> 62) raw
                 /\ content (loaded lf) = removeZws (content storedPage)
                 /\ Forall (fun c => c <> 8203) (content (loaded lf)))).
Proof.
  eexists. split; [vm_compute; reflexivity|].
  apply (loadFragment_search_data appendHash 3 storedPage
           [matchAt 0; matchAt 1; matchAt 3; matchAt 7]).
  vm_compute. reflexivity.
Defined.

(** ** The command line *)

Section CommandLineFacts.

Variable parseInt10 : option jsstring -> float.

Lemma isValueOrHelpFlag_false a :
  isValueOrHelpFlag a = false ->
  sameString a "--base-path" = false /\ sameString a "--limit" = false
  /\ (sameString a "--help" || sameString a "-h") = false.
Proof.
  unfold isValueOrHelpFlag. intros H.
  apply orb_false_iff in H as [H Hh]. apply orb_false_iff in H as [H Hhelp].
  apply orb_false_iff in H as [Hb Hl]. rewrite Hhelp, Hh. auto.
Qed.

Lemma sameString_switches a :
  sameString a "--json" = true -> sameString a "--verbose" = false.
Proof.
  unfold sameString. intros H. apply bool_decide_eq_true in H. subst a. reflexivity.
Qed.

(** Without a flag that takes a value or prints the usage, the loop reads
    the switches and keeps the other arguments in their order. *)
Lemma parseArgsLoop_switches args : forall opts positional,
  forallb (fun a => negb (isValueOrHelpFlag a)) args = true ->
  parseArgsLoop parseInt10 opts positional args
  = Parsed {| cli_query :=
                join (Some <$> positional
                               ++ List.filter (fun a => negb (isSwitch a)) args) [32];
              cli_basePath := cli_basePath opts;
              cli_limit := cli_limit opts;
              cli_json := cli_json opts || existsb (fun a => sameString a "--json") args;
              cli_verbose :=
                cli_verbose opts || existsb (fun a => sameString a "--verbose") args |}.
Proof.
  induction args as [|a rest IH]; intros opts positional H.
  - cbn. unfold withQuery. rewrite app_nil_r, !orb_false_r. reflexivity.
  - cbn [forallb] in H. apply andb_true_iff in H as [Ha Hrest].
    apply negb_true_iff, isValueOrHelpFlag_false in Ha as (Hb & Hl & Hh).
    cbn [parseArgsLoop]. rewrite Hb, Hl, Hh.
    cbn [List.filter existsb]. unfold isSwitch.
    destruct (sameString a "--json") eqn:Hj.
    + rewrite (sameString_switches a Hj). rewrite IH by exact Hrest.
      cbn. rewrite orb_true_r. reflexivity.
    + destruct (sameString a "--verbose") eqn:Hv.
      * rewrite IH by exact Hrest. cbn. rewrite orb_true_r. reflexivity.
      * rewrite IH by exact Hrest. cbn. rewrite <- app_assoc. reflexivity.
Qed.

(** X22. When no argument is [--base-path], [--limit], [--help] or [-h],
    [parseArgs] keeps the default base path and the default limit of ten,
    sets [json] and [verbose] exactly when [--json] and [--verbose] are
    among the arguments, wherever they stand, and makes the query of all the
    other arguments, in their order, joined by single spaces. *)
Theorem parseArgs_switches (argv : list jsstring) :
  forallb (fun a => negb (isValueOrHelpFlag a)) (drop 2 argv) = true ->
  parseArgs parseInt10 argv
  = Parsed {| cli_query :=
                join (Some <$> List.filter (fun a => negb (isSwitch a)) (drop 2 argv))
                     [32];
              cli_basePath := Some (lit "https://nx.dev/docs/pagefind/");
              cli_limit := 10%float;
              cli_json := existsb (fun a => sameString a "--json") (drop 2 argv);
              cli_verbose := existsb (fun a => sameString a "--verbose") (drop 2 argv) |}.
Proof.
  intros H. unfold parseArgs. rewrite parseArgsLoop_switches by exact H. reflexivity.
Qed.

Lemma parseArgsLoop_help pre : forall opts positional h post,
  forallb (fun a => negb (isValueOrHelpFlag a)) pre = true ->
  sameString h "--help" || sameString h "-h" = true ->
  parseArgsLoop parseInt10 opts positional (pre ++ h :: post) = Exit 0 USAGE.
Proof.
  induction pre as [|a pre IH]; intros opts positional h post Hpre Hh.
  - cbn [app parseArgsLoop].
    assert (Hb : sameString h "--base-path" = false
                 /\ sameString h "--limit" = false
                 /\ sameString h "--json" = false
                 /\ sameString h "--verbose" = false).
    { apply orb_true_iff in Hh as [Hh|Hh]; unfold sameString in *;
        apply bool_decide_eq_true in Hh; subst h; repeat split. }
    destruct Hb as (-> & -> & -> & ->). rewrite Hh. reflexivity.
  - cbn [forallb] in Hpre. apply andb_true_iff in Hpre as [Ha Hpre].
    apply negb_true_iff, isValueOrHelpFlag_false in Ha as (Hb & Hl & Hhelp).
    cbn [app parseArgsLoop]. rewrite Hb, Hl, Hhelp.
    destruct (sameString a "--json"); [apply IH; assumption|].
    destruct (sameString a "--verbose"); apply IH; assumption.
Qed.

(** X23. When [--help] or [-h] stands among the arguments and no argument
    before it is [--base-path] or [--limit], which would take it as their
    value, the usage is printed and the process exits with the code 0,
    whatever follows; no search is made. *)
Theorem mainStart_help (argv pre post : list jsstring) (h : jsstring) :
  drop 2 argv = pre ++ h :: post ->
  forallb (fun a => negb (isValueOrHelpFlag a)) pre = true ->
  sameString h "--help" || sameString h "-h" = true ->
  parseArgs parseInt10 argv = Exit 0 USAGE
  /\ mainStart parseInt10 argv = Exit 0 USAGE.
Proof.
  intros Hargs Hpre Hh.
  assert (H : parseArgs parseInt10 argv = Exit 0 USAGE).
  { unfold parseArgs. rewrite Hargs. apply parseArgsLoop_help; assumption. }
  split; [exact H|]. unfold mainStart. rewrite H. reflexivity.
Qed.

(** X24. When every argument is [--json] or [--verbose], and so when there
    is no argument at all, the query is empty: the program prints that no
    search query was provided and exits with the code 1 before any client is
    made. *)
Theorem mainStart_no_query (argv : list jsstring) :
  forallb isSwitch (drop 2 argv) = true ->
  mainStart parseInt10 argv = Exit 1 NO_QUERY.
Proof.
  intros H. unfold mainStart, parseArgs.
  assert (Hflags : forallb (fun a => negb (isValueOrHelpFlag a)) (drop 2 argv) = true).
  { apply forallb_forall. intros a Ha.
    apply (proj1 (forallb_forall _ _) H) in Ha. unfold isSwitch in Ha.
    apply orb_true_iff in Ha as [Ha|Ha]; unfold sameString in Ha;
      apply bool_decide_eq_true in Ha; subst a; reflexivity. }
  rewrite parseArgsLoop_switches by exact Hflags.
  assert (Hnone : List.filter (fun a => negb (isSwitch a)) (drop 2 argv) = []).
  { generalize dependent (drop 2 argv). intros args Hs _.
    induction args as [|a args IH]; [reflexivity|].
    cbn in Hs |- *. apply andb_true_iff in Hs as [Ha Hs]. rewrite Ha. apply IH, Hs. }
  rewrite Hnone. reflexivity.
Qed.

End CommandLineFacts.

Lemma parseArgs_switches_witness :
  parseArgs (fun _ => 0%float)
            [lit "node"; lit "cli.ts"; lit "webpack"; lit "--json"; lit "configuration"]
  = Parsed {| cli_query :=
                join (Some <$> List.filter (fun a => negb (isSwitch a))
                        (drop 2 [lit "node"; lit "cli.ts"; lit "webpack"; lit "--json";
                                 lit "configuration"]))
                     [32];
              cli_basePath := Some (lit "https://nx.dev/docs/pagefind/");
              cli_limit := 10%float;
              cli_json :=
                existsb (fun a => sameString a "--json")
                        (drop 2 [lit "node"; lit "cli.ts"; lit "webpack"; lit "--json";
                                 lit "configuration"]);
              cli_verbose :=
                existsb (fun a => sameString a "--verbose")
                        (drop 2 [lit "node"; lit "cli.ts"; lit "webpack"; lit "--json";
                                 lit "configuration"]) |}.
Proof.
  apply (parseArgs_switches (fun _ => 0%float)
           [lit "node"; lit "cli.ts"; lit "webpack"; lit "--json"; lit "configuration"]).
  vm_compute. reflexivity.
Defined.

Lemma mainStart_help_witness :
  parseArgs (fun _ => 0%float)
            [lit "node"; lit "cli.ts"; lit "webpack"; lit "-h"; lit "--limit"]
  = Exit 0 USAGE
  /\ mainStart (fun _ => 0%float)
               [lit "node"; lit "cli.ts"; lit "webpack"; lit "-h"; lit "--limit"]
     = Exit 0 USAGE.
Proof.
  apply (mainStart_help (fun _ => 0%float)
           [lit "node"; lit "cli.ts"; lit "webpack"; lit "-h"; lit "--limit"]
           [lit "webpack"] [lit "--limit"] (lit "-h")).
  - reflexivity.
  - vm_compute. reflexivity.
  - vm_compute. reflexivity.
Defined.

Lemma mainStart_no_query_witness :
  mainStart (fun _ => 0%float) [lit "node"; lit "cli.ts"; lit "--verbose"; lit "--json"]
  = Exit 1 NO_QUERY.
Proof.
  apply (mainStart_no_query (fun _ => 0%float)
           [lit "node"; lit "cli.ts"; lit "--verbose"; lit "--json"]).
  vm_compute. reflexivity.
Defined.

(** ** The excerpt of a whole page *)

Lemma join_empty_separator l : join (Some <$> l) [] = concat l.
Proof.
  induction l as [|x l IH]; [reflexivity|].
  destruct l as [|y l]; [cbn; rewrite app_nil_r; reflexivity|].
  change (join (Some <$> x :: y :: l) []) with (x ++ [] ++ join (Some <$> y :: l) []).
  rewrite IH. reflexivity.
Qed.

Lemma splitGo_unit_concat (z : N) s : forall cur,
  concat (splitGo [z] 0 cur s) = rev cur ++ List.filter (fun c => negb (c =? z)) s.
Proof.
  induction s as [|x s IH]; intros cur; [cbn; rewrite app_nil_r; reflexivity|].
  cbn [splitGo startsWith List.filter length Nat.sub].
  replace (startsWith s []) with true by (destruct s; reflexivity).
  destruct (x =? z); cbn [andb negb].
  - cbn [concat]. rewrite IH. reflexivity.
  - rewrite IH. cbn [rev]. rewrite <- app_assoc. reflexivity.
Qed.

Lemma clampWindow_whole start length count :
  (Z.of_nat count <= length)%Z ->
  clampWindow start length (Z.of_nat count) 0 = (0%Z, Z.of_nat count).
Proof.
  intros H. unfold clampWindow.
  repeat match goal with
         | |- context [(?a <? ?b)%Z] => destruct (Z.ltb_spec a b)
         end; f_equal; lia.
Qed.

Lemma slice_whole {A} (arr : list A) :
  slice arr 0 (0 + Z.of_nat (length arr)) = arr.
Proof.
  unfold slice, sliceIndex. cbn [Z.ltb Z.compare].
  destruct (Z.ltb_spec (0 + Z.of_nat (length arr)) 0); [lia|].
  replace (Z.to_nat (Z.min (0 + Z.of_nat (length arr)) (Z.of_nat (length arr))
                     - Z.min 0 (Z.of_nat (length arr))))
    with (length arr) by lia.
  replace (Z.to_nat (Z.min 0 (Z.of_nat (length arr)))) with 0%nat by lia.
  cbn [drop]. apply firstn_all.
Qed.

(** X25. On a content whose words are separated by zero-width spaces,
    without highlights and with a length that is not below the number of
    words, the excerpt that [buildExcerpt] gives is the whole content with
    the zero-width spaces taken out, trimmed, whatever the start asked
    for: no word is lost or reordered. *)
Theorem buildExcerpt_whole_zws (content : jsstring) (start length : Z) :
  includes content ZWS = true ->
  (Z.of_nat (List.length (tokenize content)) <= length)%Z ->
  buildExcerpt content start length [] None None = trim (removeZws content).
Proof.
  intros Hz Hlen. unfold buildExcerpt. cbn [fold_left default].
  rewrite clampWindow_whole by exact Hlen. rewrite slice_whole.
  unfold tokenize. rewrite Hz, join_empty_separator.
  unfold split, ZWS. rewrite splitGo_unit_concat. reflexivity.
Qed.

Lemma buildExcerpt_whole_zws_witness :
  buildExcerpt (lit "a" ++ ZWS ++ lit "b c" ++ ZWS ++ lit "d ") 4 9 [] None None
  = trim (removeZws (lit "a" ++ ZWS ++ lit "b c" ++ ZWS ++ lit "d ")).
Proof.
  apply (buildExcerpt_whole_zws (lit "a" ++ ZWS ++ lit "b c" ++ ZWS ++ lit "d ") 4 9).
  - vm_compute. reflexivity.
  - vm_compute. discriminate.
Defined.
